(** * path-weaver: the trace-producing shortest-path engine

    A shallow embedding of [src/core/graph.ts], [src/core/types.ts],
    [src/core/algorithms/dijkstra.ts], [src/core/algorithms/astar.ts] and of
    [generateSteps] in [src/hooks/useAlgorithmVisualizer.ts].

    Conventions of the embedding.
    - A JavaScript [Map<string, V>] is an insertion-ordered association list
      with one entry per key; a [Set<string>] is an insertion-ordered list
      without repetition.  Iteration order is the list order.
    - A JavaScript [number] is an exact integer, [Infinity] or [NaN]
      (type [num]); floating-point rounding is not modelled.  The result of
      [Map.get] is an [option]; where the source uses an absent result as a
      number, it behaves as [NaN] ([undefined + w], [x < undefined]).
    - The [Set] objects stored in [Graph.adjacencyList] are mutable and are
      shared between the graph values produced by the edit operations
      ([new Map(m)] copies the map, not the sets it holds).  They live in a
      [Store]; the adjacency map holds their locations.
    - A generator is the list of the steps it yields together with the way
      the run ends ([Outcome]); loops that are not bounded by a data
      structure take a fuel argument. *)

From Stdlib Require Import List String Ascii ZArith Lia Bool Arith Permutation.
From Stdlib Require Import DecimalString.
Import ListNotations.

Local Open Scope string_scope.
Local Open Scope list_scope.

(* ================================================================== *)
(** ** JavaScript [Map] and [Set] with string keys *)
(* ================================================================== *)

Definition JsMap (V : Type) : Type := list (string * V).
Definition JsSet : Type := list string.

Fixpoint map_get {V : Type} (k : string) (m : JsMap V) : option V :=
  match m with
  | [] => None
  | (k', v) :: m' => if String.eqb k' k then Some v else map_get k m'
  end.

Definition map_has {V : Type} (k : string) (m : JsMap V) : bool :=
  match map_get k m with Some _ => true | None => false end.

(** [m.set(k, v)]: an existing key keeps its position, a new key goes last. *)
Fixpoint map_set {V : Type} (k : string) (v : V) (m : JsMap V) : JsMap V :=
  match m with
  | [] => [(k, v)]
  | (k', v') :: m' =>
      if String.eqb k' k then (k, v) :: m' else (k', v') :: map_set k v m'
  end.

Definition map_delete {V : Type} (k : string) (m : JsMap V) : JsMap V :=
  filter (fun kv => negb (String.eqb (fst kv) k)) m.

Definition map_keys {V : Type} (m : JsMap V) : list string := map fst m.

Fixpoint set_has (x : string) (s : JsSet) : bool :=
  match s with
  | [] => false
  | y :: s' => if String.eqb y x then true else set_has x s'
  end.

Definition set_add (x : string) (s : JsSet) : JsSet :=
  if set_has x s then s else s ++ [x].

Definition set_delete (x : string) (s : JsSet) : JsSet :=
  filter (fun y => negb (String.eqb y x)) s.

(* ================================================================== *)
(** ** JavaScript numbers *)
(* ================================================================== *)

Inductive num : Type :=
| Fin (z : Z)
| PInf
| NaN.

Definition num_add (a b : num) : num :=
  match a, b with
  | NaN, _ | _, NaN => NaN
  | Fin x, Fin y => Fin (x + y)
  | _, _ => PInf
  end.

(** [a < b] *)
Definition num_lt (a b : num) : bool :=
  match a, b with
  | Fin x, Fin y => (x <? y)%Z
  | Fin _, PInf => true
  | _, _ => false
  end.

(** [a <= b] *)
Definition num_le (a b : num) : bool :=
  match a, b with
  | Fin x, Fin y => (x <=? y)%Z
  | Fin _, PInf => true
  | PInf, PInf => true
  | _, _ => false
  end.

Definition num_eqb (a b : num) : bool :=
  match a, b with
  | Fin x, Fin y => (x =? y)%Z
  | PInf, PInf => true
  | _, _ => false
  end.

(** A possibly [undefined] value used as a number. *)
Definition as_num (o : option num) : num :=
  match o with Some n => n | None => NaN end.

(** [String(n)] / template interpolation of a number. *)
Definition Z_to_string (z : Z) : string := NilZero.string_of_int (Z.to_int z).

Definition num_to_string (n : num) : string :=
  match n with
  | Fin z => Z_to_string z
  | PInf => "Infinity"
  | NaN => "NaN"
  end.

(** Template interpolation of a value that may be [undefined]. *)
Definition onum_to_string (o : option num) : string :=
  match o with Some n => num_to_string n | None => "undefined" end.

(** [n.toFixed(1)] on the modelled numbers. *)
Definition toFixed1 (n : num) : string :=
  match n with
  | Fin z => (Z_to_string z ++ ".0")%string
  | PInf => "Infinity"
  | NaN => "NaN"
  end.

(** [src/core/types.ts] *)

Record Node : Type := mkNode {
  node_id : string;
  node_x : Z;
  node_y : Z;
  node_label : option string
}.

Record Edge : Type := mkEdge {
  edge_id : string;
  edge_source : string;
  edge_target : string;
  edge_weight : Z;
  edge_directed : option bool
}.

(** Location of a [Set] object in the store. *)
Definition Loc : Type := nat.

Record Graph : Type := mkGraph {
  nodes : JsMap Node;
  edges : JsMap Edge;
  adjacencyList : JsMap Loc;
  directed : bool
}.

Definition Store : Type := list JsSet.

Definition deref (h : Store) (l : Loc) : option JsSet := nth_error h l.

Fixpoint store_upd (h : Store) (l : Loc) (f : JsSet -> JsSet) : Store :=
  match h, l with
  | [], _ => []
  | s :: h', O => f s :: h'
  | s :: h', S l' => s :: store_upd h' l' f
  end.

(** [new Set()]: the fresh object sits at the end of the store. *)
Definition store_alloc (h : Store) : Store * Loc := (h ++ [[]], List.length h).

(* ================================================================== *)
(** ** [src/core/graph.ts] *)
(* ================================================================== *)

Definition createGraph (directed : bool) : Graph :=
  {| nodes := []; edges := []; adjacencyList := []; directed := directed |}.

(** [if (!adj.has(id)) adj.set(id, new Set())] *)
Definition ensure_adjacency (h : Store) (adj : JsMap Loc) (id : string)
  : Store * JsMap Loc :=
  if map_has id adj then (h, adj)
  else let '(h', l) := store_alloc h in (h', map_set id l adj).

Definition addNode (h : Store) (graph : Graph) (node : Node) : Store * Graph :=
  let newNodes := map_set (node_id node) node (nodes graph) in
  let '(h', newAdjacency) :=
    ensure_adjacency h (adjacencyList graph) (node_id node) in
  (h', {| nodes := newNodes;
          edges := edges graph;
          adjacencyList := newAdjacency;
          directed := directed graph |}).

(** [const s = adj.get(id); if (s) s.delete(edgeId)] *)
Definition adjacency_delete (h : Store) (adj : JsMap Loc) (id edgeId : string)
  : Store :=
  match map_get id adj with
  | Some l => store_upd h l (set_delete edgeId)
  | None => h
  end.

(** One turn of the loop of [removeNode] over [graph.edges]. *)
Definition removeNode_step (nodeId : string) (newAdjacency : JsMap Loc)
    (acc : Store * JsMap Edge) (entry : string * Edge) : Store * JsMap Edge :=
  let '(h, newEdges) := acc in
  let '(edgeId, edge) := entry in
  if String.eqb (edge_source edge) nodeId || String.eqb (edge_target edge) nodeId
  then
    let otherId :=
      if String.eqb (edge_source edge) nodeId
      then edge_target edge else edge_source edge in
    (adjacency_delete h newAdjacency otherId edgeId, map_delete edgeId newEdges)
  else (h, newEdges).

Definition removeNode (h : Store) (graph : Graph) (nodeId : string)
  : Store * Graph :=
  let newNodes := map_delete nodeId (nodes graph) in
  let '(h', newEdges) :=
    fold_left (removeNode_step nodeId (adjacencyList graph))
              (edges graph) (h, edges graph) in
  (h', {| nodes := newNodes;
          edges := newEdges;
          adjacencyList := map_delete nodeId (adjacencyList graph);
          directed := directed graph |}).

(** [adj.get(id)!.add(edgeId)] *)
Definition adjacency_add (h : Store) (adj : JsMap Loc) (id edgeId : string)
  : Store :=
  match map_get id adj with
  | Some l => store_upd h l (set_add edgeId)
  | None => h
  end.

Definition addEdge (h : Store) (graph : Graph) (edge : Edge) : Store * Graph :=
  let stored :=
    {| edge_id := edge_id edge;
       edge_source := edge_source edge;
       edge_target := edge_target edge;
       edge_weight := edge_weight edge;
       edge_directed := Some (directed graph) |} in
  let newEdges := map_set (edge_id edge) stored (edges graph) in
  let '(h1, adj1) :=
    ensure_adjacency h (adjacencyList graph) (edge_source edge) in
  let h2 := adjacency_add h1 adj1 (edge_source edge) (edge_id edge) in
  let '(h3, adj3) :=
    if directed graph then (h2, adj1)
    else
      let '(h', adj') := ensure_adjacency h2 adj1 (edge_target edge) in
      (adjacency_add h' adj' (edge_target edge) (edge_id edge), adj') in
  (h3, {| nodes := nodes graph;
          edges := newEdges;
          adjacencyList := adj3;
          directed := directed graph |}).

Definition removeEdge (h : Store) (graph : Graph) (edgeId : string)
  : Store * Graph :=
  match map_get edgeId (edges graph) with
  | None => (h, graph)
  | Some edge =>
      let newEdges := map_delete edgeId (edges graph) in
      let h1 :=
        adjacency_delete h (adjacencyList graph) (edge_source edge) edgeId in
      let h2 :=
        if directed graph then h1
        else adjacency_delete h1 (adjacencyList graph) (edge_target edge) edgeId in
      (h2, {| nodes := nodes graph;
              edges := newEdges;
              adjacencyList := adjacencyList graph;
              directed := directed graph |})
  end.

Record Neighbor : Type := mkNeighbor {
  nb_nodeId : string;
  nb_edgeId : string;
  nb_weight : Z
}.

(** The body of the loop of [getNeighbors] for one edge id. *)
Definition neighbor_of (graph : Graph) (nodeId edgeId : string)
  : option Neighbor :=
  match map_get edgeId (edges graph) with
  | None => None
  | Some edge =>
      if String.eqb (edge_source edge) nodeId then
        Some (mkNeighbor (edge_target edge) edgeId (edge_weight edge))
      else if negb (directed graph) && String.eqb (edge_target edge) nodeId then
        Some (mkNeighbor (edge_source edge) edgeId (edge_weight edge))
      else None
  end.

Fixpoint collect_neighbors (graph : Graph) (nodeId : string)
    (edgeIds : list string) : list Neighbor :=
  match edgeIds with
  | [] => []
  | edgeId :: rest =>
      match neighbor_of graph nodeId edgeId with
      | Some nb => nb :: collect_neighbors graph nodeId rest
      | None => collect_neighbors graph nodeId rest
      end
  end.

Definition getNeighbors (h : Store) (graph : Graph) (nodeId : string)
  : list Neighbor :=
  match map_get nodeId (adjacencyList graph) with
  | None => []
  | Some l =>
      match deref h l with
      | None => []
      | Some edgeIds => collect_neighbors graph nodeId edgeIds
      end
  end.

Fixpoint find_edge_between (graph : Graph) (sourceId targetId : string)
    (edgeIds : list string) : option Edge :=
  match edgeIds with
  | [] => None
  | edgeId :: rest =>
      match map_get edgeId (edges graph) with
      | None => find_edge_between graph sourceId targetId rest
      | Some edge =>
          if String.eqb (edge_source edge) sourceId
             && String.eqb (edge_target edge) targetId then Some edge
          else if negb (directed graph)
                  && String.eqb (edge_source edge) targetId
                  && String.eqb (edge_target edge) sourceId then Some edge
          else find_edge_between graph sourceId targetId rest
      end
  end.

Definition getEdgeBetween (h : Store) (graph : Graph)
    (sourceId targetId : string) : option Edge :=
  match map_get sourceId (adjacencyList graph) with
  | None => None
  | Some l =>
      match deref h l with
      | None => None
      | Some edgeIds => find_edge_between graph sourceId targetId edgeIds
      end
  end.

Definition sample_nodes : list Node :=
  [ mkNode "A" 100 200 (Some "A");
    mkNode "B" 250 100 (Some "B");
    mkNode "C" 250 300 (Some "C");
    mkNode "D" 400 150 (Some "D");
    mkNode "E" 400 250 (Some "E");
    mkNode "F" 550 200 (Some "F") ].

Definition sample_edges : list Edge :=
  [ mkEdge "AB" "A" "B" 4 None;
    mkEdge "AC" "A" "C" 2 None;
    mkEdge "BD" "B" "D" 5 None;
    mkEdge "CD" "C" "D" 8 None;
    mkEdge "CE" "C" "E" 3 None;
    mkEdge "DE" "D" "E" 2 None;
    mkEdge "DF" "D" "F" 6 None;
    mkEdge "EF" "E" "F" 3 None ].

Definition add_nodes (hg : Store * Graph) (ns : list Node) : Store * Graph :=
  fold_left (fun hg n => addNode (fst hg) (snd hg) n) ns hg.

Definition add_edges (hg : Store * Graph) (es : list Edge) : Store * Graph :=
  fold_left (fun hg e => addEdge (fst hg) (snd hg) e) es hg.

Definition createSampleGraph (h : Store) : Store * Graph :=
  add_edges (add_nodes (h, createGraph false) sample_nodes) sample_edges.

(** A sequence of edit calls, each applied to the graph the previous one
    returned. *)
Inductive Edit : Type :=
| EAddNode (node : Node)
| ERemoveNode (nodeId : string)
| EAddEdge (edge : Edge)
| ERemoveEdge (edgeId : string).

Definition apply_edit (hg : Store * Graph) (e : Edit) : Store * Graph :=
  match e with
  | EAddNode node => addNode (fst hg) (snd hg) node
  | ERemoveNode nodeId => removeNode (fst hg) (snd hg) nodeId
  | EAddEdge edge => addEdge (fst hg) (snd hg) edge
  | ERemoveEdge edgeId => removeEdge (fst hg) (snd hg) edgeId
  end.

Definition run_edits (hg : Store * Graph) (es : list Edit) : Store * Graph :=
  fold_left apply_edit es hg.

(** What a holder of the graph value [graph] reads from it in store [h]. *)
Definition adjacency_view (h : Store) (graph : Graph)
  : list (string * option JsSet) :=
  map (fun kl => (fst kl, deref h (snd kl))) (adjacencyList graph).

Definition graph_view (h : Store) (graph : Graph)
  : JsMap Node * JsMap Edge * list (string * option JsSet) * bool :=
  (nodes graph, edges graph, adjacency_view h graph, directed graph).

(** The edge id [edgeId] is in the adjacency set of [nodeId]. *)
Definition in_adj (h : Store) (adj : JsMap Loc) (nodeId edgeId : string)
  : Prop :=
  exists l ids, map_get nodeId adj = Some l
                /\ deref h l = Some ids /\ In edgeId ids.

Definition in_adjacency (h : Store) (graph : Graph) (nodeId edgeId : string)
  : Prop :=
  in_adj h (adjacencyList graph) nodeId edgeId.

(** The three parts of the data-model invariant of the graph. *)
Definition adjacency_names_edges (h : Store) (graph : Graph) : Prop :=
  forall nodeId edgeId, in_adjacency h graph nodeId edgeId ->
    exists edge, map_get edgeId (edges graph) = Some edge.

Definition endpoints_exist (graph : Graph) : Prop :=
  forall edgeId edge, map_get edgeId (edges graph) = Some edge ->
    map_has (edge_source edge) (nodes graph) = true
    /\ map_has (edge_target edge) (nodes graph) = true.

Definition undirected_both_ends (h : Store) (graph : Graph) : Prop :=
  directed graph = false ->
  forall edgeId edge, map_get edgeId (edges graph) = Some edge ->
    in_adjacency h graph (edge_source edge) edgeId
    /\ in_adjacency h graph (edge_target edge) edgeId.

Definition graph_invariant (h : Store) (graph : Graph) : Prop :=
  adjacency_names_edges h graph
  /\ endpoints_exist graph
  /\ undirected_both_ends h graph.

(** An [addEdge] call that names a new edge between existing nodes. *)
Definition edit_ok (graph : Graph) (e : Edit) : Prop :=
  match e with
  | EAddEdge edge =>
      map_get (edge_id edge) (edges graph) = None
      /\ map_has (edge_source edge) (nodes graph) = true
      /\ map_has (edge_target edge) (nodes graph) = true
  | _ => True
  end.

Fixpoint edits_ok (hg : Store * Graph) (es : list Edit) : Prop :=
  match es with
  | [] => True
  | e :: rest => edit_ok (snd hg) e /\ edits_ok (apply_edit hg e) rest
  end.

(** Invariant of the graphs built by well-formed edit sequences; it implies
    [graph_invariant]. *)
Definition incident (nodeId : string) (edge : Edge) : bool :=
  String.eqb (edge_source edge) nodeId || String.eqb (edge_target edge) nodeId.

Definition other_end (nodeId : string) (edge : Edge) : string :=
  if String.eqb (edge_source edge) nodeId
  then edge_target edge else edge_source edge.

Definition loc_valid (h : Store) (adj : JsMap Loc) : Prop :=
  forall n l, map_get n adj = Some l -> l < List.length h.

Definition loc_inj (adj : JsMap Loc) : Prop :=
  forall n1 n2 l, map_get n1 adj = Some l -> map_get n2 adj = Some l -> n1 = n2.

Record graph_ok (h : Store) (graph : Graph) : Prop := mk_graph_ok {
  ok_edge_keys : NoDup (map_keys (edges graph));
  ok_loc_valid : loc_valid h (adjacencyList graph);
  ok_loc_inj : loc_inj (adjacencyList graph);
  ok_adjacent : forall n id, in_adjacency h graph n id ->
      exists e, map_get id (edges graph) = Some e
                /\ (edge_source e = n
                    \/ (directed graph = false /\ edge_target e = n));
  ok_endpoints : endpoints_exist graph;
  ok_listed : forall id e, map_get id (edges graph) = Some e ->
      in_adjacency h graph (edge_source e) id
      /\ (directed graph = false -> in_adjacency h graph (edge_target e) id)
}.

(* ================================================================== *)
(** ** [AlgorithmStep] ([src/core/types.ts]) *)
(* ================================================================== *)

Inductive NodeState : Type :=
| NsDefault | NsCurrent | NsVisited | NsInQueue | NsPath | NsStart | NsEnd.

Inductive EdgeState : Type :=
| EsDefault | EsConsidering | EsRelaxed | EsRejected | EsPath.

Inductive StepType : Type :=
| Init | SelectNode | ExamineEdge | RelaxEdge | SkipEdge
| MarkVisited | UpdateQueue | PathFound | NoPath | Complete.

Record Explanation : Type := mkExplanation {
  beginner : string;
  advanced : string
}.

Record CurrentEdge : Type := mkCurrentEdge {
  ce_edgeId : string;
  ce_from : string;
  ce_to : string;
  ce_weight : Z;
  ce_oldDistance : option num;
  ce_newDistance : num;
  ce_wasRelaxed : bool
}.

Definition PQEntry : Type := (string * num)%type.

Record AlgorithmStep : Type := mkStep {
  step_type : StepType;
  currentNode : option string;
  distances : JsMap num;
  predecessors : JsMap (option string);
  visited : JsSet;
  queue : list PQEntry;
  nodeStates : JsMap NodeState;
  edgeStates : JsMap EdgeState;
  pseudocodeLine : nat;
  explanation : Explanation;
  currentEdge : option CurrentEdge;
  shortestPath : option (list string);
  totalDistance : option num
}.

(** How the run of a generator ends: it returns, it throws, or the model
    runs out of fuel. *)
Inductive Ending : Type :=
| Returned
| Threw (error : string)
| OutOfFuel.

Definition Run : Type := (list AlgorithmStep * Ending)%type.

Definition StepTypeEqb (a b : StepType) : bool :=
  match a, b with
  | Init, Init | SelectNode, SelectNode | ExamineEdge, ExamineEdge
  | RelaxEdge, RelaxEdge | SkipEdge, SkipEdge | MarkVisited, MarkVisited
  | UpdateQueue, UpdateQueue | PathFound, PathFound | NoPath, NoPath
  | Complete, Complete => true
  | _, _ => false
  end.

(* ================================================================== *)
(** ** [PriorityQueue] (the same class in both algorithm files) *)
(* ================================================================== *)

Fixpoint list_set {A : Type} (l : list A) (i : nat) (x : A) : list A :=
  match l, i with
  | [], _ => []
  | _ :: l', O => x :: l'
  | y :: l', S i' => y :: list_set l' i' x
  end.

(** [[heap[i], heap[j]] = [heap[j], heap[i]]] *)
Definition heap_swap (heap : list PQEntry) (i j : nat) : list PQEntry :=
  match nth_error heap i, nth_error heap j with
  | Some a, Some b => list_set (list_set heap i b) j a
  | _, _ => heap
  end.

(** [heap[i].priority]; every use in the queue has [i] in range. *)
Definition priority_at (heap : list PQEntry) (i : nat) : num :=
  match nth_error heap i with
  | Some e => snd e
  | None => NaN
  end.

Fixpoint bubbleUp (fuel : nat) (heap : list PQEntry) (index : nat)
  : option (list PQEntry) :=
  match fuel with
  | O => None
  | S fuel' =>
      if Nat.ltb 0 index then
        let parentIndex := (index - 1) / 2 in
        if num_le (priority_at heap parentIndex) (priority_at heap index)
        then Some heap
        else bubbleUp fuel' (heap_swap heap parentIndex index) parentIndex
      else Some heap
  end.

Fixpoint bubbleDown (fuel : nat) (heap : list PQEntry) (index : nat)
  : option (list PQEntry) :=
  match fuel with
  | O => None
  | S fuel' =>
      let leftChild := 2 * index + 1 in
      let rightChild := 2 * index + 2 in
      let smallest := index in
      let smallest :=
        if Nat.ltb leftChild (List.length heap)
           && num_lt (priority_at heap leftChild) (priority_at heap smallest)
        then leftChild else smallest in
      let smallest :=
        if Nat.ltb rightChild (List.length heap)
           && num_lt (priority_at heap rightChild) (priority_at heap smallest)
        then rightChild else smallest in
      if Nat.eqb smallest index then Some heap
      else bubbleDown fuel' (heap_swap heap smallest index) smallest
  end.

(** [enqueue]: push, then sift up from the last index. *)
Definition enqueue (heap : list PQEntry) (item : string) (priority : num)
  : option (list PQEntry) :=
  bubbleUp (S (List.length heap)) (heap ++ [(item, priority)]) (List.length heap).

(** [dequeue]: the item returned ([None] for [undefined]) and the heap left. *)
Definition dequeue (heap : list PQEntry)
  : option (option string * list PQEntry) :=
  match heap with
  | [] => Some (None, [])
  | min :: _ =>
      let last := List.last heap min in
      match removelast heap with
      | [] => Some (Some (fst min), [])
      | _ :: rest =>
          match bubbleDown (S (List.length rest)) (last :: rest) 0 with
          | Some heap' => Some (Some (fst min), heap')
          | None => None
          end
      end
  end.

Definition isEmpty (heap : list PQEntry) : bool :=
  match heap with [] => true | _ => false end.

Definition toArray (heap : list PQEntry) : list PQEntry := heap.

(* ================================================================== *)
(** ** Helpers shared by both algorithm files *)
(* ================================================================== *)

(** [predecessors.get(current) ?? null] *)
Definition predecessor_of (predecessors : JsMap (option string))
    (current : string) : option string :=
  match map_get current predecessors with
  | Some (Some p) => Some p
  | _ => None
  end.

Fixpoint reconstructPath_loop (fuel : nat) (predecessors : JsMap (option string))
    (current : option string) (path : list string) : option (list string) :=
  match current with
  | None => Some path
  | Some c =>
      match fuel with
      | O => None
      | S fuel' =>
          reconstructPath_loop fuel' predecessors
            (predecessor_of predecessors c) (c :: path)
      end
  end.

Definition reconstructPath (fuel : nat) (predecessors : JsMap (option string))
    (targetId : string) : option (list string) :=
  reconstructPath_loop fuel predecessors (Some targetId) [].

Fixpoint findEdgeId_in (isDirected : bool) (es : JsMap Edge)
    (nodeA nodeB : string) : option string :=
  match es with
  | [] => None
  | (edgeId, edge) :: rest =>
      if (String.eqb (edge_source edge) nodeA && String.eqb (edge_target edge) nodeB)
         || (negb isDirected
             && String.eqb (edge_source edge) nodeB
             && String.eqb (edge_target edge) nodeA)
      then Some edgeId
      else findEdgeId_in isDirected rest nodeA nodeB
  end.

Definition findEdgeId (graph : Graph) (nodeA nodeB : string) : option string :=
  findEdgeId_in (directed graph) (edges graph) nodeA nodeB.

(** Truthiness of a string and of an optional string ([if (s)]). *)
Definition truthy_string (s : string) : bool := negb (String.eqb s "").

Definition truthy (o : option string) : bool :=
  match o with Some s => truthy_string s | None => false end.

(** [id === targetId] where [targetId] may be [undefined]. *)
Definition is_target (id : string) (targetId : option string) : bool :=
  match targetId with Some t => String.eqb id t | None => false end.

(** The loop that marks the path: for [i < path.length - 1], the edge between
    [path[i]] and [path[i+1]] and the node [path[i]]. *)
Fixpoint mark_path (graph : Graph) (sourceId : string) (path : list string)
    (ns : JsMap NodeState) (es : JsMap EdgeState)
  : JsMap NodeState * JsMap EdgeState :=
  match path with
  | a :: ((b :: _) as rest) =>
      let es1 :=
        match findEdgeId graph a b with
        | Some edgeId =>
            if truthy_string edgeId then map_set edgeId EsPath es else es
        | None => es
        end in
      let ns1 := map_set a (if String.eqb a sourceId then NsStart else NsPath) ns in
      mark_path graph sourceId rest ns1 es1
  | _ => (ns, es)
  end.

(** [for (const [id, state] of edgeStates) if (state === 'relaxed') ...] *)
Definition reset_relaxed (es : JsMap EdgeState) : JsMap EdgeState :=
  map (fun kv => match snd kv with
                 | EsRelaxed => (fst kv, EsDefault)
                 | _ => kv
                 end) es.

Definition tpl (parts : list string) : string := String.concat "" parts.

(** [x === Infinity ? '∞' : x] inside a template. *)
Definition inf_or (o : option num) : string :=
  match o with
  | Some PInf => "∞"
  | _ => onum_to_string o
  end.

(** Total number of neighbour entries: the bound on the main loops. *)
Definition run_fuel (h : Store) (graph : Graph) : nat :=
  2 + list_sum (map (fun n => List.length (getNeighbors h graph n))
                    (map_keys (adjacencyList graph))).

(** What a loop body hands back: the state to go on with, or the end of the
    run. *)
Inductive Flow (S : Type) : Type :=
| Continue (st : S)
| Stop (e : Ending).
Arguments Continue {S} st.
Arguments Stop {S} e.

(* ================================================================== *)
(** ** [src/core/algorithms/dijkstra.ts] *)
(* ================================================================== *)

Record DState : Type := mkDState {
  ds_distances : JsMap num;
  ds_predecessors : JsMap (option string);
  ds_visited : JsSet;
  ds_nodeStates : JsMap NodeState;
  ds_edgeStates : JsMap EdgeState;
  ds_pq : list PQEntry
}.

Definition ds_with_nodeStates (st : DState) (ns : JsMap NodeState) : DState :=
  mkDState (ds_distances st) (ds_predecessors st) (ds_visited st) ns
           (ds_edgeStates st) (ds_pq st).

Definition ds_with_edgeStates (st : DState) (es : JsMap EdgeState) : DState :=
  mkDState (ds_distances st) (ds_predecessors st) (ds_visited st)
           (ds_nodeStates st) es (ds_pq st).

Definition ds_with_visited (st : DState) (v : JsSet) : DState :=
  mkDState (ds_distances st) (ds_predecessors st) v (ds_nodeStates st)
           (ds_edgeStates st) (ds_pq st).

Definition ds_with_pq (st : DState) (pq : list PQEntry) : DState :=
  mkDState (ds_distances st) (ds_predecessors st) (ds_visited st)
           (ds_nodeStates st) (ds_edgeStates st) pq.

(** The fields every yielded object copies from the current state. *)
Definition dstep (ty : StepType) (cur : option string) (st : DState)
    (q : list PQEntry) (line : nat) (ex : Explanation)
    (ce : option CurrentEdge) (sp : option (list string)) (td : option num)
  : AlgorithmStep :=
  mkStep ty cur (ds_distances st) (ds_predecessors st) (ds_visited st) q
         (ds_nodeStates st) (ds_edgeStates st) line ex ce sp td.

Definition dijkstra_init_state (graph : Graph) (sourceId : string)
    (targetId : option string) (pq : list PQEntry) : DState :=
  let dist :=
    fold_left (fun m kv =>
                 map_set (fst kv)
                   (if String.eqb (fst kv) sourceId then Fin 0 else PInf) m)
              (nodes graph) [] in
  let pred := fold_left (fun m kv => map_set (fst kv) None m) (nodes graph) [] in
  let ns :=
    fold_left (fun m kv =>
                 map_set (fst kv)
                   (if String.eqb (fst kv) sourceId then NsStart else NsDefault) m)
              (nodes graph) [] in
  let ns :=
    match targetId with
    | Some t => if truthy_string t then map_set t NsEnd ns else ns
    | None => ns
    end in
  let es := fold_left (fun m kv => map_set (fst kv) EsDefault m) (edges graph) [] in
  mkDState dist pred [] ns es pq.

(** The body of the loop over the neighbours of [currentId]. *)
Definition dijkstra_edge (targetId : option string) (currentId : string)
    (nb : Neighbor) (st : DState) : list AlgorithmStep * Flow DState :=
  let neighborId := nb_nodeId nb in
  let edgeId := nb_edgeId nb in
  let weight := nb_weight nb in
  if set_has neighborId (ds_visited st) then ([], Continue st)
  else
    let currentDist := map_get currentId (ds_distances st) in
    let oldDist := map_get neighborId (ds_distances st) in
    let newDist := num_add (as_num currentDist) (Fin weight) in
    let st1 := ds_with_edgeStates st (map_set edgeId EsConsidering (ds_edgeStates st)) in
    let relaxes := num_lt newDist (as_num oldDist) in
    let examine :=
      dstep ExamineEdge (Some currentId) st1 (toArray (ds_pq st1)) 11
        (mkExplanation
           (tpl ["Looking at neighbor "; neighborId;
                 ". Current path to it costs "; inf_or oldDist;
                 ". Going through "; currentId; " would cost ";
                 num_to_string newDist; "."])
           (tpl ["Examining edge ("; currentId; ", "; neighborId;
                 "). alt = dist["; currentId; "] + w("; currentId; ",";
                 neighborId; ") = "; onum_to_string currentDist; " + ";
                 Z_to_string weight; " = "; num_to_string newDist]))
        (Some (mkCurrentEdge edgeId currentId neighborId weight oldDist newDist
                             relaxes))
        None None in
    if relaxes then
      match enqueue (ds_pq st1) neighborId newDist with
      | None => ([examine], Stop OutOfFuel)
      | Some pq' =>
          let ns :=
            if negb (is_target neighborId targetId)
            then map_set neighborId NsInQueue (ds_nodeStates st1)
            else ds_nodeStates st1 in
          let st2 :=
            mkDState (map_set neighborId newDist (ds_distances st1))
                     (map_set neighborId (Some currentId) (ds_predecessors st1))
                     (ds_visited st1) ns
                     (map_set edgeId EsRelaxed (ds_edgeStates st1)) pq' in
          let relax :=
            dstep RelaxEdge (Some currentId) st2 (toArray (ds_pq st2)) 14
              (mkExplanation
                 (tpl ["Found a shorter path to "; neighborId;
                       "! Updated distance from "; inf_or oldDist; " to ";
                       num_to_string newDist; "."])
                 (tpl ["Relaxation: "; num_to_string newDist; " < ";
                       inf_or oldDist; ", so dist["; neighborId; "] ← ";
                       num_to_string newDist; ", prev["; neighborId; "] ← ";
                       currentId]))
              (Some (mkCurrentEdge edgeId currentId neighborId weight oldDist
                                   newDist true))
              None None in
          ([examine; relax], Continue st2)
      end
    else
      let st2 := ds_with_edgeStates st1 (map_set edgeId EsRejected (ds_edgeStates st1)) in
      let skip :=
        dstep SkipEdge (Some currentId) st2 (toArray (ds_pq st2)) 13
          (mkExplanation
             (tpl ["Path through "; currentId; " to "; neighborId; " costs ";
                   num_to_string newDist;
                   ", which isn't better than the current ";
                   onum_to_string oldDist; ". No update needed."])
             (tpl ["No relaxation: "; num_to_string newDist; " ≥ ";
                   onum_to_string oldDist; ", so dist["; neighborId;
                   "] remains "; onum_to_string oldDist]))
          (Some (mkCurrentEdge edgeId currentId neighborId weight oldDist
                               newDist false))
          None None in
      let st3 := ds_with_edgeStates st2 (map_set edgeId EsDefault (ds_edgeStates st2)) in
      ([examine; skip], Continue st3).

Fixpoint dijkstra_neighbors (targetId : option string) (currentId : string)
    (neighbors : list Neighbor) (st : DState)
  : list AlgorithmStep * Flow DState :=
  match neighbors with
  | [] => ([], Continue st)
  | nb :: rest =>
      match dijkstra_edge targetId currentId nb st with
      | (steps1, Continue st1) =>
          let '(steps2, r) := dijkstra_neighbors targetId currentId rest st1 in
          (steps1 ++ steps2, r)
      | (steps1, Stop e) => (steps1, Stop e)
      end
  end.

(** The step yielded once the queue is empty. *)
Definition dijkstra_final (sourceId : string) (targetId : option string)
    (st : DState) : AlgorithmStep :=
  match targetId with
  | Some t =>
      if truthy_string t && negb (set_has t (ds_visited st)) then
        dstep NoPath None st [] 16
          (mkExplanation
             (tpl ["No path exists from "; sourceId; " to "; t; "."])
             (tpl ["Algorithm terminated. Target "; t; " unreachable from ";
                   sourceId; "."]))
          None None None
      else
        dstep Complete None st [] 16
          (mkExplanation
             (tpl ["Dijkstra's algorithm complete! Found shortest paths from ";
                   sourceId; " to all reachable nodes."])
             (tpl ["Algorithm terminated. Single-source shortest paths computed for all vertices reachable from ";
                   sourceId; "."]))
          None None None
  | None =>
      dstep Complete None st [] 16
        (mkExplanation
           (tpl ["Dijkstra's algorithm complete! Found shortest paths from ";
                 sourceId; " to all reachable nodes."])
           (tpl ["Algorithm terminated. Single-source shortest paths computed for all vertices reachable from ";
                 sourceId; "."]))
        None None None
  end.

Definition dijkstra_select (currentId : string) (st : DState) : AlgorithmStep :=
  dstep SelectNode (Some currentId) st (toArray (ds_pq st)) 8
    (mkExplanation
       (tpl ["Selecting node "; currentId;
             " because it has the smallest known distance (";
             onum_to_string (map_get currentId (ds_distances st)); ")."])
       (tpl ["Extract-min: u = "; currentId; " with dist[u] = ";
             onum_to_string (map_get currentId (ds_distances st));
             ". This distance is now final."]))
    None None None.

Definition dijkstra_mark (currentId : string) (st : DState) : AlgorithmStep :=
  dstep MarkVisited (Some currentId) st (toArray (ds_pq st)) 9
    (mkExplanation
       (tpl ["Node "; currentId;
             " is now permanently visited. We've found the shortest path to it."])
       (tpl ["Remove "; currentId; " from Q. dist["; currentId; "] = ";
             onum_to_string (map_get currentId (ds_distances st));
             " is now finalized."]))
    None None None.

(** The branch taken when the target is dequeued. *)
Definition dijkstra_found (graph : Graph) (sourceId targetId : string)
    (st : DState) : list AlgorithmStep * Ending :=
  let visited1 := set_add targetId (ds_visited st) in
  let ns1 := map_set targetId NsEnd (ds_nodeStates st) in
  match reconstructPath (S (List.length visited1)) (ds_predecessors st) targetId with
  | None => ([], OutOfFuel)
  | Some path =>
      let '(ns2, es2) := mark_path graph sourceId path ns1 (ds_edgeStates st) in
      let st1 :=
        mkDState (ds_distances st) (ds_predecessors st) visited1 ns2 es2
                 (ds_pq st) in
      ([dstep PathFound (Some targetId) st1 (toArray (ds_pq st1)) 16
          (mkExplanation
             (tpl ["Found the shortest path to "; targetId;
                   "! Total distance: ";
                   onum_to_string (map_get targetId (ds_distances st1)); "."])
             (tpl ["Target reached. Shortest path: ";
                   String.concat " → " path; " with total weight ";
                   onum_to_string (map_get targetId (ds_distances st1)); "."]))
          None (Some path) (map_get targetId (ds_distances st1))],
       Returned)
  end.

(** [if (currentId !== sourceId && currentId !== targetId)
        nodeStates.set(currentId, 'current')] *)
Definition dijkstra_current (sourceId : string) (targetId : option string)
    (currentId : string) (st : DState) : DState :=
  if negb (String.eqb currentId sourceId) && negb (is_target currentId targetId)
  then ds_with_nodeStates st (map_set currentId NsCurrent (ds_nodeStates st))
  else st.

(** [visited.add(currentId)] and the node state that goes with it. *)
Definition dijkstra_visit (sourceId : string) (targetId : option string)
    (currentId : string) (st : DState) : DState :=
  let st2 := ds_with_visited st (set_add currentId (ds_visited st)) in
  if negb (String.eqb currentId sourceId) && negb (is_target currentId targetId)
  then ds_with_nodeStates st2 (map_set currentId NsVisited (ds_nodeStates st2))
  else st2.

Definition dijkstra_reset (st : DState) : DState :=
  ds_with_edgeStates st (reset_relaxed (ds_edgeStates st)).

Fixpoint dijkstra_loop (fuel : nat) (h : Store) (graph : Graph)
    (sourceId : string) (targetId : option string) (st : DState) : Run :=
  match fuel with
  | O => ([], OutOfFuel)
  | S fuel' =>
      if isEmpty (ds_pq st) then
        ([dijkstra_final sourceId targetId st], Returned)
      else
        match dequeue (ds_pq st) with
        | None | Some (None, _) => ([], OutOfFuel)
        | Some (Some currentId, pq') =>
            let st0 := ds_with_pq st pq' in
            if set_has currentId (ds_visited st0) then
              dijkstra_loop fuel' h graph sourceId targetId st0
            else
              let st1 := dijkstra_current sourceId targetId currentId st0 in
              let select := dijkstra_select currentId st1 in
              if truthy targetId && is_target currentId targetId then
                let '(steps, e) := dijkstra_found graph sourceId currentId st1 in
                (select :: steps, e)
              else
                let st3 := dijkstra_visit sourceId targetId currentId st1 in
                let mark := dijkstra_mark currentId st3 in
                match dijkstra_neighbors targetId currentId
                        (getNeighbors h graph currentId) st3 with
                | (steps, Stop e) => (select :: mark :: steps, e)
                | (steps, Continue st4) =>
                    let '(rest, e) :=
                      dijkstra_loop fuel' h graph sourceId targetId
                                    (dijkstra_reset st4) in
                    (select :: mark :: steps ++ rest, e)
                end
        end
  end.

Definition dijkstra_init_step (sourceId : string) (st : DState) : AlgorithmStep :=
  dstep Init None st (toArray (ds_pq st)) 0
    (mkExplanation
       (tpl ["Starting Dijkstra's algorithm from node "; sourceId;
             ". All distances are set to infinity except the source, which is 0."])
       (tpl ["Initialization: dist["; sourceId; "] = 0, dist[v] = ∞ for all v ≠ ";
             sourceId; ". Priority queue contains all vertices."]))
    None None None.

(** The generator run with [fuel] turns of the main loop. *)
Definition dijkstra_run (fuel : nat) (h : Store) (graph : Graph)
    (sourceId : string) (targetId : option string) : Run :=
  match enqueue [] sourceId (Fin 0) with
  | None => ([], OutOfFuel)
  | Some pq =>
      let st := dijkstra_init_state graph sourceId targetId pq in
      let '(rest, e) := dijkstra_loop fuel h graph sourceId targetId st in
      (dijkstra_init_step sourceId st :: rest, e)
  end.

Definition generateDijkstraSteps (h : Store) (graph : Graph)
    (sourceId : string) (targetId : option string) : Run :=
  dijkstra_run (run_fuel h graph) h graph sourceId targetId.

(* ================================================================== *)
(** ** [src/core/algorithms/astar.ts] *)
(* ================================================================== *)

(** A call of the heuristic returns a number or throws.  Its first argument
    is the result of [graph.nodes.get(id)!], which is [undefined] when the id
    is not a node. *)
Inductive HResult : Type :=
| HValue (n : num)
| HThrow (error : string).

Definition Heuristic : Type := option Node -> Node -> HResult.

(** Calling a method of [undefined] ([x.toFixed(1)]). *)
Definition TypeError : string := "TypeError".

Record AState : Type := mkAState {
  as_gScore : JsMap num;
  as_fScore : JsMap num;
  as_predecessors : JsMap (option string);
  as_visited : JsSet;
  as_nodeStates : JsMap NodeState;
  as_edgeStates : JsMap EdgeState;
  as_openSet : list PQEntry;
  as_inOpenSet : JsSet
}.

Definition as_with_nodeStates (st : AState) (ns : JsMap NodeState) : AState :=
  mkAState (as_gScore st) (as_fScore st) (as_predecessors st) (as_visited st)
           ns (as_edgeStates st) (as_openSet st) (as_inOpenSet st).

Definition as_with_edgeStates (st : AState) (es : JsMap EdgeState) : AState :=
  mkAState (as_gScore st) (as_fScore st) (as_predecessors st) (as_visited st)
           (as_nodeStates st) es (as_openSet st) (as_inOpenSet st).

Definition as_with_visited (st : AState) (v : JsSet) : AState :=
  mkAState (as_gScore st) (as_fScore st) (as_predecessors st) v
           (as_nodeStates st) (as_edgeStates st) (as_openSet st)
           (as_inOpenSet st).

Definition as_with_open (st : AState) (pq : list PQEntry) (s : JsSet) : AState :=
  mkAState (as_gScore st) (as_fScore st) (as_predecessors st) (as_visited st)
           (as_nodeStates st) (as_edgeStates st) pq s.

Definition astep (ty : StepType) (cur : option string) (st : AState)
    (q : list PQEntry) (line : nat) (ex : Explanation)
    (ce : option CurrentEdge) (sp : option (list string)) (td : option num)
  : AlgorithmStep :=
  mkStep ty cur (as_gScore st) (as_predecessors st) (as_visited st) q
         (as_nodeStates st) (as_edgeStates st) line ex ce sp td.

Definition astar_init_state (graph : Graph) (sourceId targetId : string)
    (hValue : num) (pq : list PQEntry) : AState :=
  let g0 := fold_left (fun m kv => map_set (fst kv) PInf m) (nodes graph) [] in
  let f0 := fold_left (fun m kv => map_set (fst kv) PInf m) (nodes graph) [] in
  let pred := fold_left (fun m kv => map_set (fst kv) None m) (nodes graph) [] in
  let ns := fold_left (fun m kv => map_set (fst kv) NsDefault m) (nodes graph) [] in
  let ns := map_set targetId NsEnd (map_set sourceId NsStart ns) in
  let es := fold_left (fun m kv => map_set (fst kv) EsDefault m) (edges graph) [] in
  mkAState (map_set sourceId (Fin 0) g0) (map_set sourceId hValue f0) pred []
           ns es pq (set_add sourceId []).

(** The body of the loop over the neighbours of [currentId]. *)
Definition astar_edge (graph : Graph) (targetId : string) (targetNode : Node)
    (heuristic : Heuristic) (currentId : string) (nb : Neighbor) (st : AState)
  : list AlgorithmStep * Flow AState :=
  let neighborId := nb_nodeId nb in
  let edgeId := nb_edgeId nb in
  let weight := nb_weight nb in
  if set_has neighborId (as_visited st) then ([], Continue st)
  else
    let neighborNode := map_get neighborId (nodes graph) in
    let currentG := map_get currentId (as_gScore st) in
    let tentativeG := num_add (as_num currentG) (Fin weight) in
    let currentNeighborG := map_get neighborId (as_gScore st) in
    let st1 := as_with_edgeStates st (map_set edgeId EsConsidering (as_edgeStates st)) in
    let relaxes := num_lt tentativeG (as_num currentNeighborG) in
    match currentNeighborG, currentG with
    | Some neighborG, Some curG =>
        let examine :=
          astep ExamineEdge (Some currentId) st1 (toArray (as_openSet st1)) 14
            (mkExplanation
               (tpl ["Checking neighbor "; neighborId; ". Path through ";
                     currentId; " would cost "; toFixed1 tentativeG;
                     ", current best is ";
                     match neighborG with PInf => "∞" | _ => toFixed1 neighborG end;
                     "."])
               (tpl ["Edge ("; currentId; ","; neighborId; "): tentative_g = ";
                     toFixed1 curG; " + "; Z_to_string weight; " = ";
                     toFixed1 tentativeG]))
            (Some (mkCurrentEdge edgeId currentId neighborId weight
                                 currentNeighborG tentativeG relaxes))
            None None in
        if relaxes then
          match heuristic neighborNode targetNode with
          | HThrow e => ([examine], Stop (Threw e))
          | HValue hv =>
              let f := num_add tentativeG hv in
              let opened :=
                if negb (set_has neighborId (as_inOpenSet st1)) then
                  match enqueue (as_openSet st1) neighborId f with
                  | Some pq' => Some (pq', set_add neighborId (as_inOpenSet st1))
                  | None => None
                  end
                else Some (as_openSet st1, as_inOpenSet st1) in
              match opened with
              | None => ([examine], Stop OutOfFuel)
              | Some (pq', inOpen') =>
                  let ns :=
                    if negb (String.eqb neighborId targetId)
                    then map_set neighborId NsInQueue (as_nodeStates st1)
                    else as_nodeStates st1 in
                  let st2 :=
                    mkAState (map_set neighborId tentativeG (as_gScore st1))
                             (map_set neighborId f (as_fScore st1))
                             (map_set neighborId (Some currentId)
                                      (as_predecessors st1))
                             (as_visited st1) ns
                             (map_set edgeId EsRelaxed (as_edgeStates st1))
                             pq' inOpen' in
                  let relax :=
                    astep RelaxEdge (Some currentId) st2
                      (toArray (as_openSet st2)) 17
                      (mkExplanation
                         (tpl ["Found better path to "; neighborId; "! g=";
                               toFixed1 tentativeG; ", h="; toFixed1 hv;
                               ", f="; toFixed1 f])
                         (tpl ["Update: g["; neighborId; "]=";
                               toFixed1 tentativeG; ", f["; neighborId; "]=";
                               toFixed1 f; ", prev["; neighborId; "]=";
                               currentId]))
                      (Some (mkCurrentEdge edgeId currentId neighborId weight
                                           currentNeighborG tentativeG true))
                      None None in
                  ([examine; relax], Continue st2)
              end
          end
        else
          let st2 :=
            as_with_edgeStates st1 (map_set edgeId EsRejected (as_edgeStates st1)) in
          let skip :=
            astep SkipEdge (Some currentId) st2 (toArray (as_openSet st2)) 15
              (mkExplanation
                 (tpl ["Path through "; currentId; " to "; neighborId;
                       " isn't better. Keeping current path."])
                 (tpl ["No update: "; toFixed1 tentativeG; " ≥ ";
                       toFixed1 neighborG]))
              (Some (mkCurrentEdge edgeId currentId neighborId weight
                                   currentNeighborG tentativeG false))
              None None in
          let st3 :=
            as_with_edgeStates st2 (map_set edgeId EsDefault (as_edgeStates st2)) in
          ([examine; skip], Continue st3)
    | _, _ => ([], Stop (Threw TypeError))
    end.

Fixpoint astar_neighbors (graph : Graph) (targetId : string) (targetNode : Node)
    (heuristic : Heuristic) (currentId : string) (neighbors : list Neighbor)
    (st : AState) : list AlgorithmStep * Flow AState :=
  match neighbors with
  | [] => ([], Continue st)
  | nb :: rest =>
      match astar_edge graph targetId targetNode heuristic currentId nb st with
      | (steps1, Continue st1) =>
          let '(steps2, r) :=
            astar_neighbors graph targetId targetNode heuristic currentId rest st1 in
          (steps1 ++ steps2, r)
      | (steps1, Stop e) => (steps1, Stop e)
      end
  end.

Definition astar_final (sourceId targetId : string) (st : AState)
  : AlgorithmStep :=
  astep NoPath None st [] 21
    (mkExplanation
       (tpl ["No path exists from "; sourceId; " to "; targetId; "."])
       (tpl ["Open set empty. Target "; targetId; " unreachable."]))
    None None None.

Definition astar_select (currentId : string) (currentF currentG currentH : num)
    (st : AState) : AlgorithmStep :=
  astep SelectNode (Some currentId) st (toArray (as_openSet st)) 8
    (mkExplanation
       (tpl ["Selecting node "; currentId;
             " because it has the lowest f-score ("; toFixed1 currentF;
             "). This combines actual distance ("; toFixed1 currentG;
             ") + estimated remaining ("; toFixed1 currentH; ")."])
       (tpl ["Pop "; currentId; ": f="; toFixed1 currentF; " = g(";
             toFixed1 currentG; ") + h("; toFixed1 currentH; ")"]))
    None None None.

(** [x?.toFixed(1)] inside a template. *)
Definition opt_toFixed1 (o : option num) : string :=
  match o with Some n => toFixed1 n | None => "undefined" end.

(** The branch taken when the target is dequeued. *)
Definition astar_found (graph : Graph) (sourceId targetId : string)
    (st : AState) : list AlgorithmStep * Ending :=
  match reconstructPath (2 + List.length (as_visited st))
                        (as_predecessors st) targetId with
  | None => ([], OutOfFuel)
  | Some path =>
      let '(ns1, es1) :=
        mark_path graph sourceId path (as_nodeStates st) (as_edgeStates st) in
      let st1 :=
        as_with_edgeStates
          (as_with_nodeStates st (map_set targetId NsEnd ns1)) es1 in
      ([astep PathFound (Some targetId) st1 (toArray (as_openSet st1)) 10
          (mkExplanation
             (tpl ["Found the shortest path! Total distance: ";
                   opt_toFixed1 (map_get targetId (as_gScore st1));
                   ". A* found this by prioritizing nodes that seem closer to the goal."])
             (tpl ["Path found: "; String.concat " → " path; ". Cost: ";
                   opt_toFixed1 (map_get targetId (as_gScore st1));
                   ". Nodes explored: ";
                   Z_to_string (Z.of_nat (List.length (as_visited st1) + 1));
                   "."]))
          None (Some path) (map_get targetId (as_gScore st1))],
       Returned)
  end.

Definition astar_current (sourceId targetId currentId : string) (st : AState)
  : AState :=
  if negb (String.eqb currentId sourceId) && negb (String.eqb currentId targetId)
  then as_with_nodeStates st (map_set currentId NsCurrent (as_nodeStates st))
  else st.

Definition astar_visit (sourceId currentId : string) (st : AState) : AState :=
  let st2 := as_with_visited st (set_add currentId (as_visited st)) in
  if negb (String.eqb currentId sourceId)
  then as_with_nodeStates st2 (map_set currentId NsVisited (as_nodeStates st2))
  else st2.

Definition astar_reset (st : AState) : AState :=
  as_with_edgeStates st (reset_relaxed (as_edgeStates st)).

Fixpoint astar_loop (fuel : nat) (h : Store) (graph : Graph)
    (sourceId targetId : string) (targetNode : Node) (heuristic : Heuristic)
    (st : AState) : Run :=
  match fuel with
  | O => ([], OutOfFuel)
  | S fuel' =>
      if isEmpty (as_openSet st) then
        ([astar_final sourceId targetId st], Returned)
      else
        match dequeue (as_openSet st) with
        | None | Some (None, _) => ([], OutOfFuel)
        | Some (Some currentId, pq') =>
            let st0 :=
              as_with_open st pq' (set_delete currentId (as_inOpenSet st)) in
            if set_has currentId (as_visited st0) then
              astar_loop fuel' h graph sourceId targetId targetNode heuristic st0
            else
              let currentNode := map_get currentId (nodes graph) in
              let st1 := astar_current sourceId targetId currentId st0 in
              match heuristic currentNode targetNode with
              | HThrow e => ([], Threw e)
              | HValue currentH =>
                  match map_get currentId (as_fScore st1),
                        map_get currentId (as_gScore st1) with
                  | Some currentF, Some currentG =>
                      let select :=
                        astar_select currentId currentF currentG currentH st1 in
                      if String.eqb currentId targetId then
                        let '(steps, e) :=
                          astar_found graph sourceId targetId st1 in
                        (select :: steps, e)
                      else
                        let st3 := astar_visit sourceId currentId st1 in
                        match astar_neighbors graph targetId targetNode heuristic
                                currentId (getNeighbors h graph currentId) st3 with
                        | (steps, Stop e) => (select :: steps, e)
                        | (steps, Continue st4) =>
                            let '(rest, e) :=
                              astar_loop fuel' h graph sourceId targetId
                                         targetNode heuristic (astar_reset st4) in
                            (select :: steps ++ rest, e)
                        end
                  | _, _ => ([], Threw TypeError)
                  end
              end
        end
  end.

Definition astar_init_step (sourceId targetId : string) (hValue : num)
    (st : AState) : AlgorithmStep :=
  astep Init None st (toArray (as_openSet st)) 0
    (mkExplanation
       (tpl ["Starting A* from "; sourceId; " to "; targetId;
             ". We use a heuristic to guide our search toward the goal more efficiently than Dijkstra."])
       (tpl ["Init: g("; sourceId; ")=0, f("; sourceId; ")=h("; sourceId; ",";
             targetId; ")="; toFixed1 hValue; ". Open set: {"; sourceId; "}."]))
    None None None.

Definition target_not_found (targetId : string) : string :=
  tpl ["Target node "; targetId; " not found in graph"].

Definition astar_run (fuel : nat) (h : Store) (graph : Graph)
    (sourceId targetId : string) (heuristic : Heuristic) : Run :=
  match map_get targetId (nodes graph) with
  | None => ([], Threw (target_not_found targetId))
  | Some targetNode =>
      match heuristic (map_get sourceId (nodes graph)) targetNode with
      | HThrow e => ([], Threw e)
      | HValue hValue =>
          match enqueue [] sourceId hValue with
          | None => ([], OutOfFuel)
          | Some pq =>
              let st := astar_init_state graph sourceId targetId hValue pq in
              let '(rest, e) :=
                astar_loop fuel h graph sourceId targetId targetNode heuristic st in
              (astar_init_step sourceId targetId hValue st :: rest, e)
          end
      end
  end.

Definition generateAStarSteps (h : Store) (graph : Graph)
    (sourceId targetId : string) (heuristic : Heuristic) : Run :=
  astar_run (run_fuel h graph) h graph sourceId targetId heuristic.

(* ================================================================== *)
(** ** [generateSteps] of [src/hooks/useAlgorithmVisualizer.ts] *)
(* ================================================================== *)

Inductive AlgorithmType : Type := dijkstra | astar.

(** [sourceId] and [targetId] are [string | null].  [euclideanDistance] is
    the heuristic the hook passes; it computes with [Math.sqrt] and is a
    parameter here. *)
Definition generateSteps (euclideanDistance : Heuristic) (h : Store)
    (graph : Graph) (sourceId targetId : option string)
    (algorithm : AlgorithmType) : Run :=
  match sourceId with
  | None => ([], Returned)
  | Some source =>
      if negb (truthy_string source) || Nat.eqb (List.length (nodes graph)) 0
      then ([], Returned)
      else
        match algorithm with
        | dijkstra => generateDijkstraSteps h graph source targetId
        | astar =>
            match targetId with
            | Some target =>
                generateAStarSteps h graph source target euclideanDistance
            | None => ([], Threw (target_not_found "null"))
            end
        end
  end.

(* ================================================================== *)
(** ** Heap order of the queue (priorities that are finite numbers) *)
(* ================================================================== *)

Definition keyZ (e : PQEntry) : Z :=
  match snd e with Fin z => z | _ => 0%Z end.

Definition is_fin (n : num) : Prop := exists z, n = Fin z.

Definition all_fin (heap : list PQEntry) : Prop :=
  Forall (fun e => is_fin (snd e)) heap.

Definition key_at (heap : list PQEntry) (i : nat) : Z :=
  match nth_error heap i with Some e => keyZ e | None => 0%Z end.

(** [c] is a child of [p] in the array layout of the heap. *)
Definition child_of (p c : nat) : Prop := c = 2 * p + 1 \/ c = 2 * p + 2.

(** Every parent is at most its children, except for the pairs ruled out by
    [skip]. *)
Definition heap_except (skip : nat -> nat -> Prop) (heap : list PQEntry) : Prop :=
  forall p c, child_of p c -> c < List.length heap -> ~ skip p c ->
              (key_at heap p <= key_at heap c)%Z.

Definition heap_ok (heap : list PQEntry) : Prop :=
  heap_except (fun _ _ => False) heap.

(* ================================================================== *)
(** ** Paths of the graph and what a step records *)
(* ================================================================== *)

(** An edge of the edge map leads from [u] to [w] with weight [wt],
    honouring directedness. *)
Definition hop (graph : Graph) (u w : string) (wt : Z) : Prop :=
  exists edgeId edge,
    map_get edgeId (edges graph) = Some edge
    /\ edge_weight edge = wt
    /\ ((edge_source edge = u /\ edge_target edge = w)
        \/ (directed graph = false
            /\ edge_target edge = u /\ edge_source edge = w)).

(** [walk graph s v c]: some path from [s] to [v] has weight sum [c]. *)
Inductive walk (graph : Graph) (s : string) : string -> Z -> Prop :=
| walk_here : walk graph s s 0
| walk_step u w c wt :
    walk graph s u c -> hop graph u w wt -> walk graph s w (c + wt).

(** [d] is the minimum weight sum over all paths from [s] to [v]. *)
Definition shortest (graph : Graph) (s v : string) (d : Z) : Prop :=
  walk graph s v d /\ forall c, walk graph s v c -> (d <= c)%Z.

(** The nodes of [path] are joined, in order, by edges whose weights sum to
    [c]. *)
Inductive path_cost (graph : Graph) : list string -> Z -> Prop :=
| path_single x : path_cost graph [x] 0
| path_cons a b rest wt c :
    hop graph a b wt -> path_cost graph (b :: rest) c ->
    path_cost graph (a :: b :: rest) (wt + c).

Definition nonneg_weights (graph : Graph) : Prop :=
  forall edgeId edge, map_get edgeId (edges graph) = Some edge ->
                      (0 <= edge_weight edge)%Z.

(** Every edge is listed in the adjacency set of its source and, in an
    undirected graph, of its target. *)
Definition adjacency_complete (h : Store) (graph : Graph) : Prop :=
  forall edgeId edge, map_get edgeId (edges graph) = Some edge ->
    in_adjacency h graph (edge_source edge) edgeId
    /\ (directed graph = false ->
        in_adjacency h graph (edge_target edge) edgeId).

(** The part of the algorithm state every step records. *)
Record Core : Type := mkCore {
  c_dist : JsMap num;
  c_pred : JsMap (option string);
  c_visited : JsSet;
  c_queue : list PQEntry
}.

Definition core_of_step (s : AlgorithmStep) : Core :=
  mkCore (distances s) (predecessors s) (visited s) (queue s).

Definition dcore (st : DState) : Core :=
  mkCore (ds_distances st) (ds_predecessors st) (ds_visited st) (ds_pq st).

Definition acore (st : AState) : Core :=
  mkCore (as_gScore st) (as_predecessors st) (as_visited st) (as_openSet st).

(** Every step satisfies [J], and the recorded state of each step is related
    by [R] to the one before it ([c0] before the first step). *)
Fixpoint trace_ok (J : AlgorithmStep -> Prop) (R : Core -> Core -> Prop)
    (c0 : Core) (steps : list AlgorithmStep) : Prop :=
  match steps with
  | [] => True
  | s :: rest =>
      J s /\ R c0 (core_of_step s) /\ trace_ok J R (core_of_step s) rest
  end.

Definition last_core (c0 : Core) (steps : list AlgorithmStep) : Core :=
  fold_left (fun _ s => core_of_step s) steps c0.

(** Snapshots only grow: visited nodes stay visited, recorded distances
    stay recorded and do not increase. *)
Definition mono (c c' : Core) : Prop :=
  (forall v, In v (c_visited c) -> In v (c_visited c'))
  /\ (forall v d, map_get v (c_dist c) = Some d ->
        exists d', map_get v (c_dist c') = Some d' /\ num_le d' d = true).

(** What both algorithms keep true of distances, predecessors, the visited
    set and the queue. *)
Record basic_inv (graph : Graph) (s : string) (c : Core) : Prop := mk_basic_inv {
  bi_pred_visited : forall v u,
      predecessor_of (c_pred c) v = Some u -> In u (c_visited c);
  bi_pred_sorted : forall l1 v l2 u,
      c_visited c = l1 ++ v :: l2 ->
      predecessor_of (c_pred c) v = Some u -> In u l1;
  bi_pred_dist : forall v u,
      predecessor_of (c_pred c) v = Some u ->
      exists du wt, map_get u (c_dist c) = Some (Fin du)
                    /\ map_get v (c_dist c) = Some (Fin (du + wt))
                    /\ hop graph u v wt;
  bi_visited_reached : forall v,
      In v (c_visited c) ->
      v = s \/ exists u, predecessor_of (c_pred c) v = Some u;
  bi_queue_reached : forall e,
      In e (c_queue c) ->
      fst e = s \/ exists u, predecessor_of (c_pred c) (fst e) = Some u;
  bi_source_first : forall v, In v (c_visited c) -> In s (c_visited c);
  bi_queue_first : c_visited c = [] -> forall e, In e (c_queue c) -> fst e = s;
  bi_source_pred : predecessor_of (c_pred c) s = None;
  bi_source_dist : forall d, map_get s (c_dist c) = Some d -> d = Fin 0;
  bi_no_nan : forall v d, map_get v (c_dist c) = Some d -> d <> NaN
}.

(** What a [path-found] step records about its path. *)
Definition found_ok (s : string) (target : option string)
    (step : AlgorithmStep) : Prop :=
  step_type step = PathFound ->
  exists t path fuel,
    target = Some t
    /\ currentNode step = Some t
    /\ shortestPath step = Some path
    /\ reconstructPath fuel (predecessors step) t = Some path
    /\ totalDistance step = map_get t (distances step)
    /\ (t = s \/ exists u, predecessor_of (predecessors step) t = Some u).

(** The length of the queue plus the neighbour entries of the nodes not yet
    visited: it bounds the turns of the main loop that remain. *)
Definition potential (h : Store) (graph : Graph) (visited : JsSet) : nat :=
  list_sum (map (fun n => if set_has n visited then 0
                          else List.length (getNeighbors h graph n))
                (map_keys (adjacencyList graph))).

Definition measure (h : Store) (graph : Graph) (c : Core) : nat :=
  List.length (c_queue c) + potential h graph (c_visited c).

(** The three ways the body of the neighbour loop can go. *)
Inductive edge_case (t : option string) (cur : string) (nb : Neighbor)
    (st : DState) : list AlgorithmStep * Flow DState -> Prop :=
| edge_visited :
    set_has (nb_nodeId nb) (ds_visited st) = true ->
    edge_case t cur nb st ([], Continue st)
| edge_relax newDist pq' ex rx st2 :
    set_has (nb_nodeId nb) (ds_visited st) = false ->
    newDist = num_add (as_num (map_get cur (ds_distances st))) (Fin (nb_weight nb)) ->
    num_lt newDist (as_num (map_get (nb_nodeId nb) (ds_distances st))) = true ->
    enqueue (ds_pq st) (nb_nodeId nb) newDist = Some pq' ->
    Permutation ((nb_nodeId nb, newDist) :: ds_pq st) pq' ->
    core_of_step ex = dcore st ->
    core_of_step rx = dcore st2 ->
    dcore st2 = mkCore (map_set (nb_nodeId nb) newDist (ds_distances st))
                       (map_set (nb_nodeId nb) (Some cur) (ds_predecessors st))
                       (ds_visited st) pq' ->
    step_type ex = ExamineEdge -> step_type rx = RelaxEdge ->
    currentEdge ex
    = Some (mkCurrentEdge (nb_edgeId nb) cur (nb_nodeId nb) (nb_weight nb)
              (map_get (nb_nodeId nb) (ds_distances st)) newDist true) ->
    currentEdge rx
    = Some (mkCurrentEdge (nb_edgeId nb) cur (nb_nodeId nb) (nb_weight nb)
              (map_get (nb_nodeId nb) (ds_distances st)) newDist true) ->
    edge_case t cur nb st ([ex; rx], Continue st2)
| edge_skip newDist ex sk st3 :
    set_has (nb_nodeId nb) (ds_visited st) = false ->
    newDist = num_add (as_num (map_get cur (ds_distances st))) (Fin (nb_weight nb)) ->
    num_lt newDist (as_num (map_get (nb_nodeId nb) (ds_distances st))) = false ->
    core_of_step ex = dcore st ->
    core_of_step sk = dcore st ->
    dcore st3 = dcore st ->
    step_type ex = ExamineEdge -> step_type sk = SkipEdge ->
    currentEdge ex
    = Some (mkCurrentEdge (nb_edgeId nb) cur (nb_nodeId nb) (nb_weight nb)
              (map_get (nb_nodeId nb) (ds_distances st)) newDist false) ->
    edge_case t cur nb st ([ex; sk], Continue st3).


(** What every step of a run satisfies, for either algorithm. *)
Definition step_basic (graph : Graph) (s : string) (target : option string)
    (step : AlgorithmStep) : Prop :=
  basic_inv graph s (core_of_step step) /\ found_ok s target step.

(** The ways the body of the neighbour loop of A* can go. *)
Inductive aedge_case (graph : Graph) (targetId : string) (targetNode : Node)
    (heuristic : Heuristic) (cur : string) (nb : Neighbor) (st : AState)
  : list AlgorithmStep * Flow AState -> Prop :=
| aedge_visited :
    set_has (nb_nodeId nb) (as_visited st) = true ->
    aedge_case graph targetId targetNode heuristic cur nb st ([], Continue st)
| aedge_undefined :
    set_has (nb_nodeId nb) (as_visited st) = false ->
    map_get (nb_nodeId nb) (as_gScore st) = None
    \/ map_get cur (as_gScore st) = None ->
    aedge_case graph targetId targetNode heuristic cur nb st
               ([], Stop (Threw TypeError))
| aedge_throw tentativeG ex e :
    set_has (nb_nodeId nb) (as_visited st) = false ->
    tentativeG = num_add (as_num (map_get cur (as_gScore st))) (Fin (nb_weight nb)) ->
    num_lt tentativeG (as_num (map_get (nb_nodeId nb) (as_gScore st))) = true ->
    heuristic (map_get (nb_nodeId nb) (nodes graph)) targetNode = HThrow e ->
    core_of_step ex = acore st ->
    step_type ex = ExamineEdge ->
    aedge_case graph targetId targetNode heuristic cur nb st
               ([ex], Stop (Threw e))
| aedge_relax tentativeG hv pq' ex rx st2 :
    set_has (nb_nodeId nb) (as_visited st) = false ->
    tentativeG = num_add (as_num (map_get cur (as_gScore st))) (Fin (nb_weight nb)) ->
    num_lt tentativeG (as_num (map_get (nb_nodeId nb) (as_gScore st))) = true ->
    heuristic (map_get (nb_nodeId nb) (nodes graph)) targetNode = HValue hv ->
    (set_has (nb_nodeId nb) (as_inOpenSet st) = false
     /\ enqueue (as_openSet st) (nb_nodeId nb) (num_add tentativeG hv) = Some pq'
     /\ Permutation ((nb_nodeId nb, num_add tentativeG hv) :: as_openSet st) pq'
     /\ as_inOpenSet st2 = set_add (nb_nodeId nb) (as_inOpenSet st))
    \/ (set_has (nb_nodeId nb) (as_inOpenSet st) = true
        /\ pq' = as_openSet st
        /\ as_inOpenSet st2 = as_inOpenSet st) ->
    core_of_step ex = acore st ->
    core_of_step rx = acore st2 ->
    acore st2 = mkCore (map_set (nb_nodeId nb) tentativeG (as_gScore st))
                       (map_set (nb_nodeId nb) (Some cur) (as_predecessors st))
                       (as_visited st) pq' ->
    step_type ex = ExamineEdge -> step_type rx = RelaxEdge ->
    currentEdge ex
    = Some (mkCurrentEdge (nb_edgeId nb) cur (nb_nodeId nb) (nb_weight nb)
              (map_get (nb_nodeId nb) (as_gScore st)) tentativeG true) ->
    currentEdge rx
    = Some (mkCurrentEdge (nb_edgeId nb) cur (nb_nodeId nb) (nb_weight nb)
              (map_get (nb_nodeId nb) (as_gScore st)) tentativeG true) ->
    aedge_case graph targetId targetNode heuristic cur nb st
               ([ex; rx], Continue st2)
| aedge_skip tentativeG ex sk st3 :
    set_has (nb_nodeId nb) (as_visited st) = false ->
    tentativeG = num_add (as_num (map_get cur (as_gScore st))) (Fin (nb_weight nb)) ->
    num_lt tentativeG (as_num (map_get (nb_nodeId nb) (as_gScore st))) = false ->
    core_of_step ex = acore st ->
    core_of_step sk = acore st ->
    acore st3 = acore st ->
    as_inOpenSet st3 = as_inOpenSet st ->
    step_type ex = ExamineEdge -> step_type sk = SkipEdge ->
    aedge_case graph targetId targetNode heuristic cur nb st
               ([ex; sk], Continue st3).

(** The open set names exactly the nodes that have an entry in the queue,
    and no node has two. *)
Definition open_inv (st : AState) : Prop :=
  NoDup (map fst (as_openSet st))
  /\ forall id, In id (as_inOpenSet st) <-> In id (map fst (as_openSet st)).

(** A [relax-edge] step and the step before it. *)
Fixpoint relax_ok (Q : AlgorithmStep -> AlgorithmStep -> Prop)
    (steps : list AlgorithmStep) : Prop :=
  match steps with
  | [] => True
  | prev :: rest =>
      match rest with
      | cur :: _ => step_type cur = RelaxEdge -> Q prev cur
      | [] => True
      end /\ relax_ok Q rest
  end.

Definition no_relax_head (steps : list AlgorithmStep) : Prop :=
  match steps with
  | cur :: _ => step_type cur <> RelaxEdge
  | [] => True
  end.

(** The single-source engine pushes a new entry at every relaxation. *)
Definition dijkstra_push (prev cur : AlgorithmStep) : Prop :=
  exists ce,
    currentEdge cur = Some ce
    /\ currentEdge prev = Some ce
    /\ step_type prev = ExamineEdge
    /\ num_lt (ce_newDistance ce) (as_num (ce_oldDistance ce)) = true
    /\ enqueue (queue prev) (ce_to ce) (ce_newDistance ce) = Some (queue cur)
    /\ Permutation (queue cur) ((ce_to ce, ce_newDistance ce) :: queue prev).

(** The heuristic engine pushes only for a node with no entry in the queue. *)
Definition astar_push (graph : Graph) (targetNode : Node)
    (heuristic : Heuristic) (prev cur : AlgorithmStep) : Prop :=
  exists ce hv,
    currentEdge cur = Some ce
    /\ currentEdge prev = Some ce
    /\ step_type prev = ExamineEdge
    /\ num_lt (ce_newDistance ce) (as_num (ce_oldDistance ce)) = true
    /\ heuristic (map_get (ce_to ce) (nodes graph)) targetNode = HValue hv
    /\ ((~ In (ce_to ce) (map fst (queue prev))
         /\ Permutation (queue cur)
              ((ce_to ce, num_add (ce_newDistance ce) hv) :: queue prev))
        \/ (In (ce_to ce) (map fst (queue prev))
            /\ queue cur = queue prev)).

Definition is_terminal (ty : StepType) : bool :=
  match ty with
  | PathFound | NoPath | Complete => true
  | _ => false
  end.

(** The shape of a finished run of the single-source engine: steps that are
    not terminal, then one terminal step. *)
Definition run_shape (t : option string) (steps : list AlgorithmStep) : Prop :=
  exists body last,
    steps = body ++ [last]
    /\ Forall (fun x => is_terminal (step_type x) = false) body
    /\ ((step_type last = PathFound /\ truthy t = true
         /\ exists sel, In sel body /\ step_type sel = SelectNode
                        /\ currentNode sel = t)
        \/ (step_type last = NoPath /\ truthy t = true
            /\ forall sel, In sel body -> step_type sel = SelectNode ->
                           currentNode sel <> t)
        \/ (step_type last = Complete /\ truthy t = false)).


(** No turn of the loop has finalised the (truthy) target yet. *)
Definition target_unvisited (t : option string) (st : DState) : Prop :=
  forall t0, t = Some t0 -> truthy t = true -> ~ In t0 (ds_visited st).

(* ================================================================== *)
(** ** What the single-source engine keeps true of shortest distances *)
(* ================================================================== *)

(** Every visited node records the minimum weight sum of its paths. *)
Definition visited_optimal (graph : Graph) (s : string) (c : Core) : Prop :=
  forall v, In v (c_visited c) ->
    exists d, map_get v (c_dist c) = Some (Fin d) /\ shortest graph s v d.

(** Visited nodes stay visited and keep their recorded distance. *)
Definition stable (c c' : Core) : Prop :=
  forall v, In v (c_visited c) ->
    In v (c_visited c') /\ map_get v (c_dist c') = map_get v (c_dist c).

(** The edge from [v] to [w] has been relaxed, or [w] is visited. *)
Definition settled (c : Core) (v w : string) (wt : Z) : Prop :=
  In w (c_visited c)
  \/ exists dv dw, map_get v (c_dist c) = Some (Fin dv)
                   /\ map_get w (c_dist c) = Some (Fin dw)
                   /\ (dw <= dv + wt)%Z.

(** The edges of [cur] the neighbour loop has still to look at. *)
Definition pending_of (cur : string) (nbrs : list Neighbor)
    (v w : string) (wt : Z) : Prop :=
  v = cur /\ exists nb, In nb nbrs /\ nb_nodeId nb = w /\ nb_weight nb = wt.

Definition no_pending (v w : string) (wt : Z) : Prop := False.

(** The invariant of the main loop; inside the neighbour loop the edges in
    [pending] are excused from [oi_settled]. *)
Record opt_inv (graph : Graph) (s : string)
    (pending : string -> string -> Z -> Prop) (c : Core) : Prop := mk_opt_inv {
  oi_optimal : visited_optimal graph s c;
  oi_walk : forall v d, map_get v (c_dist c) = Some (Fin d) -> walk graph s v d;
  oi_settled : forall v w wt,
      In v (c_visited c) -> hop graph v w wt ->
      settled c v w wt \/ pending v w wt;
  oi_queued : forall w dw,
      ~ In w (c_visited c) -> map_get w (c_dist c) = Some (Fin dw) ->
      In (w, Fin dw) (c_queue c);
  oi_entries : forall e, In e (c_queue c) ->
      exists p dw, snd e = Fin p
                   /\ map_get (fst e) (c_dist c) = Some (Fin dw) /\ (dw <= p)%Z;
  oi_heap : heap_ok (c_queue c);
  oi_source : map_get s (c_dist c) = Some (Fin 0);
  oi_defined : forall v, map_has v (nodes graph) = true ->
      exists d, map_get v (c_dist c) = Some d /\ d <> NaN
}.

(* ================================================================== *)
(** ** What a [path-found] step should record, and the graphs of the examples *)
(* ================================================================== *)

(** The recorded cost is the weight sum of edges joining the consecutive nodes
    of the recorded path, which leads from [s] to [t]. *)
Definition path_found_ok (graph : Graph) (s t : string) (x : AlgorithmStep)
  : Prop :=
  exists path z,
    shortestPath x = Some path /\ totalDistance x = Some (Fin z)
    /\ path_cost graph path z
    /\ hd_error path = Some s /\ last path s = t.

Definition nonterminal (x : AlgorithmStep) : Prop :=
  is_terminal (step_type x) = false.

(** The sample graph of [createSampleGraph], built in an empty store. *)
Definition sample_store : Store := fst (createSampleGraph []).
Definition sample_graph : Graph := snd (createSampleGraph []).

Definition sample_edits : list Edit :=
  map EAddNode sample_nodes ++ map EAddEdge sample_edges.

(** The nodes and edges of the sample graph, as a directed graph. *)
Definition one_way_store : Store :=
  fst (run_edits ([], createGraph true) sample_edits).
Definition one_way_graph : Graph :=
  snd (run_edits ([], createGraph true) sample_edits).

(** A directed graph in which the direct edge from A to B costs more than the
    detour through C. *)
Definition detour_edits : list Edit :=
  [ EAddNode (mkNode "A" 0 0 None);
    EAddNode (mkNode "B" 100 0 None);
    EAddNode (mkNode "C" 50 50 None);
    EAddEdge (mkEdge "AB" "A" "B" 5 None);
    EAddEdge (mkEdge "AC" "A" "C" 1 None);
    EAddEdge (mkEdge "CB" "C" "B" 1 None) ].

Definition detour_store : Store := fst (run_edits ([], createGraph true) detour_edits).
Definition detour_graph : Graph := snd (run_edits ([], createGraph true) detour_edits).

(** The heuristic that estimates every remaining distance as 0. *)
Definition zero_heuristic : Heuristic := fun _ _ => HValue (Fin 0).

(** Two nodes and no edge yet. *)
Definition two_nodes : Store * Graph :=
  add_nodes ([], createGraph false)
            [mkNode "A" 0 0 None; mkNode "B" 100 0 None].

(** Some path leads from [s] to [v]. *)
Definition reachable (graph : Graph) (s v : string) : Prop :=
  exists c, walk graph s v c.

(** The edge [e] leads from [a] to [b], in either direction when the graph is
    undirected. *)
Definition joins (graph : Graph) (e : Edge) (a b : string) : Prop :=
  (edge_source e = a /\ edge_target e = b)
  \/ (directed graph = false /\ edge_source e = b /\ edge_target e = a).


(* ================================================================== *)
(** ** Playback state of [useAlgorithmVisualizer]
       ([src/hooks/useAlgorithmVisualizer.ts]) *)
(* ================================================================== *)

(** The state the hook keeps for playback: [steps], [currentStepIndex],
    [isRunning] and [isPaused].  The speed, the explanation level and the
    timer that advances a running playback are left out. *)
Record Player : Type := mkPlayer {
  p_steps : list AlgorithmStep;
  p_index : Z;
  p_running : bool;
  p_paused : bool
}.

(** The values of the [useState] calls. *)
Definition player_init : Player := mkPlayer [] (-1) false false.

Definition steps_length (p : Player) : Z := Z.of_nat (List.length (p_steps p)).



(** [index] is an integer here; the source accepts any [number]. *)
Definition goToStep (index : Z) (p : Player) : Player :=
  if (index >=? 0)%Z && (index <? steps_length p)%Z
  then mkPlayer (p_steps p) index (p_running p) (p_paused p)
  else p.




(** [start]: an error thrown while the steps are generated leaves the callback
    before any state is set. *)
Definition start (euclideanDistance : Heuristic) (h : Store) (graph : Graph)
    (sourceId targetId : option string) (algorithm : AlgorithmType)
    (p : Player) : Player + string :=
  if negb (truthy sourceId) then inl p
  else if (match algorithm with astar => true | dijkstra => false end)
          && negb (truthy targetId) then inl p
  else
    match generateSteps euclideanDistance h graph sourceId targetId algorithm with
    | (generatedSteps, Returned) => inl (mkPlayer generatedSteps 0 true false)
    | (_, Threw e) => inr e
    | (_, OutOfFuel) => inl p
    end.

(** [currentStep] *)
Definition currentStep (p : Player) : option AlgorithmStep :=
  if (p_index p >=? 0)%Z && (p_index p <? steps_length p)%Z
  then nth_error (p_steps p) (Z.to_nat (p_index p))
  else None.

(** [isComplete] *)
Definition isComplete (p : Player) : bool :=
  (p_index p >=? 0)%Z && (p_index p =? steps_length p - 1)%Z
  && match currentStep p with
     | Some x => is_terminal (step_type x)
     | None => false
     end.






(* ================================================================== *)
(** ** Facts about the [Map] and [Set] model *)
(* ================================================================== *)

Section MapFacts.
Context {V : Type}.
  Implicit Types (m : JsMap V) (k : string) (v : V).

Lemma map_get_set_eq k v m : map_get k (map_set k v m) = Some v.
  Proof.
    induction m as [|[k' v'] m IH]; simpl.
    - now rewrite String.eqb_refl.
    - destruct (String.eqb k' k) eqn:E; simpl.
      + now rewrite String.eqb_refl.
      + now rewrite E.
  Qed.

Lemma map_get_set_ne k k' v m :
    k <> k' -> map_get k' (map_set k v m) = map_get k' m.
  Proof.
    intros Hne. induction m as [|[k0 v0] m IH]; simpl.
    - destruct (String.eqb_spec k k'); congruence.
    - destruct (String.eqb_spec k0 k) as [->|Hk]; simpl.
      + destruct (String.eqb_spec k k'); congruence.
      + destruct (String.eqb_spec k0 k'); auto.
  Qed.

Lemma map_get_set k k' v m :
    map_get k' (map_set k v m) = if String.eqb k k' then Some v else map_get k' m.
  Proof.
    destruct (String.eqb_spec k k') as [->|Hne].
    - apply map_get_set_eq.
    - now apply map_get_set_ne.
  Qed.

Lemma map_get_delete_eq k m : map_get k (map_delete k m) = None.
  Proof.
    induction m as [|[k0 v0] m IH]; simpl; auto.
    destruct (String.eqb_spec k0 k); simpl; auto.
    destruct (String.eqb_spec k0 k); congruence.
  Qed.

Lemma map_get_delete_ne k k' m :
    k <> k' -> map_get k' (map_delete k m) = map_get k' m.
  Proof.
    intros Hne. induction m as [|[k0 v0] m IH]; simpl; auto.
    destruct (String.eqb_spec k0 k) as [->|Hk]; simpl.
    - destruct (String.eqb_spec k k'); congruence.
    - destruct (String.eqb_spec k0 k'); auto.
  Qed.

Lemma map_get_delete k k' m :
    map_get k' (map_delete k m) = if String.eqb k k' then None else map_get k' m.
  Proof.
    destruct (String.eqb_spec k k') as [->|Hne].
    - apply map_get_delete_eq.
    - now apply map_get_delete_ne.
  Qed.

Lemma map_has_get k m : map_has k m = true <-> exists v, map_get k m = Some v.
  Proof.
    unfold map_has. destruct (map_get k m); split; intros H; eauto.
    - discriminate.
    - destruct H; discriminate.
  Qed.

Lemma map_has_false k m : map_has k m = false <-> map_get k m = None.
  Proof. unfold map_has. destruct (map_get k m); split; congruence. Qed.

Lemma map_get_In k v m : map_get k m = Some v -> In (k, v) m.
  Proof.
    induction m as [|[k0 v0] m IH]; simpl; try discriminate.
    destruct (String.eqb_spec k0 k) as [->|]; intros H.
    - injection H as ->. now left.
    - right; auto.
  Qed.

Lemma map_get_In_key k m : In k (map_keys m) <-> exists v, map_get k m = Some v.
  Proof.
    induction m as [|[k0 v0] m IH]; simpl.
    - split; [tauto | intros [? ?]; discriminate].
    - destruct (String.eqb_spec k0 k) as [->|Hne].
      + split; eauto.
      + rewrite <- IH. split; [intros [?|?]; [congruence|auto] | auto].
  Qed.

Lemma In_map_get k v m : NoDup (map_keys m) -> In (k, v) m -> map_get k m = Some v.
  Proof.
    induction m as [|[k0 v0] m IH]; simpl; [tauto|].
    intros Hnd [Heq | Hin].
    - injection Heq as -> ->. now rewrite String.eqb_refl.
    - inversion Hnd; subst.
      destruct (String.eqb_spec k0 k) as [->|]; auto.
      exfalso. apply H1. change (In k (map fst m)).
      now apply (in_map fst) in Hin.
  Qed.

Lemma map_keys_set k v m :
    map_keys (map_set k v m)
    = if map_has k m then map_keys m else map_keys m ++ [k].
  Proof.
    unfold map_has. induction m as [|[k0 v0] m IH]; simpl; auto.
    destruct (String.eqb_spec k0 k) as [->|]; simpl; auto.
    rewrite IH. now destruct (map_get k m).
  Qed.

Lemma NoDup_map_set k v m : NoDup (map_keys m) -> NoDup (map_keys (map_set k v m)).
  Proof.
    intros Hnd. rewrite map_keys_set.
    destruct (map_has k m) eqn:E; auto.
    apply map_has_false in E.
    apply NoDup_app; auto.
    - constructor; [simpl; tauto | constructor].
    - intros x Hx [<-|[]]. apply map_get_In_key in Hx. destruct Hx; congruence.
  Qed.

Lemma NoDup_map_delete k m : NoDup (map_keys m) -> NoDup (map_keys (map_delete k m)).
  Proof.
    induction m as [|[k0 v0] m IH]; simpl; auto.
    intros Hnd. inversion Hnd; subst.
    destruct (String.eqb k0 k); simpl; auto.
    constructor; auto.
    intros Hin. apply H1. unfold map_keys, map_delete in Hin.
    apply in_map_iff in Hin. destruct Hin as [[k1 v1] [Hk Hin]].
    apply filter_In in Hin. simpl in Hk; subst.
    change (In k0 (map fst m)). apply in_map_iff. exists (k0, v1). tauto.
  Qed.
End MapFacts.

Lemma set_has_In x s : set_has x s = true <-> In x s.
Proof.
  induction s as [|y s IH]; simpl.
  - split; [discriminate | tauto].
  - destruct (String.eqb_spec y x) as [->|]; [tauto|].
    rewrite IH. split; [auto | intros [?|?]; [congruence | auto]].
Qed.

Lemma In_set_add x y s : In y (set_add x s) <-> y = x \/ In y s.
Proof.
  unfold set_add. destruct (set_has x s) eqn:E.
  - apply set_has_In in E. split; [auto | intros [->|?]; auto].
  - rewrite in_app_iff. simpl. split; intros H; intuition congruence.
Qed.

Lemma In_set_delete x y s : In y (set_delete x s) <-> In y s /\ y <> x.
Proof.
  unfold set_delete. rewrite filter_In.
  destruct (String.eqb_spec y x); simpl; intuition congruence.
Qed.

Lemma store_upd_length h l f : List.length (store_upd h l f) = List.length h.
Proof.
  revert l. induction h as [|s h IH]; intros [|l]; simpl; auto.
Qed.

Lemma deref_store_upd h l f l' :
  deref (store_upd h l f) l'
  = if Nat.eqb l l' then option_map f (deref h l) else deref h l'.
Proof.
  unfold deref. revert l l'.
  induction h as [|s h IH]; intros [|l] [|l']; simpl; auto.
  all: try (destruct (Nat.eqb l l'); reflexivity).
Qed.

Lemma deref_alloc_old h l : l < List.length h -> deref (h ++ [[]]) l = deref h l.
Proof. intros. unfold deref. now rewrite nth_error_app1. Qed.

Lemma deref_alloc_new h : deref (h ++ [[]]) (List.length h) = Some [].
Proof. unfold deref. rewrite nth_error_app2, Nat.sub_diag; auto. Qed.

Lemma deref_lt h l s : deref h l = Some s -> l < List.length h.
Proof. unfold deref. intros H. apply nth_error_Some. congruence. Qed.

(* ================================================================== *)
(** ** The adjacency sets through the edit operations *)
(* ================================================================== *)

Lemma map_has_set_mono {V} k k' (v : V) m :
  map_has k m = true -> map_has k (map_set k' v m) = true.
Proof.
  unfold map_has. rewrite map_get_set.
  destruct (String.eqb k' k); auto.
Qed.

Lemma map_has_set_same {V} k (v : V) m : map_has k (map_set k v m) = true.
Proof. unfold map_has. now rewrite map_get_set_eq. Qed.

Lemma loc_valid_deref h adj n l :
  loc_valid h adj -> map_get n adj = Some l -> exists ids, deref h l = Some ids.
Proof.
  intros Hv Hg. apply Hv in Hg. unfold deref.
  destruct (nth_error h l) eqn:E; eauto.
  apply nth_error_None in E. lia.
Qed.

Lemma ensure_adjacency_spec h adj id h' adj' :
  loc_valid h adj -> loc_inj adj ->
  ensure_adjacency h adj id = (h', adj') ->
  loc_valid h' adj' /\ loc_inj adj'
  /\ map_has id adj' = true
  /\ (forall n, n <> id -> map_get n adj' = map_get n adj)
  /\ (forall n e, in_adj h' adj' n e <-> in_adj h adj n e).
Proof.
  intros Hv Hi. unfold ensure_adjacency, store_alloc.
  destruct (map_has id adj) eqn:Hhas; intros Heq; injection Heq as <- <-.
  - repeat split; auto; tauto.
  - apply map_has_false in Hhas.
    assert (Hv' : loc_valid (h ++ [[]]) (map_set id (List.length h) adj)).
    { intros n l. rewrite map_get_set, length_app. simpl.
      destruct (String.eqb id n).
      - intros [= <-]. lia.
      - intros H. apply Hv in H. lia. }
    repeat split; auto.
    + intros n1 n2 l. rewrite !map_get_set.
      destruct (String.eqb_spec id n1) as [E1|H1], (String.eqb_spec id n2) as [E2|H2].
      * congruence.
      * intros [= <-] H. apply Hv in H. lia.
      * intros H [= <-]. apply Hv in H. lia.
      * apply Hi.
    + apply map_has_set_same.
    + intros n Hn. apply map_get_set_ne. congruence.
    + intros (l & ids & Hg & Hd & Hin). rewrite map_get_set in Hg.
      destruct (String.eqb_spec id n) as [->|Hne].
      * injection Hg as <-. rewrite deref_alloc_new in Hd.
        injection Hd as <-. destruct Hin.
      * exists l, ids. repeat split; auto.
        rewrite deref_alloc_old in Hd; auto. now apply Hv in Hg.
    + intros (l & ids & Hg & Hd & Hin).
      exists l, ids. repeat split; auto.
      * rewrite map_get_set_ne; auto. congruence.
      * rewrite deref_alloc_old; auto. now apply Hv in Hg.
Qed.

Lemma adjacency_add_spec h adj id edgeId :
  loc_valid h adj -> loc_inj adj -> map_has id adj = true ->
  loc_valid (adjacency_add h adj id edgeId) adj
  /\ forall n e, in_adj (adjacency_add h adj id edgeId) adj n e
                 <-> in_adj h adj n e \/ (n = id /\ e = edgeId).
Proof.
  intros Hv Hi Hhas. apply map_has_get in Hhas. destruct Hhas as [l Hl].
  unfold adjacency_add. rewrite Hl. split.
  - intros n l'. rewrite store_upd_length. apply Hv.
  - intros n e. unfold in_adj. split.
    + intros (l' & ids & Hg & Hd & Hin). rewrite deref_store_upd in Hd.
      destruct (Nat.eqb_spec l l') as [<-|Hne].
      * assert (n = id) by (eapply Hi; eauto). subst n.
        destruct (deref h l) as [ids0|] eqn:Hd0; [|discriminate].
        injection Hd as <-. apply In_set_add in Hin.
        destruct Hin as [->|Hin]; [now right|].
        left. eauto.
      * left. eauto.
    + intros [(l' & ids & Hg & Hd & Hin) | [-> ->]].
      * exists l'. rewrite deref_store_upd.
        destruct (Nat.eqb_spec l l') as [<-|Hne].
        -- rewrite Hd. simpl. eexists. repeat split; eauto.
           apply In_set_add. now right.
        -- eauto.
      * destruct (loc_valid_deref _ _ _ _ Hv Hl) as [ids Hd].
        exists l. rewrite deref_store_upd, Nat.eqb_refl, Hd. simpl.
        eexists. repeat split; eauto. apply In_set_add. now left.
Qed.

Lemma adjacency_delete_spec h adj id edgeId :
  loc_inj adj ->
  forall n e, in_adj (adjacency_delete h adj id edgeId) adj n e
              <-> in_adj h adj n e /\ ~ (n = id /\ e = edgeId).
Proof.
  intros Hi n e. unfold adjacency_delete.
  destruct (map_get id adj) as [l|] eqn:Hl.
  - unfold in_adj. split.
    + intros (l' & ids & Hg & Hd & Hin). rewrite deref_store_upd in Hd.
      destruct (Nat.eqb_spec l l') as [<-|Hne].
      * assert (n = id) by (eapply Hi; eauto). subst n.
        destruct (deref h l) as [ids0|] eqn:Hd0; [|discriminate].
        injection Hd as <-. apply In_set_delete in Hin.
        destruct Hin as [Hin Hne]. split; [eauto | tauto].
      * split; [eauto|]. intros [-> _]. congruence.
    + intros [(l' & ids & Hg & Hd & Hin) Hnot].
      exists l'. rewrite deref_store_upd.
      destruct (Nat.eqb_spec l l') as [<-|Hne].
      * rewrite Hd. simpl. eexists. repeat split; eauto.
        apply In_set_delete. split; auto. intros ->.
        apply Hnot. split; auto. eapply Hi; eauto.
      * eauto.
  - split.
    + intros H. split; auto. intros [-> _].
      destruct H as (l & ids & Hg & _). congruence.
    + tauto.
Qed.

Lemma adjacency_delete_length h adj id edgeId :
  List.length (adjacency_delete h adj id edgeId) = List.length h.
Proof.
  unfold adjacency_delete. destruct (map_get id adj); auto.
  apply store_upd_length.
Qed.

Lemma createGraph_ok h d : graph_ok h (createGraph d).
Proof.
  constructor; simpl.
  - constructor.
  - intros n l H; discriminate.
  - intros n1 n2 l H; discriminate.
  - intros n id (l & ids & H & _); discriminate.
  - intros id e H; discriminate.
  - intros id e H; discriminate.
Qed.

Lemma addNode_ok h g node :
  graph_ok h g ->
  graph_ok (fst (addNode h g node)) (snd (addNode h g node)).
Proof.
  intros [Hk Hv Hi Ha He Hl]. unfold addNode.
  destruct (ensure_adjacency h (adjacencyList g) (node_id node)) as [h' adj'] eqn:E.
  destruct (ensure_adjacency_spec _ _ _ _ _ Hv Hi E) as (Hv' & Hi' & Hhas & Hne & Hin).
  constructor; simpl; auto.
  - intros n id H. apply Hin in H. exact (Ha n id H).
  - intros id e H. destruct (He id e H) as [H1 H2].
    split; now apply map_has_set_mono.
  - intros id e H. destruct (Hl id e H) as [H1 H2].
    unfold in_adjacency in *. simpl. split.
    + now apply Hin.
    + intros Hd. apply Hin. auto.
Qed.

Lemma removeNode_fold nodeId adj es :
  loc_inj adj -> forall h E,
  let F := fold_left (removeNode_step nodeId adj) es (h, E) in
  List.length (fst F) = List.length h
  /\ (NoDup (map_keys E) -> NoDup (map_keys (snd F)))
  /\ (forall n e, in_adj (fst F) adj n e
        <-> in_adj h adj n e
            /\ ~ exists edge, In (e, edge) es /\ incident nodeId edge = true
                              /\ other_end nodeId edge = n)
  /\ (forall id, map_get id (snd F)
        = if existsb (fun kv => String.eqb (fst kv) id && incident nodeId (snd kv)) es
          then None else map_get id E).
Proof.
  intros Hi. induction es as [|[edgeId edge] es IH]; intros h E; simpl.
  - split; [|split; [|split]]; auto.
    intros n e. split; [|tauto].
    intros H. split; auto. intros (edge & [] & _).
  - unfold removeNode_step at 2. fold (incident nodeId edge).
    fold (other_end nodeId edge).
    destruct (incident nodeId edge) eqn:Hinc.
    + specialize (IH (adjacency_delete h adj (other_end nodeId edge) edgeId)
                     (map_delete edgeId E)).
      simpl in IH. destruct IH as (IH1 & IH2 & IH3 & IH4).
      rewrite adjacency_delete_length in IH1.
      split; [|split; [|split]]; auto.
      * intros Hnd. apply IH2. now apply NoDup_map_delete.
      * intros n e. split.
        -- intros H. apply IH3 in H. destruct H as [H Hnot].
           apply adjacency_delete_spec in H; auto. destruct H as [H Hne].
           split; auto.
           intros (edge' & [Heq|Hin] & Hinc' & Hoth).
           ++ injection Heq as E1 E2. subst. apply Hne. auto.
           ++ apply Hnot. eauto.
        -- intros [H Hnot]. apply IH3. split.
           ++ apply adjacency_delete_spec; auto. split; auto.
              intros [E1 E2]. subst. apply Hnot. eauto.
           ++ intros (edge' & Hin & Hinc' & Hoth). apply Hnot. eauto.
      * intros id. rewrite IH4, map_get_delete. rewrite andb_true_r.
        destruct (String.eqb edgeId id); simpl; auto.
        now destruct (existsb _ es).
    + specialize (IH h E). simpl in IH. destruct IH as (IH1 & IH2 & IH3 & IH4).
      split; [|split; [|split]]; auto.
      * intros n e. split.
        -- intros H. apply IH3 in H. destruct H as [H Hnot]. split; auto.
           intros (edge' & [Heq|Hin] & Hinc' & Hoth).
           ++ injection Heq as <- <-. congruence.
           ++ apply Hnot. eauto.
        -- intros [H Hnot]. apply IH3. split; auto.
           intros (edge' & Hin & Hinc' & Hoth). apply Hnot. eauto.
      * intros id. rewrite IH4, andb_false_r. reflexivity.
Qed.

Lemma existsb_incident nodeId (E : JsMap Edge) id :
  NoDup (map_keys E) ->
  existsb (fun kv => String.eqb (fst kv) id && incident nodeId (snd kv)) E = true
  <-> exists edge, map_get id E = Some edge /\ incident nodeId edge = true.
Proof.
  intros Hnd. rewrite existsb_exists. split.
  - intros ([k e] & Hin & H). simpl in H. apply andb_true_iff in H.
    destruct H as [Hk Hinc]. apply String.eqb_eq in Hk. subst k.
    exists e. split; auto. now apply In_map_get.
  - intros (e & Hg & Hinc). exists (id, e). simpl.
    rewrite String.eqb_refl, Hinc. split; auto. now apply map_get_In.
Qed.

Lemma removeNode_edges h g nodeId id :
  NoDup (map_keys (edges g)) -> loc_inj (adjacencyList g) ->
  map_get id (edges (snd (removeNode h g nodeId)))
  = match map_get id (edges g) with
    | Some edge => if incident nodeId edge then None else Some edge
    | None => None
    end.
Proof.
  intros Hnd Hi. unfold removeNode.
  pose proof (removeNode_fold nodeId (adjacencyList g) (edges g) Hi h (edges g)) as HF.
  simpl in HF.
  destruct (fold_left _ (edges g) (h, edges g)) as [h' E'] eqn:EF. simpl in *.
  destruct HF as (_ & _ & _ & H4). rewrite H4.
  destruct (existsb _ (edges g)) eqn:Ex.
  - apply existsb_incident in Ex; auto. destruct Ex as (e & -> & ->). reflexivity.
  - destruct (map_get id (edges g)) as [e|] eqn:Hg; auto.
    destruct (incident nodeId e) eqn:Hinc; auto.
    assert (existsb (fun kv => String.eqb (fst kv) id && incident nodeId (snd kv))
                    (edges g) = true) by (apply existsb_incident; eauto).
    congruence.
Qed.

Lemma incident_false nodeId e :
  incident nodeId e = false <-> edge_source e <> nodeId /\ edge_target e <> nodeId.
Proof.
  unfold incident. rewrite orb_false_iff.
  destruct (String.eqb_spec (edge_source e) nodeId),
           (String.eqb_spec (edge_target e) nodeId); intuition congruence.
Qed.

Lemma removeNode_ok h g nodeId :
  graph_ok h g ->
  graph_ok (fst (removeNode h g nodeId)) (snd (removeNode h g nodeId)).
Proof.
  intros [Hk Hv Hi Ha He Hl].
  pose proof (removeNode_edges h g nodeId) as Hedges.
  unfold removeNode in *.
  pose proof (removeNode_fold nodeId (adjacencyList g) (edges g) Hi h (edges g)) as HF.
  simpl in HF.
  destruct (fold_left _ (edges g) (h, edges g)) as [h' E'] eqn:EF. simpl in *.
  destruct HF as (H1 & H2 & H3 & _).
  assert (Hadj : forall n e, in_adj h' (map_delete nodeId (adjacencyList g)) n e
                  <-> n <> nodeId /\ in_adj h' (adjacencyList g) n e).
  { intros n e. unfold in_adj. split.
    - intros (l & ids & Hg & Hd & Hin). rewrite map_get_delete in Hg.
      destruct (String.eqb_spec nodeId n); [discriminate|]. split; eauto.
    - intros (Hne & l & ids & Hg & Hd & Hin). exists l, ids.
      rewrite map_get_delete_ne; auto. }
  constructor; simpl; auto.
  - intros n l. rewrite map_get_delete, H1.
    destruct (String.eqb nodeId n); [discriminate | apply Hv].
  - intros n1 n2 l. rewrite !map_get_delete.
    destruct (String.eqb nodeId n1), (String.eqb nodeId n2); try discriminate.
    apply Hi.
  - intros n id H. apply Hadj in H. destruct H as [Hne H].
    apply H3 in H. destruct H as [H Hnot].
    destruct (Ha n id H) as (e & Hg & Hends). exists e. split; auto.
    rewrite Hedges, Hg; auto.
    destruct (incident nodeId e) eqn:Hinc; auto.
    exfalso. apply Hnot. exists e. split; [now apply map_get_In|]. split; auto.
    unfold other_end. unfold incident in Hinc.
    destruct (String.eqb_spec (edge_source e) nodeId) as [Es|Es].
    + destruct Hends as [Hs | [_ Ht]]; congruence.
    + destruct Hends as [Hs | [_ Ht]]; auto.
      simpl in Hinc. apply String.eqb_eq in Hinc. congruence.
  - intros id e. rewrite Hedges; auto.
    destruct (map_get id (edges g)) as [e0|] eqn:Hg; [|discriminate].
    destruct (incident nodeId e0) eqn:Hinc; [discriminate|]. intros [= ->].
    apply incident_false in Hinc. destruct (He id e Hg) as [Hs Ht].
    simpl. unfold map_has in *. rewrite !map_get_delete_ne; [tauto | |]; intuition congruence.
  - intros id e. rewrite Hedges; auto.
    destruct (map_get id (edges g)) as [e0|] eqn:Hg; [|discriminate].
    destruct (incident nodeId e0) eqn:Hinc; [discriminate|]. intros [= ->].
    pose proof Hinc as Hinc'. apply incident_false in Hinc'.
    destruct (Hl id e Hg) as [Hs Ht].
    assert (Hkeep : forall n, n <> nodeId -> in_adj h (adjacencyList g) n id ->
                    in_adjacency h' {| nodes := map_delete nodeId (nodes g);
                                       edges := E';
                                       adjacencyList := map_delete nodeId (adjacencyList g);
                                       directed := directed g |} n id).
    { intros n Hn Hin. unfold in_adjacency. simpl. apply Hadj. split; auto.
      apply H3. split; auto.
      intros (e' & Hin' & Hinc2 & _).
      apply In_map_get in Hin'; auto. congruence. }
    split.
    + apply Hkeep; tauto.
    + intros Hd. apply Hkeep; [tauto | exact (Ht Hd)].
Qed.

Lemma addEdge_ok h g edge :
  graph_ok h g -> edit_ok g (EAddEdge edge) ->
  graph_ok (fst (addEdge h g edge)) (snd (addEdge h g edge)).
Proof.
  intros [Hk Hv Hi Ha He Hl] (Hfresh & Hsrc & Htgt). unfold addEdge.
  destruct (ensure_adjacency h (adjacencyList g) (edge_source edge))
    as [h1 adj1] eqn:E1.
  destruct (ensure_adjacency_spec _ _ _ _ _ Hv Hi E1)
    as (Hv1 & Hi1 & Hhas1 & Hne1 & Hin1).
  destruct (adjacency_add_spec h1 adj1 (edge_source edge) (edge_id edge) Hv1 Hi1 Hhas1)
    as [Hv2 Hin2].
  set (h2 := adjacency_add h1 adj1 (edge_source edge) (edge_id edge)) in *.
  assert (Hnone : forall n, ~ in_adj h (adjacencyList g) n (edge_id edge)).
  { intros n H. destruct (Ha n _ H) as (e & Hg & _). congruence. }
  destruct (directed g) eqn:Hdir.
  - (* directed *)
    constructor; simpl; auto.
    + now apply NoDup_map_set.
    + intros n id H. apply Hin2 in H. rewrite map_get_set.
      destruct H as [H | [-> ->]].
      * apply Hin1 in H. destruct (Ha n id H) as (e & Hg & Hends).
        destruct (String.eqb_spec (edge_id edge) id) as [<-|]; [congruence|].
        exists e. auto.
      * rewrite String.eqb_refl. eexists. split; eauto.
    + intros id e. simpl. rewrite map_get_set.
      destruct (String.eqb (edge_id edge) id).
      * intros [= <-]. simpl. auto.
      * apply He.
    + intros id e. rewrite map_get_set. unfold in_adjacency. simpl.
      destruct (String.eqb_spec (edge_id edge) id) as [<-|].
      * intros [= <-]. simpl. split; [|discriminate].
        apply Hin2. now right.
      * intros H. destruct (Hl id e H) as [Hs _]. split; [|discriminate].
        apply Hin2. left. now apply Hin1.
  - (* undirected *)
    destruct (ensure_adjacency h2 adj1 (edge_target edge)) as [h3 adj3] eqn:E3.
    destruct (ensure_adjacency_spec _ _ _ _ _ Hv2 Hi1 E3)
      as (Hv3 & Hi3 & Hhas3 & Hne3 & Hin3).
    destruct (adjacency_add_spec h3 adj3 (edge_target edge) (edge_id edge) Hv3 Hi3 Hhas3)
      as [Hv4 Hin4].
    assert (Hall : forall n id,
               in_adj (adjacency_add h3 adj3 (edge_target edge) (edge_id edge)) adj3 n id
               <-> in_adj h (adjacencyList g) n id
                   \/ (id = edge_id edge
                       /\ (n = edge_source edge \/ n = edge_target edge))).
    { intros n id. rewrite Hin4, Hin3, Hin2, Hin1. intuition. }
    constructor; simpl; auto.
    + now apply NoDup_map_set.
    + intros n id H. apply Hall in H. rewrite map_get_set.
      destruct H as [H | [-> H]].
      * destruct (Ha n id H) as (e & Hg & Hends).
        destruct (String.eqb_spec (edge_id edge) id) as [<-|]; [congruence|].
        exists e. auto.
      * rewrite String.eqb_refl. eexists. split; eauto. simpl.
        destruct H as [->| ->]; auto.
    + intros id e. simpl. rewrite map_get_set.
      destruct (String.eqb (edge_id edge) id).
      * intros [= <-]. simpl. auto.
      * apply He.
    + intros id e. rewrite map_get_set. unfold in_adjacency. simpl.
      destruct (String.eqb_spec (edge_id edge) id) as [<-|].
      * intros [= <-]. simpl. split; [|intros _]; apply Hall; right; auto.
      * intros H. destruct (Hl id e H) as [Hs Ht].
        split; [|intros _]; apply Hall; left; auto.
        apply Ht. reflexivity.
Qed.

Lemma removeEdge_ok h g edgeId :
  graph_ok h g ->
  graph_ok (fst (removeEdge h g edgeId)) (snd (removeEdge h g edgeId)).
Proof.
  intros Hok. pose proof Hok as [Hk Hv Hi Ha He Hl]. unfold removeEdge.
  destruct (map_get edgeId (edges g)) as [edge|] eqn:Hedge; [|exact Hok].
  set (h1 := adjacency_delete h (adjacencyList g) (edge_source edge) edgeId).
  set (h2 := if directed g then h1
             else adjacency_delete h1 (adjacencyList g) (edge_target edge) edgeId).
  assert (Hlen : List.length h2 = List.length h).
  { unfold h2, h1. destruct (directed g); now rewrite !adjacency_delete_length. }
  assert (Hall : forall n id, in_adj h2 (adjacencyList g) n id
                  <-> in_adj h (adjacencyList g) n id /\ id <> edgeId).
  { intros n id. unfold h2, h1.
    assert (Hends : in_adj h (adjacencyList g) n edgeId ->
                    n = edge_source edge
                    \/ (directed g = false /\ n = edge_target edge)).
    { intros H0. destruct (Ha n _ H0) as (e & Hg & Hends).
      assert (e = edge) by congruence. subst e.
      destruct Hends as [Hs | [Hd Ht]]; auto. }
    destruct (directed g) eqn:Hdir.
    - rewrite adjacency_delete_spec by auto. split.
      + intros [H Hn]. split; auto. intros ->.
        destruct (Hends H) as [->|[? _]]; [tauto | discriminate].
      + intros [H Hne]. split; auto. intros [_ ?]. congruence.
    - rewrite !adjacency_delete_spec by auto. split.
      + intros [[H Hn1] Hn2]. split; auto. intros ->.
        destruct (Hends H) as [->|[_ ->]]; tauto.
      + intros [H Hne]. split; [split|]; auto; intros [_ ?]; congruence. }
  constructor; simpl; auto.
  - now apply NoDup_map_delete.
  - intros n l. rewrite Hlen. apply Hv.
  - intros n id H. apply Hall in H. destruct H as [H Hne].
    destruct (Ha n id H) as (e & Hg & Hends). exists e.
    rewrite map_get_delete_ne; auto.
  - intros id e. simpl. rewrite map_get_delete.
    destruct (String.eqb edgeId id); [discriminate | apply He].
  - intros id e. rewrite map_get_delete. unfold in_adjacency. simpl.
    destruct (String.eqb_spec edgeId id) as [|Hne]; [discriminate|].
    intros H. destruct (Hl id e H) as [Hs Ht].
    split; [|intros Hd; specialize (Ht Hd)]; apply Hall; split; auto.
Qed.

Lemma apply_edit_ok hg e :
  graph_ok (fst hg) (snd hg) -> edit_ok (snd hg) e ->
  graph_ok (fst (apply_edit hg e)) (snd (apply_edit hg e)).
Proof.
  intros Hok He. destruct e; simpl.
  - now apply addNode_ok.
  - now apply removeNode_ok.
  - now apply addEdge_ok.
  - now apply removeEdge_ok.
Qed.

Lemma run_edits_ok es : forall hg,
  graph_ok (fst hg) (snd hg) -> edits_ok hg es ->
  graph_ok (fst (run_edits hg es)) (snd (run_edits hg es)).
Proof.
  induction es as [|e es IH]; intros hg Hok Hes; simpl in *; auto.
  destruct Hes as [He Hes]. apply IH; auto. now apply apply_edit_ok.
Qed.

Lemma graph_ok_invariant h g : graph_ok h g -> graph_invariant h g.
Proof.
  intros [Hk Hv Hi Ha He Hl]. split; [|split]; auto.
  - intros n id H. destruct (Ha n id H) as (e & Hg & _). eauto.
  - intros Hd id e H. destruct (Hl id e H). auto.
Qed.


(* ================================================================== *)
(** ** The priority queue: totality and contents *)
(* ================================================================== *)

Lemma list_set_length {A} (l : list A) i x : List.length (list_set l i x) = List.length l.
Proof. revert i. induction l; intros [|i]; simpl; auto. Qed.

Lemma nth_list_set {A} (l : list A) i x j :
  nth_error (list_set l i x) j
  = if Nat.eqb i j then (if Nat.ltb i (List.length l) then Some x else None)
    else nth_error l j.
Proof.
  revert i j. induction l as [|y l IH]; intros [|i] [|j]; simpl; auto.
  all: try (destruct (Nat.eqb i j); reflexivity).
Qed.

Lemma list_set_perm {A} (l : list A) i x a :
  nth_error l i = Some a -> Permutation (x :: l) (a :: list_set l i x).
Proof.
  revert i. induction l as [|y l IH]; intros [|i]; simpl; try discriminate.
  - intros [= ->]. apply perm_swap.
  - intros H. specialize (IH _ H).
    rewrite perm_swap. rewrite IH. apply perm_swap.
Qed.

Lemma heap_swap_length heap i j : List.length (heap_swap heap i j) = List.length heap.
Proof.
  unfold heap_swap. destruct (nth_error heap i), (nth_error heap j); auto.
  now rewrite !list_set_length.
Qed.

Lemma nth_heap_swap heap i j k :
  i < List.length heap -> j < List.length heap ->
  nth_error (heap_swap heap i j) k
  = if Nat.eqb k j then nth_error heap i
    else if Nat.eqb k i then nth_error heap j
    else nth_error heap k.
Proof.
  intros Hi Hj. unfold heap_swap.
  destruct (nth_error heap i) as [a|] eqn:Ei;
    [|apply nth_error_None in Ei; lia].
  destruct (nth_error heap j) as [b|] eqn:Ej;
    [|apply nth_error_None in Ej; lia].
  rewrite !nth_list_set, list_set_length.
  apply Nat.ltb_lt in Hi, Hj. rewrite Hi, Hj.
  destruct (Nat.eqb_spec j k), (Nat.eqb_spec k j); try congruence; auto.
  destruct (Nat.eqb_spec i k), (Nat.eqb_spec k i); try congruence; auto.
Qed.

Lemma heap_swap_perm heap i j : Permutation heap (heap_swap heap i j).
Proof.
  unfold heap_swap.
  destruct (nth_error heap i) as [a|] eqn:Ei; auto.
  destruct (nth_error heap j) as [b|] eqn:Ej; auto.
  apply Permutation_cons_inv with (a := b).
  rewrite (list_set_perm heap i b a Ei).
  apply list_set_perm.
  rewrite nth_list_set.
  destruct (Nat.eqb_spec i j) as [->|]; auto.
  assert (j < List.length heap) by (apply nth_error_Some; congruence).
  apply Nat.ltb_lt in H. now rewrite H.
Qed.

Lemma bubbleUp_total fuel : forall heap index,
  index < fuel ->
  exists heap', bubbleUp fuel heap index = Some heap' /\ Permutation heap heap'.
Proof.
  induction fuel as [|fuel IH]; intros heap index Hlt; [lia|].
  cbn [bubbleUp]. destruct (Nat.ltb_spec 0 index) as [Hpos|Hz].
  - destruct (num_le _ _).
    + eauto.
    + assert (Hp : (index - 1) / 2 < fuel).
      { assert ((index - 1) / 2 <= index - 1) by (apply Nat.Div0.div_le_upper_bound; lia).
        lia. }
      destruct (IH (heap_swap heap ((index - 1) / 2) index) _ Hp) as (heap' & -> & Hperm).
      exists heap'. split; auto.
      rewrite <- Hperm. apply heap_swap_perm.
  - eauto.
Qed.

Lemma bubbleDown_total fuel : forall heap index,
  index < List.length heap -> List.length heap <= fuel + index ->
  exists heap', bubbleDown fuel heap index = Some heap' /\ Permutation heap heap'.
Proof.
  induction fuel as [|fuel IH]; intros heap index Hin Hlt; [simpl in Hlt; lia|].
  cbn [bubbleDown].
  set (s1 := if Nat.ltb (2 * index + 1) (List.length heap)
                && num_lt (priority_at heap (2 * index + 1)) (priority_at heap index)
             then 2 * index + 1 else index).
  set (s2 := if Nat.ltb (2 * index + 2) (List.length heap)
                && num_lt (priority_at heap (2 * index + 2)) (priority_at heap s1)
             then 2 * index + 2 else s1).
  destruct (Nat.eqb_spec s2 index) as [|Hne]; [eauto|].
  assert (Hs2 : index < s2 /\ s2 < List.length heap).
  { subst s2 s1.
    destruct (Nat.ltb_spec (2 * index + 2) (List.length heap));
      destruct (Nat.ltb_spec (2 * index + 1) (List.length heap));
      simpl in *;
      repeat match goal with
             | |- context [if ?b then _ else _] => destruct b
             | H : context [if ?b then _ else _] |- _ => destruct b
             end; try lia; congruence. }
  destruct (IH (heap_swap heap s2 index) s2) as (heap' & -> & Hperm).
  { rewrite heap_swap_length. lia. }
  { rewrite heap_swap_length. lia. }
  exists heap'. split; auto. rewrite <- Hperm. apply heap_swap_perm.
Qed.

Lemma enqueue_total heap item p :
  exists heap', enqueue heap item p = Some heap'
                /\ Permutation ((item, p) :: heap) heap'.
Proof.
  unfold enqueue.
  destruct (bubbleUp_total (S (List.length heap)) (heap ++ [(item, p)])
                           (List.length heap)) as (heap' & H & Hperm); [lia|].
  exists heap'. split; auto.
  rewrite <- Hperm. apply Permutation_cons_append.
Qed.

Lemma removelast_cons {A} (x : A) l : l <> [] -> removelast (x :: l) = x :: removelast l.
Proof. destruct l; [congruence | reflexivity]. Qed.

Lemma last_cons {A} (x d : A) l : l <> [] -> List.last (x :: l) d = List.last l d.
Proof. destruct l; [congruence | reflexivity]. Qed.

Lemma dequeue_total x rest :
  exists heap', dequeue (x :: rest) = Some (Some (fst x), heap')
                /\ Permutation rest heap'.
Proof.
  unfold dequeue. destruct rest as [|y rest'] eqn:E.
  - simpl. eauto.
  - rewrite <- E. assert (Hne : rest <> []) by (subst; discriminate).
    rewrite removelast_cons, last_cons by auto.
    destruct (bubbleDown_total (S (List.length (removelast rest)))
                (List.last rest x :: removelast rest) 0)
      as (heap' & -> & Hperm); simpl; try lia.
    exists heap'. split; auto.
    rewrite <- Hperm.
    rewrite (app_removelast_last x Hne) at 1.
    symmetry. apply Permutation_cons_append.
Qed.

Lemma dequeue_nonempty heap :
  heap <> [] ->
  exists x heap', dequeue heap = Some (Some (fst x), heap')
                  /\ Permutation heap (x :: heap')
                  /\ nth_error heap 0 = Some x.
Proof.
  destruct heap as [|x rest]; [congruence|]. intros _.
  destruct (dequeue_total x rest) as (heap' & H & Hperm).
  exists x, heap'. repeat split; auto.
Qed.

(* ================================================================== *)
(** ** The priority queue: heap order *)
(* ================================================================== *)

Lemma parent_of_child p c : child_of p c -> (c - 1) / 2 = p.
Proof.
  intros [H|H]; subst.
  - replace (2 * p + 1 - 1) with (p * 2) by lia. apply Nat.div_mul. lia.
  - replace (2 * p + 2 - 1) with (1 + p * 2) by lia.
    rewrite Nat.div_add by lia. reflexivity.
Qed.

Lemma child_of_parent i : 0 < i -> child_of ((i - 1) / 2) i.
Proof.
  intros H. unfold child_of.
  pose proof (Nat.div_mod_eq (i - 1) 2).
  pose proof (Nat.mod_upper_bound (i - 1) 2).
  lia.
Qed.

Lemma all_fin_perm heap heap' : Permutation heap heap' -> all_fin heap -> all_fin heap'.
Proof. intros Hp Hf. unfold all_fin in *. now rewrite <- Hp. Qed.

Lemma priority_at_fin heap i :
  all_fin heap -> i < List.length heap -> priority_at heap i = Fin (key_at heap i).
Proof.
  intros Hf Hi. unfold priority_at, key_at, keyZ.
  destruct (nth_error heap i) as [e|] eqn:E; [|apply nth_error_None in E; lia].
  apply nth_error_In in E. unfold all_fin in Hf. rewrite Forall_forall in Hf.
  destruct (Hf _ E) as [z ->]. reflexivity.
Qed.

Lemma key_at_swap heap i j k :
  i < List.length heap -> j < List.length heap ->
  key_at (heap_swap heap i j) k
  = if Nat.eqb k j then key_at heap i
    else if Nat.eqb k i then key_at heap j
    else key_at heap k.
Proof.
  intros Hi Hj. unfold key_at. rewrite nth_heap_swap by auto.
  destruct (Nat.eqb k j); auto. destruct (Nat.eqb k i); auto.
Qed.

Lemma bubbleUp_heap fuel : forall heap index heap',
  all_fin heap -> index < List.length heap ->
  heap_except (fun _ c => c = index) heap ->
  (forall c, child_of index c -> c < List.length heap -> 0 < index ->
             (key_at heap ((index - 1) / 2) <= key_at heap c)%Z) ->
  bubbleUp fuel heap index = Some heap' -> heap_ok heap'.
Proof.
  induction fuel as [|fuel IH]; intros heap index heap' Hf Hi Hex Hgp; [discriminate|].
  cbn [bubbleUp]. destruct (Nat.ltb_spec 0 index) as [Hpos|Hz].
  - pose proof (child_of_parent index Hpos) as Hpc.
    specialize (fun c H1 H2 => Hgp c H1 H2 Hpos).
    remember ((index - 1) / 2) as p eqn:Ep. clear Ep.
    assert (Hp : p < index) by (unfold child_of in Hpc; lia).
    rewrite !priority_at_fin by (auto; lia). simpl.
    destruct (Z.leb_spec (key_at heap p) (key_at heap index)) as [Hle|Hgt].
    + intros [= <-]. intros q c Hqc Hc _.
      destruct (Nat.eq_dec c index) as [->|Hne].
      * assert (q = p).
        { apply parent_of_child in Hqc, Hpc. lia. }
        subst q. exact Hle.
      * now apply Hex.
    + apply IH.
      * eapply all_fin_perm; [apply heap_swap_perm | auto].
      * rewrite heap_swap_length. lia.
      * intros q c Hqc Hc Hskip. rewrite heap_swap_length in Hc.
        rewrite !key_at_swap by lia.
        pose proof (Hex q c Hqc Hc) as H1.
        pose proof (Hex p c) as H2.
        pose proof (Hgp c) as H3.
        pose proof (parent_of_child _ _ Hqc) as H4.
        pose proof (parent_of_child _ _ Hpc) as H5.
        unfold child_of in *.
        destruct (Nat.eqb_spec c index), (Nat.eqb_spec c p),
                 (Nat.eqb_spec q index), (Nat.eqb_spec q p); subst; try lia.
      * intros c Hpc' Hc Hp0. rewrite heap_swap_length in Hc.
        rewrite !key_at_swap by lia.
        pose proof (child_of_parent p Hp0) as Hgpp.
        remember ((p - 1) / 2) as gp eqn:Egp. clear Egp.
        pose proof (Hex gp p Hgpp ltac:(lia)) as H1.
        pose proof (Hex p c Hpc' Hc) as H2.
        unfold child_of in *.
        destruct (Nat.eqb_spec c index), (Nat.eqb_spec c p),
                 (Nat.eqb_spec gp index), (Nat.eqb_spec gp p); subst; try lia.
  - intros [= <-]. intros q c Hqc Hc _. apply Hex; auto.
    unfold child_of in Hqc. lia.
Qed.

Lemma bubbleDown_heap fuel : forall heap index heap',
  all_fin heap -> index < List.length heap ->
  heap_except (fun p _ => p = index) heap ->
  (forall c, child_of index c -> c < List.length heap -> 0 < index ->
             (key_at heap ((index - 1) / 2) <= key_at heap c)%Z) ->
  bubbleDown fuel heap index = Some heap' -> heap_ok heap'.
Proof.
  induction fuel as [|fuel IH]; intros heap index heap' Hf Hi Hex Hgp; [discriminate|].
  cbn [bubbleDown].
  set (s1 := if Nat.ltb (2 * index + 1) (List.length heap)
                && num_lt (priority_at heap (2 * index + 1)) (priority_at heap index)
             then 2 * index + 1 else index).
  set (s2 := if Nat.ltb (2 * index + 2) (List.length heap)
                && num_lt (priority_at heap (2 * index + 2)) (priority_at heap s1)
             then 2 * index + 2 else s1).
  assert (Hs1 : (s1 = index
                 /\ (2 * index + 1 < List.length heap ->
                     (key_at heap index <= key_at heap (2 * index + 1))%Z))
                \/ (s1 = 2 * index + 1 /\ 2 * index + 1 < List.length heap
                    /\ (key_at heap (2 * index + 1) < key_at heap index)%Z)).
  { subst s1. destruct (Nat.ltb_spec (2 * index + 1) (List.length heap)) as [Hl|Hl];
      cbn [andb].
    - rewrite !priority_at_fin by auto. cbn [num_lt].
      destruct (Z.ltb_spec (key_at heap (2 * index + 1)) (key_at heap index));
        [right | left]; auto.
    - left. split; auto. lia. }
  assert (Hs1' : s1 < List.length heap) by (destruct Hs1 as [[-> _]|[-> [? _]]]; lia).
  assert (Hs2 : (s2 = s1
                 /\ (2 * index + 2 < List.length heap ->
                     (key_at heap s1 <= key_at heap (2 * index + 2))%Z))
                \/ (s2 = 2 * index + 2 /\ 2 * index + 2 < List.length heap
                    /\ (key_at heap (2 * index + 2) < key_at heap s1)%Z)).
  { subst s2. destruct (Nat.ltb_spec (2 * index + 2) (List.length heap)) as [Hr|Hr];
      cbn [andb].
    - rewrite !priority_at_fin by auto. cbn [num_lt].
      destruct (Z.ltb_spec (key_at heap (2 * index + 2)) (key_at heap s1));
        [right | left]; auto.
    - left. split; auto. lia. }
  clearbody s1 s2.
  destruct (Nat.eqb_spec s2 index) as [Heq|Hne].
  - intros [= <-]. intros q c Hqc Hc _.
    destruct (Nat.eq_dec q index) as [->|Hq]; [|now apply Hex].
    unfold child_of in Hqc.
    destruct Hs1 as [[E1 H1]|[E1 [H1 H1']]], Hs2 as [[E2 H2]|[E2 [H2 H2']]];
      destruct Hqc; subst; try lia.
  - assert (Hs2' : s2 < List.length heap)
      by (destruct Hs2 as [[-> _]|[-> [? _]]]; lia).
    apply IH.
    + eapply all_fin_perm; [apply heap_swap_perm | auto].
    + now rewrite heap_swap_length.
    + intros q c Hqc Hc Hskip. rewrite heap_swap_length in Hc.
      rewrite !key_at_swap by lia.
      pose proof (Hex q c Hqc Hc) as H1.
      pose proof (parent_of_child _ _ Hqc) as H4.
      assert (H3 : 0 < index -> c = index ->
                   (key_at heap q <= key_at heap (2 * index + 1))%Z
                   /\ (2 * index + 2 < List.length heap ->
                       (key_at heap q <= key_at heap (2 * index + 2))%Z)).
      { intros Hpos ->. rewrite <- H4. split; [|intros Hr]; apply Hgp; auto;
        unfold child_of; try lia. }
      clear H4. unfold child_of in *.
      destruct Hqc as [Hqc|Hqc]; rewrite Hqc in *; clear Hqc;
      destruct (Nat.eqb_spec (2 * q + 1) index), (Nat.eqb_spec (2 * q + 1) s2),
               (Nat.eqb_spec (2 * q + 2) index), (Nat.eqb_spec (2 * q + 2) s2),
               (Nat.eqb_spec q index), (Nat.eqb_spec q s2);
        destruct Hs1 as [[E1 H1a]|[E1 [H1a H1b]]], Hs2 as [[E2 H2a]|[E2 [H2a H2b]]];
        subst; try lia.
    + intros c Hc1 Hc Hpos. rewrite heap_swap_length in Hc.
      assert (Hpar : (s2 - 1) / 2 = index).
      { apply parent_of_child. unfold child_of.
        destruct Hs1 as [[-> _]|[-> [? _]]], Hs2 as [[E2 _]|[E2 [? _]]]; lia. }
      rewrite Hpar. rewrite !key_at_swap by lia.
      pose proof (Hex s2 c Hc1 Hc Hne) as H1.
      unfold child_of in *.
      destruct (Nat.eqb_spec c index), (Nat.eqb_spec c s2),
               (Nat.eqb_spec index index), (Nat.eqb_spec index s2);
        subst; try lia.
Qed.

Lemma key_at_app_old heap x i :
  i < List.length heap -> key_at (heap ++ [x]) i = key_at heap i.
Proof. intros H. unfold key_at. now rewrite nth_error_app1. Qed.

Lemma enqueue_heap heap item z heap' :
  all_fin heap -> heap_ok heap ->
  enqueue heap item (Fin z) = Some heap' ->
  heap_ok heap' /\ all_fin heap'.
Proof.
  intros Hf Hok He.
  destruct (enqueue_total heap item (Fin z)) as (h2 & He' & Hperm).
  assert (h2 = heap') by congruence. subst h2. split.
  - unfold enqueue in He. eapply bubbleUp_heap; [| | | |exact He].
    + apply Forall_app. split; auto. constructor; [|constructor].
      simpl. now exists z.
    + rewrite length_app. simpl. lia.
    + intros p c Hpc Hc Hskip. rewrite length_app in Hc. simpl in Hc.
      assert (p < c) by (unfold child_of in Hpc; lia).
      rewrite !key_at_app_old by lia. apply Hok; auto. lia.
    + intros c Hc1 Hc2. rewrite length_app in Hc2. simpl in Hc2.
      unfold child_of in Hc1. lia.
  - eapply all_fin_perm; [exact Hperm|]. constructor; auto. simpl. now exists z.
Qed.

Lemma nth_error_removelast {A} (l : list A) i :
  S i < List.length l -> nth_error (removelast l) i = nth_error l i.
Proof.
  revert i. induction l as [|x l IH]; intros i Hi; [simpl in Hi; lia|].
  destruct l as [|y l]; [simpl in Hi; lia|].
  change (removelast (x :: y :: l)) with (x :: removelast (y :: l)).
  destruct i; simpl; auto. apply IH. simpl in *. lia.
Qed.

Lemma removelast_length {A} (l : list A) :
  List.length (removelast l) = List.length l - 1.
Proof.
  induction l as [|x l IH]; auto.
  destruct l as [|y l]; auto.
  change (removelast (x :: y :: l)) with (x :: removelast (y :: l)).
  simpl in *. lia.
Qed.

Lemma dequeue_heap heap x heap' :
  all_fin heap -> heap_ok heap ->
  dequeue heap = Some (Some x, heap') ->
  heap_ok heap' /\ all_fin heap'.
Proof.
  intros Hf Hok Hd. destruct heap as [|e rest]; [discriminate|].
  destruct (dequeue_total e rest) as (h2 & Hd' & Hperm).
  assert (h2 = heap') by congruence. subst h2.
  assert (Hf' : all_fin heap').
  { eapply all_fin_perm; [exact Hperm|]. now inversion Hf. }
  split; auto.
  unfold dequeue in Hd. destruct rest as [|y rest'] eqn:E.
  - simpl in Hd. injection Hd as _ <-. intros p c _ Hc. simpl in Hc. lia.
  - rewrite <- E in *. assert (Hne : rest <> []) by (subst; discriminate).
    rewrite removelast_cons, last_cons in Hd by auto.
    destruct (bubbleDown _ _ 0) as [h3|] eqn:Hb; [|discriminate].
    injection Hd as _ ->.
    assert (Hkey : forall i, 0 < i -> i < List.length rest ->
                   key_at (List.last rest e :: removelast rest) i
                   = key_at (e :: rest) i).
    { intros [|i] Hi Hi'; [lia|]. unfold key_at. simpl.
      rewrite nth_error_removelast by lia. reflexivity. }
    eapply bubbleDown_heap; [| | | |exact Hb].
    + constructor.
      * assert (Hin : In (List.last rest e) rest).
        { rewrite (app_removelast_last e Hne) at 2.
          apply in_or_app. right. now left. }
        inversion Hf as [|? ? _ Hf2]; subst.
        unfold all_fin in Hf2. rewrite Forall_forall in Hf2. auto.
      * inversion Hf as [|? ? _ Hf2]; subst.
        unfold all_fin in *. rewrite Forall_forall in *.
        intros z Hz. apply Hf2.
        rewrite (app_removelast_last e Hne). apply in_or_app. now left.
    + simpl. lia.
    + intros p c Hpc Hc Hskip. simpl in Hc.
      rewrite removelast_length in Hc.
      assert (p < c) by (unfold child_of in Hpc; lia).
      rewrite !Hkey by lia. apply Hok; auto. simpl. lia.
    + intros c _ _ Hpos. lia.
Qed.

Lemma heap_root_min heap :
  heap_ok heap ->
  forall i, i < List.length heap -> (key_at heap 0 <= key_at heap i)%Z.
Proof.
  intros Hok i. induction i as [i IH] using lt_wf_ind. intros Hi.
  destruct (Nat.eq_dec i 0) as [->|Hne]; [lia|].
  pose proof (child_of_parent i ltac:(lia)) as Hpc.
  remember ((i - 1) / 2) as p eqn:Ep. clear Ep.
  assert (p < i) by (unfold child_of in Hpc; lia).
  specialize (IH p ltac:(lia) ltac:(lia)).
  pose proof (Hok p i Hpc Hi (fun f => f)). lia.
Qed.

Lemma heap_min_entry heap x e :
  all_fin heap -> heap_ok heap ->
  nth_error heap 0 = Some x -> In e heap -> (keyZ x <= keyZ e)%Z.
Proof.
  intros Hf Hok H0 Hin. apply In_nth_error in Hin. destruct Hin as [i Hi].
  assert (i < List.length heap) by (apply nth_error_Some; congruence).
  pose proof (heap_root_min heap Hok i H) as Hmin.
  unfold key_at in Hmin. now rewrite H0, Hi in Hmin.
Qed.


(* ================================================================== *)
(** ** Numbers *)
(* ================================================================== *)

Lemma num_lt_fin a b : num_lt a b = true -> exists z, a = Fin z.
Proof. destruct a; simpl; eauto; discriminate. Qed.

Lemma num_lt_le a b : num_lt a b = true -> num_le a b = true.
Proof.
  destruct a, b; simpl; try discriminate; auto.
  intros H. apply Z.ltb_lt in H. apply Z.leb_le. lia.
Qed.

Lemma num_le_refl a : a <> NaN -> num_le a a = true.
Proof. destruct a; simpl; try congruence. intros _. apply Z.leb_refl. Qed.

Lemma num_le_trans a b c :
  num_le a b = true -> num_le b c = true -> num_le a c = true.
Proof.
  destruct a, b, c; simpl; try discriminate; auto.
  intros H1 H2. apply Z.leb_le in H1, H2. apply Z.leb_le. lia.
Qed.

Lemma num_add_fin a wt z :
  num_add (as_num a) (Fin wt) = Fin z ->
  exists du, a = Some (Fin du) /\ z = (du + wt)%Z.
Proof.
  destruct a as [[du| |]|]; simpl; try discriminate.
  intros [= <-]. eauto.
Qed.

(* ================================================================== *)
(** ** Predecessor links *)
(* ================================================================== *)

Lemma predecessor_of_set pred w u v :
  predecessor_of (map_set w (Some u) pred) v
  = if String.eqb w v then Some u else predecessor_of pred v.
Proof.
  unfold predecessor_of. rewrite map_get_set.
  destruct (String.eqb w v); reflexivity.
Qed.

Lemma set_add_fresh x s : set_has x s = false -> set_add x s = s ++ [x].
Proof. unfold set_add. now intros ->. Qed.

Lemma set_has_false x s : set_has x s = false <-> ~ In x s.
Proof.
  rewrite <- set_has_In. destruct (set_has x s); split; congruence.
Qed.

(* ================================================================== *)
(** ** [mono] is a preorder on the recorded states *)
(* ================================================================== *)

Lemma mono_refl c :
  (forall v d, map_get v (c_dist c) = Some d -> d <> NaN) -> mono c c.
Proof.
  intros Hn. split; auto.
  intros v d H. exists d. split; auto. apply num_le_refl. eauto.
Qed.

Lemma mono_trans c1 c2 c3 : mono c1 c2 -> mono c2 c3 -> mono c1 c3.
Proof.
  intros [V1 D1] [V2 D2]. split; auto.
  intros v d H. destruct (D1 v d H) as (d' & H' & Hle).
  destruct (D2 v d' H') as (d'' & H'' & Hle').
  exists d''. split; auto. eapply num_le_trans; eauto.
Qed.

Lemma mono_same c c' :
  c_dist c' = c_dist c -> c_visited c' = c_visited c ->
  (forall v d, map_get v (c_dist c) = Some d -> d <> NaN) -> mono c c'.
Proof.
  intros Hd Hv Hn. split.
  - now rewrite Hv.
  - rewrite Hd. intros v d H. exists d. split; auto. apply num_le_refl. eauto.
Qed.

Lemma mono_visit c c' x :
  c_dist c' = c_dist c -> c_visited c' = set_add x (c_visited c) ->
  (forall v d, map_get v (c_dist c) = Some d -> d <> NaN) -> mono c c'.
Proof.
  intros Hd Hv Hn. split.
  - rewrite Hv. intros v Hin. apply In_set_add. auto.
  - rewrite Hd. intros v d H. exists d. split; auto. apply num_le_refl. eauto.
Qed.

Lemma mono_relax c c' w newDist :
  c_dist c' = map_set w newDist (c_dist c) -> c_visited c' = c_visited c ->
  num_lt newDist (as_num (map_get w (c_dist c))) = true ->
  (forall v d, map_get v (c_dist c) = Some d -> d <> NaN) -> mono c c'.
Proof.
  intros Hd Hv Hlt Hn. split.
  - now rewrite Hv.
  - rewrite Hd. intros v d H. rewrite map_get_set.
    destruct (String.eqb_spec w v) as [->|Hne].
    + exists newDist. split; auto. rewrite H in Hlt. simpl in Hlt.
      now apply num_lt_le.
    + exists d. split; auto. apply num_le_refl. eauto.
Qed.

(* ================================================================== *)
(** ** The basic invariant through the moves of the algorithms *)
(* ================================================================== *)

Section Basic.
Variable graph : Graph.
Variable s : string.

Lemma basic_inv_pop d p v q x q' :
    basic_inv graph s (mkCore d p v q) -> Permutation q (x :: q') ->
    basic_inv graph s (mkCore d p v q')
    /\ (fst x = s \/ exists u, predecessor_of p (fst x) = Some u)
    /\ (v = [] -> fst x = s).
  Proof.
    intros [H1 H2 H3 H4 H5 H6 H7 H8 H9 H10] Hperm. simpl in *.
    assert (Hin : forall e, In e q' -> In e q).
    { intros e He. eapply Permutation_in; [symmetry; exact Hperm|]. now right. }
    assert (Hx : In x q).
    { eapply Permutation_in; [symmetry; exact Hperm|]. now left. }
    split; [|split]; auto.
    constructor; simpl; auto.
  Qed.

Lemma basic_inv_queue d p v q q' :
    basic_inv graph s (mkCore d p v q) -> (forall e, In e q' -> In e q) ->
    basic_inv graph s (mkCore d p v q').
  Proof.
    intros [H1 H2 H3 H4 H5 H6 H7 H8 H9 H10] Hin. simpl in *.
    constructor; simpl; auto.
  Qed.

Lemma basic_inv_visit d p v q cur :
    basic_inv graph s (mkCore d p v q) ->
    set_has cur v = false ->
    (cur = s \/ exists u, predecessor_of p cur = Some u) ->
    (v = [] -> cur = s) ->
    basic_inv graph s (mkCore d p (set_add cur v) q).
  Proof.
    intros [H1 H2 H3 H4 H5 H6 H7 H8 H9 H10] Hfresh Hreach Hfirst. simpl in *.
    rewrite set_add_fresh by auto.
    constructor; simpl; auto.
    - intros w u H. apply in_or_app. left. eauto.
    - intros l1 w l2 u Heq Hp.
      induction l2 as [|y l2 _] using rev_ind.
      + apply app_inj_tail in Heq. destruct Heq as [<- <-].
        destruct Hreach as [->|[u' Hu']]; [congruence|]. eauto.
      + rewrite app_comm_cons, app_assoc in Heq.
        apply app_inj_tail in Heq. destruct Heq as [Heq _]. eauto.
    - intros w Hin. apply in_app_or in Hin. destruct Hin as [Hin|[<-|[]]]; auto.
    - intros w Hin. apply in_or_app.
      destruct v as [|v0 v']; [|left; apply (H6 v0); now left].
      right. left. auto.
    - intros Heq. destruct v; discriminate.
  Qed.

Lemma basic_inv_relax d p v q q' cur w wt du :
    basic_inv graph s (mkCore d p v q) ->
    In cur v -> ~ In w v -> hop graph cur w wt ->
    map_get cur d = Some (Fin du) ->
    (forall e, In e q' -> In e q \/ fst e = w) ->
    basic_inv graph s
      (mkCore (map_set w (Fin (du + wt)) d) (map_set w (Some cur) p) v q').
  Proof.
    intros [H1 H2 H3 H4 H5 H6 H7 H8 H9 H10] Hcur Hw Hhop Hdu Hq. simpl in *.
    assert (Hs : In s v) by eauto.
    assert (Hws : w <> s) by congruence.
    assert (Hwc : w <> cur) by congruence.
    constructor; simpl.
    - intros x u. rewrite predecessor_of_set.
      destruct (String.eqb w x); [intros [= <-]; auto | eauto].
    - intros l1 x l2 u Heq. rewrite predecessor_of_set.
      destruct (String.eqb_spec w x) as [->|Hne]; [|eauto].
      exfalso. apply Hw. rewrite Heq. apply in_or_app. right. now left.
    - intros x u. rewrite predecessor_of_set, !map_get_set.
      destruct (String.eqb_spec w x) as [->|Hne].
      + intros [= <-]. destruct (String.eqb_spec x cur); [congruence|].
        exists du, wt. auto.
      + intros Hp. destruct (H3 x u Hp) as (du' & wt' & Hu & Hx & Hh).
        destruct (String.eqb_spec w u) as [->|]; [|eauto].
        exfalso. apply Hw. eauto.
    - intros x Hx. rewrite predecessor_of_set.
      destruct (String.eqb w x); [eauto | auto].
    - intros e He. rewrite predecessor_of_set.
      destruct (String.eqb_spec w (fst e)) as [->|Hne]; [eauto|].
      destruct (Hq e He) as [Hin|Heq]; [auto | congruence].
    - auto.
    - intros ->. destruct Hcur.
    - rewrite predecessor_of_set.
      destruct (String.eqb_spec w s); [congruence | auto].
    - intros d0. rewrite map_get_set.
      destruct (String.eqb_spec w s); [congruence | auto].
    - intros x d0. rewrite map_get_set.
      destruct (String.eqb w x); [intros [= <-]; discriminate | eauto].
  Qed.
End Basic.

(* ================================================================== *)
(** ** Neighbours are edges; the path walks predecessor links *)
(* ================================================================== *)

Lemma neighbor_of_hop graph u edgeId nb :
  neighbor_of graph u edgeId = Some nb ->
  nb_edgeId nb = edgeId
  /\ exists edge, map_get edgeId (edges graph) = Some edge
       /\ edge_weight edge = nb_weight nb
       /\ ((edge_source edge = u /\ edge_target edge = nb_nodeId nb)
           \/ (directed graph = false
               /\ edge_target edge = u /\ edge_source edge = nb_nodeId nb)).
Proof.
  unfold neighbor_of. destruct (map_get edgeId (edges graph)) as [edge|]; [|discriminate].
  destruct (String.eqb_spec (edge_source edge) u) as [Hs|Hs].
  - intros [= <-]. simpl. split; auto. exists edge. auto.
  - destruct (directed graph) eqn:Hd; simpl; [discriminate|].
    destruct (String.eqb_spec (edge_target edge) u) as [Ht|Ht]; [|discriminate].
    intros [= <-]. simpl. split; auto. exists edge. auto 6.
Qed.

Lemma collect_neighbors_In graph u ids nb :
  In nb (collect_neighbors graph u ids) ->
  exists edgeId, In edgeId ids /\ neighbor_of graph u edgeId = Some nb.
Proof.
  induction ids as [|id ids IH]; simpl; [tauto|].
  destruct (neighbor_of graph u id) as [nb'|] eqn:E.
  - intros [<-|Hin]; eauto. destruct (IH Hin) as (e & ? & ?). eauto.
  - intros Hin. destruct (IH Hin) as (e & ? & ?). eauto.
Qed.

Lemma getNeighbors_hop h graph u nb :
  In nb (getNeighbors h graph u) -> hop graph u (nb_nodeId nb) (nb_weight nb).
Proof.
  unfold getNeighbors.
  destruct (map_get u (adjacencyList graph)) as [l|]; [|intros []].
  destruct (deref h l) as [ids|]; [|intros []].
  intros Hin. apply collect_neighbors_In in Hin. destruct Hin as (id & _ & Hn).
  apply neighbor_of_hop in Hn. destruct Hn as (_ & edge & He & Hw & Hends).
  exists id, edge. auto.
Qed.

Lemma reconstructPath_total pred : forall n l1 v l2 acc fuel,
  List.length l1 <= n ->
  (forall l1' v' l2' u, l1 ++ v :: l2 = l1' ++ v' :: l2' ->
                        predecessor_of pred v' = Some u -> In u l1') ->
  List.length l1 < fuel ->
  exists path, reconstructPath_loop fuel pred (Some v) acc = Some path.
Proof.
  induction n as [|n IH]; intros l1 v l2 acc fuel Hlen Hsorted Hfuel.
  - destruct l1; [|simpl in Hlen; lia].
    destruct fuel as [|fuel]; [lia|]. simpl.
    destruct (predecessor_of pred v) as [u|] eqn:Hp.
    + exfalso. apply (Hsorted [] v l2 u eq_refl Hp).
    + destruct fuel; simpl; eauto.
  - destruct fuel as [|fuel]; [lia|]. simpl.
    destruct (predecessor_of pred v) as [u|] eqn:Hp.
    + pose proof (Hsorted l1 v l2 u eq_refl Hp) as Hin.
      apply in_split in Hin. destruct Hin as (a & b & Hab).
      assert (Hla : List.length a < List.length l1).
      { rewrite Hab, length_app. simpl. lia. }
      apply (IH a u (b ++ v :: l2)); try lia.
      intros l1' v' l2' u' Heq. apply (Hsorted l1' v' l2' u').
      rewrite Hab, <- app_assoc. exact Heq.
    + destruct fuel; simpl; eauto.
Qed.

Lemma potential_visit h graph cur v :
  set_has cur v = false ->
  potential h graph (set_add cur v) + List.length (getNeighbors h graph cur)
  <= potential h graph v.
Proof.
  intros Hfresh. unfold potential.
  assert (Hother : forall n, n <> cur -> set_has n (set_add cur v) = set_has n v).
  { intros n Hn. destruct (set_has n v) eqn:E.
    - apply set_has_In. apply In_set_add. right. now apply set_has_In.
    - apply set_has_false. rewrite In_set_add. apply set_has_false in E.
      intros [->|H]; auto. }
  assert (Hcur : set_has cur (set_add cur v) = true).
  { apply set_has_In, In_set_add. now left. }
  assert (Hgen : forall ks,
    let f := fun vis n => if set_has n vis then 0
                          else List.length (getNeighbors h graph n) in
    list_sum (map (f (set_add cur v)) ks) <= list_sum (map (f v) ks)
    /\ (In cur ks ->
        list_sum (map (f (set_add cur v)) ks)
        + List.length (getNeighbors h graph cur)
        <= list_sum (map (f v) ks))).
  { induction ks as [|k ks [IH1 IH2]]; simpl.
    - split; [lia | tauto].
    - destruct (String.eqb_spec k cur) as [->|Hk].
      + rewrite Hcur, Hfresh. split; [lia|]. intros _. lia.
      + rewrite Hother by auto. split; [lia|].
        intros [Heq|Hin]; [congruence|]. specialize (IH2 Hin). lia. }
  destruct (Hgen (map_keys (adjacencyList graph))) as [H1 H2].
  destruct (map_get cur (adjacencyList graph)) as [l|] eqn:Hg.
  - apply H2. apply map_get_In_key. eauto.
  - unfold getNeighbors at 2. rewrite Hg. simpl. lia.
Qed.

(* ================================================================== *)
(** ** The maps built by the initialisation loops *)
(* ================================================================== *)

Lemma map_get_init {K V : Type} (f : string -> V) (l : JsMap K) : forall m0 k,
  map_get k (fold_left (fun m kv => map_set (fst kv) (f (fst kv)) m) l m0)
  = if existsb (String.eqb k) (map_keys l) then Some (f k) else map_get k m0.
Proof.
  induction l as [|[k0 v0] l IH]; intros m0 k; simpl; auto.
  rewrite IH. destruct (existsb (String.eqb k) (map_keys l)); [now rewrite orb_true_r|].
  rewrite orb_false_r, map_get_set.
  rewrite (String.eqb_sym k k0).
  destruct (String.eqb_spec k0 k) as [->|]; auto.
Qed.

Lemma existsb_keys {V : Type} (m : JsMap V) k :
  existsb (String.eqb k) (map_keys m) = map_has k m.
Proof.
  unfold map_has. induction m as [|[k0 v0] m IH]; simpl; auto.
  rewrite (String.eqb_sym k k0).
  destruct (String.eqb k0 k); simpl; auto.
Qed.

Lemma potential_nil h graph :
  potential h graph []
  = list_sum (map (fun n => List.length (getNeighbors h graph n))
                  (map_keys (adjacencyList graph))).
Proof. reflexivity. Qed.

(* ================================================================== *)
(** ** The reconstructed path *)
(* ================================================================== *)

Lemma path_cost_snoc graph pre c u v wt :
  path_cost graph pre c -> List.last pre v = u -> hop graph u v wt ->
  path_cost graph (pre ++ [v]) (c + wt).
Proof.
  intros Hp. revert u. induction Hp as [x | a b rest wt' c' Hh Hp IH]; intros u Hl Hhop.
  - simpl in Hl. subst x.
    change ([u] ++ [v]) with [u; v].
    replace (0 + wt)%Z with (wt + 0)%Z by lia.
    constructor; [exact Hhop | constructor].
  - replace (wt' + c' + wt)%Z with (wt' + (c' + wt))%Z by lia.
    change ((a :: b :: rest) ++ [v]) with (a :: (b :: rest) ++ [v]).
    simpl. constructor; auto. apply (IH u); auto.
Qed.

Lemma last_default {A} (l : list A) d d' : l <> [] -> List.last l d = List.last l d'.
Proof.
  induction l as [|x l IH]; [congruence|]. intros _.
  destruct l as [|y l]; auto. apply IH. discriminate.
Qed.

Lemma last_snoc {A} (l : list A) x d : List.last (l ++ [x]) d = x.
Proof. apply last_last. Qed.

Lemma reconstructPath_cost graph s c :
  basic_inv graph s c ->
  forall fuel v acc path,
    reconstructPath_loop fuel (c_pred c) (Some v) acc = Some path ->
    (v = s \/ exists u, predecessor_of (c_pred c) v = Some u) ->
    exists pre,
      path = pre ++ acc
      /\ List.hd_error pre = Some s
      /\ List.last pre s = v
      /\ (forall z, map_get v (c_dist c) = Some (Fin z) -> path_cost graph pre z)
      /\ ((exists u, predecessor_of (c_pred c) v = Some u) ->
          exists z, map_get v (c_dist c) = Some (Fin z)).
Proof.
  intros Hinv. induction fuel as [|fuel IH]; intros v acc path Hr Hreach;
    [discriminate|].
  simpl in Hr.
  destruct (predecessor_of (c_pred c) v) as [u|] eqn:Hp.
  - destruct (bi_pred_dist _ _ _ Hinv v u Hp) as (du & wt & Hdu & Hdv & Hhop).
    pose proof (bi_pred_visited _ _ _ Hinv v u Hp) as Hu.
    pose proof (bi_visited_reached _ _ _ Hinv u Hu) as Hureach.
    destruct (IH u (v :: acc) path Hr Hureach) as (pre & Hpath & Hhd & Hlast & Hcost & _).
    exists (pre ++ [v]). split; [|split; [|split; [|split]]].
    + rewrite <- app_assoc. exact Hpath.
    + destruct pre; [discriminate | exact Hhd].
    + apply last_snoc.
    + intros z Hz. rewrite Hdv in Hz. injection Hz as <-.
      apply (path_cost_snoc graph pre du u v wt); auto.
      rewrite <- Hlast. apply last_default. destruct pre; discriminate.
    + intros _. eauto.
  - destruct Hreach as [->|[u Hu]]; [|congruence].
    destruct fuel; simpl in Hr; injection Hr as <-.
    all: exists [s]; split; [|split; [|split; [|split]]]; auto.
    all: try (intros z Hz; apply (bi_source_dist _ _ _ Hinv) in Hz;
              injection Hz as Hz0; subst z; constructor).
    all: intros [u Hu]; congruence.
Qed.

(* ================================================================== *)
(** ** Relaxation steps and the step before them *)
(* ================================================================== *)

Section RelaxOk.
Variable Q : AlgorithmStep -> AlgorithmStep -> Prop.

Lemma relax_ok_cons x l :
    no_relax_head l -> relax_ok Q l -> relax_ok Q (x :: l).
  Proof.
    intros Hh Hl. cbn [relax_ok]. split; auto.
    destruct l as [|c l']; auto. simpl in Hh. intros Hc. contradiction.
  Qed.

Lemma relax_ok_app l1 l2 :
    relax_ok Q l1 -> relax_ok Q l2 -> no_relax_head l2 -> relax_ok Q (l1 ++ l2).
  Proof.
    intros H1 H2 Hh. induction l1 as [|x l1 IH]; simpl; auto.
    cbn [relax_ok] in H1. destruct H1 as [Hx H1]. split; auto.
    destruct l1 as [|y l1']; simpl.
    - destruct l2 as [|c l2']; auto. simpl in Hh. intros Hc. contradiction.
    - exact Hx.
  Qed.

Lemma no_relax_head_app l1 l2 :
    no_relax_head l1 -> no_relax_head l2 -> no_relax_head (l1 ++ l2).
  Proof. destruct l1; simpl; auto. Qed.

End RelaxOk.


Ltac split3 := split; [|split].
Ltac split5 := split; [|split; [|split; [|split]]].
Ltac split6 := split; [|split; [|split; [|split; [|split]]]].

(* ================================================================== *)
(** ** Traces *)
(* ================================================================== *)

Section Trace.
Variable J : AlgorithmStep -> Prop.
Variable R : Core -> Core -> Prop.
Hypothesis R_trans : forall a b c, R a b -> R b c -> R a c.

Lemma last_core_app c0 l1 l2 :
    last_core c0 (l1 ++ l2) = last_core (last_core c0 l1) l2.
  Proof. unfold last_core. apply fold_left_app. Qed.

Lemma trace_ok_start c0 c1 steps :
    R c0 c1 -> trace_ok J R c1 steps -> trace_ok J R c0 steps.
  Proof.
    destruct steps as [|x rest]; simpl; auto.
    intros H (HJ & HR & Hrest). eauto.
  Qed.

Lemma trace_ok_app l1 : forall c0 c1 l2,
    trace_ok J R c0 l1 -> R (last_core c0 l1) c1 -> trace_ok J R c1 l2 ->
    trace_ok J R c0 (l1 ++ l2).
  Proof.
    induction l1 as [|x l1 IH]; intros c0 c1 l2 H1 HR H2; simpl in *.
    - eapply trace_ok_start; eauto.
    - destruct H1 as (HJ & HR1 & Hrest). repeat split; auto.
      eapply IH; eauto.
  Qed.

Lemma trace_ok_all c0 steps :
    trace_ok J R c0 steps -> Forall J steps.
  Proof.
    revert c0. induction steps as [|x rest IH]; intros c0 H; simpl in *; auto.
    destruct H as (HJ & HR & Hrest). constructor; eauto.
  Qed.

Lemma trace_ok_from c0 steps :
    trace_ok J R c0 steps ->
    forall j y, nth_error steps j = Some y -> R c0 (core_of_step y).
  Proof.
    revert c0. induction steps as [|x rest IH]; intros c0 H j y Hj.
    - destruct j; discriminate.
    - simpl in H. destruct H as (HJ & HR & Hrest).
      destruct j as [|j]; simpl in Hj.
      + injection Hj as <-. auto.
      + eapply R_trans; [exact HR|]. eapply IH; eauto.
  Qed.

Lemma trace_ok_pairs c0 steps :
    trace_ok J R c0 steps ->
    forall i j x y, i < j -> nth_error steps i = Some x ->
                    nth_error steps j = Some y ->
                    R (core_of_step x) (core_of_step y).
  Proof.
    revert c0. induction steps as [|z rest IH]; intros c0 H i j x y Hij Hi Hj.
    - destruct i; discriminate.
    - simpl in H. destruct H as (HJ & HR & Hrest).
      destruct j as [|j]; [lia|]. simpl in Hj.
      destruct i as [|i]; simpl in Hi.
      + injection Hi as <-. eapply trace_ok_from; eauto.
      + apply (IH _ Hrest i j x y); auto. lia.
  Qed.
End Trace.

(* ================================================================== *)
(** ** The single-source engine: what one turn does *)
(* ================================================================== *)

Lemma dcore_current s t cur st : dcore (dijkstra_current s t cur st) = dcore st.
Proof. unfold dijkstra_current. now destruct (_ && _). Qed.

Lemma dcore_visit s t cur st :
  dcore (dijkstra_visit s t cur st)
  = mkCore (ds_distances st) (ds_predecessors st)
           (set_add cur (ds_visited st)) (ds_pq st).
Proof. unfold dijkstra_visit. now destruct (_ && _). Qed.

Lemma dcore_reset st : dcore (dijkstra_reset st) = dcore st.
Proof. reflexivity. Qed.

Lemma dcore_with_pq st pq :
  dcore (ds_with_pq st pq)
  = mkCore (ds_distances st) (ds_predecessors st) (ds_visited st) pq.
Proof. reflexivity. Qed.

Lemma dcore_eta st :
  dcore st = mkCore (ds_distances st) (ds_predecessors st) (ds_visited st) (ds_pq st).
Proof. reflexivity. Qed.

Lemma dijkstra_edge_case t cur nb st :
  edge_case t cur nb st (dijkstra_edge t cur nb st).
Proof.
  unfold dijkstra_edge.
  destruct (set_has (nb_nodeId nb) (ds_visited st)) eqn:Hv.
  - now constructor.
  - set (newDist := num_add _ _).
    destruct (num_lt newDist (as_num (map_get (nb_nodeId nb) (ds_distances st))))
      eqn:Hlt.
    + destruct (enqueue_total (ds_pq st) (nb_nodeId nb) newDist) as (pq' & He & Hp).
      cbn [ds_pq ds_with_edgeStates]. rewrite He.
      eapply edge_relax with (newDist := newDist) (pq' := pq'); eauto.
    + eapply edge_skip with (newDist := newDist); eauto.
Qed.

Section DijkstraRule.
Variables (h : Store) (graph : Graph) (s : string) (t : option string).
Variable P : nat -> DState -> Run -> Prop.

Hypothesis P_fuel : forall st, P 0 st ([], OutOfFuel).

Hypothesis P_final : forall fuel st,
    ds_pq st = [] -> P (S fuel) st ([dijkstra_final s t st], Returned).

Hypothesis P_stale : forall fuel st x pq',
    nth_error (ds_pq st) 0 = Some x -> Permutation (ds_pq st) (x :: pq') ->
    dequeue (ds_pq st) = Some (Some (fst x), pq') ->
    set_has (fst x) (ds_visited st) = true ->
    P fuel (ds_with_pq st pq') (dijkstra_loop fuel h graph s t (ds_with_pq st pq')) ->
    P (S fuel) st (dijkstra_loop fuel h graph s t (ds_with_pq st pq')).

Hypothesis P_found : forall fuel st x pq' st1 steps e,
    nth_error (ds_pq st) 0 = Some x -> Permutation (ds_pq st) (x :: pq') ->
    dequeue (ds_pq st) = Some (Some (fst x), pq') ->
    set_has (fst x) (ds_visited st) = false ->
    truthy t = true -> t = Some (fst x) ->
    st1 = dijkstra_current s t (fst x) (ds_with_pq st pq') ->
    dijkstra_found graph s (fst x) st1 = (steps, e) ->
    P (S fuel) st (dijkstra_select (fst x) st1 :: steps, e).

Hypothesis P_visit : forall fuel st x pq' st1 st3 steps r rest e,
    nth_error (ds_pq st) 0 = Some x -> Permutation (ds_pq st) (x :: pq') ->
    dequeue (ds_pq st) = Some (Some (fst x), pq') ->
    set_has (fst x) (ds_visited st) = false ->
    truthy t && is_target (fst x) t = false ->
    st1 = dijkstra_current s t (fst x) (ds_with_pq st pq') ->
    st3 = dijkstra_visit s t (fst x) st1 ->
    dijkstra_neighbors t (fst x) (getNeighbors h graph (fst x)) st3 = (steps, r) ->
    match r with
    | Continue st4 =>
        dijkstra_loop fuel h graph s t (dijkstra_reset st4) = (rest, e)
        /\ P fuel (dijkstra_reset st4) (rest, e)
    | Stop e' => rest = [] /\ e = e'
    end ->
    P (S fuel) st
      (dijkstra_select (fst x) st1 :: dijkstra_mark (fst x) st3 :: steps ++ rest, e).

Theorem dijkstra_loop_rule :
    forall fuel st, P fuel st (dijkstra_loop fuel h graph s t st).
  Proof.
    induction fuel as [|fuel IH]; intros st; [apply P_fuel|].
    cbn [dijkstra_loop].
    destruct (ds_pq st) as [|x0 q0] eqn:Hq; cbn [isEmpty].
    - now apply P_final.
    - destruct (dequeue_nonempty (x0 :: q0)) as (x & pq' & Hd & Hperm & Hx);
        [discriminate|].
      rewrite Hd. rewrite <- Hq in *.
      change (ds_visited (ds_with_pq st pq')) with (ds_visited st).
      destruct (set_has (fst x) (ds_visited st)) eqn:Hv.
      + apply P_stale with (x := x); auto.
      + destruct (truthy t && is_target (fst x) t) eqn:Ht.
        * apply andb_true_iff in Ht. destruct Ht as [Ht1 Ht2].
          assert (t = Some (fst x)).
          { destruct t as [t0|]; [|discriminate]. simpl in Ht2.
            apply String.eqb_eq in Ht2. now subst. }
          destruct (dijkstra_found graph s (fst x) _) as [steps e] eqn:Hf.
          eapply P_found; eauto.
        * destruct (dijkstra_neighbors t (fst x) _ _) as [steps [st4|e']] eqn:Hn.
          -- destruct (dijkstra_loop fuel h graph s t (dijkstra_reset st4))
               as [rest e] eqn:Hl.
             eapply P_visit with (r := Continue st4); eauto.
             split; auto. rewrite <- Hl. apply IH.
          -- pose proof (P_visit fuel st x pq' _ _ steps (Stop e') [] e'
                           Hx Hperm Hd Hv Ht eq_refl eq_refl Hn
                           (conj eq_refl eq_refl)) as HP.
             rewrite app_nil_r in HP. exact HP.
  Qed.
End DijkstraRule.

Lemma dijkstra_neighbors_nil t cur st :
  dijkstra_neighbors t cur [] st = ([], Continue st).
Proof. reflexivity. Qed.

(** The neighbour loop, one edge at a time. *)
Lemma dijkstra_edge_continue t cur nb st :
  exists steps1 st1, dijkstra_edge t cur nb st = (steps1, Continue st1).
Proof.
  pose proof (dijkstra_edge_case t cur nb st) as Hc.
  inversion Hc; eauto.
Qed.

Lemma dijkstra_neighbors_cons t cur nb rest st steps1 st1 steps2 r :
  dijkstra_edge t cur nb st = (steps1, Continue st1) ->
  dijkstra_neighbors t cur rest st1 = (steps2, r) ->
  dijkstra_neighbors t cur (nb :: rest) st = (steps1 ++ steps2, r).
Proof. intros H1 H2. cbn [dijkstra_neighbors]. now rewrite H1, H2. Qed.

(* ================================================================== *)
(** ** The single-source engine: termination and the basic invariant *)
(* ================================================================== *)

Lemma basic_inv_no_nan graph s c :
  basic_inv graph s c -> forall v d, map_get v (c_dist c) = Some d -> d <> NaN.
Proof. intros H. apply (bi_no_nan _ _ _ H). Qed.

Lemma step_basic_plain graph s tgt step :
  basic_inv graph s (core_of_step step) -> step_type step <> PathFound ->
  step_basic graph s tgt step.
Proof. intros H Hne. split; auto. intros Ht. congruence. Qed.

Lemma dijkstra_found_spec graph s t st path :
  reconstructPath (S (List.length (set_add t (ds_visited st))))
                  (ds_predecessors st) t = Some path ->
  exists step,
    dijkstra_found graph s t st = ([step], Returned)
    /\ core_of_step step
       = mkCore (ds_distances st) (ds_predecessors st)
                (set_add t (ds_visited st)) (ds_pq st)
    /\ step_type step = PathFound
    /\ currentNode step = Some t
    /\ shortestPath step = Some path
    /\ totalDistance step = map_get t (ds_distances st).
Proof.
  intros Hr. unfold dijkstra_found. rewrite Hr.
  destruct (mark_path graph s path _ _) as [ns2 es2].
  eexists. split; [reflexivity|]. repeat split.
Qed.

Section DijkstraBasic.
Variables (h : Store) (graph : Graph) (s : string) (t : option string).

Let J := step_basic graph s t.

Lemma dijkstra_neighbors_basic cur : forall nbrs st,
    basic_inv graph s (dcore st) -> In cur (ds_visited st) ->
    (forall nb, In nb nbrs -> hop graph cur (nb_nodeId nb) (nb_weight nb)) ->
    exists steps st',
      dijkstra_neighbors t cur nbrs st = (steps, Continue st')
      /\ basic_inv graph s (dcore st')
      /\ ds_visited st' = ds_visited st
      /\ List.length (ds_pq st') <= List.length (ds_pq st) + List.length nbrs
      /\ trace_ok J mono (dcore st) steps
      /\ mono (last_core (dcore st) steps) (dcore st').
  Proof.
    induction nbrs as [|nb rest IH]; intros st Hinv Hcur Hhop.
    - exists [], st. simpl. split6; auto; try lia.
      apply mono_refl. eapply basic_inv_no_nan; eauto.
    - pose proof (dijkstra_edge_case t cur nb st) as Hc.
      assert (Hrefl : mono (dcore st) (dcore st))
        by (apply mono_refl; eapply basic_inv_no_nan; eauto).
      assert (Hrest : forall nb', In nb' rest ->
                 hop graph cur (nb_nodeId nb') (nb_weight nb'))
        by (intros; apply Hhop; now right).
      inversion Hc as [Hv Heq
                      | newDist pq' ex rx st2 Hv Hnd Hlt Henq Hperm Hex Hrx Hst2
                                Htex Htrx Hcex Hcrx Heq
                      | newDist ex sk st3 Hv Hnd Hlt Hex Hsk Hst3 Htex Htsk Hcex Heq];
        symmetry in Heq.
      + (* neighbour already visited *)
        destruct (IH st Hinv Hcur Hrest) as (steps & st' & Hn & Hi' & Hv' & Hl' & Ht' & Hm').
        exists steps, st'. split6; auto.
        * rewrite (dijkstra_neighbors_cons _ _ _ _ _ _ _ _ _ Heq Hn). reflexivity.
        * simpl. lia.
      + (* relaxation *)
        destruct (num_lt_fin _ _ Hlt) as [z Hz].
        rewrite Hz in Hnd. symmetry in Hnd.
        apply num_add_fin in Hnd. destruct Hnd as (du & Hdu & ->).
        assert (Hinv2 : basic_inv graph s (dcore st2)).
        { rewrite Hst2, Hz. destruct st as [d p v ns es q]. simpl in *.
          apply (basic_inv_relax graph s d p v q pq' cur (nb_nodeId nb)
                                 (nb_weight nb) du Hinv Hcur).
          - now apply set_has_false.
          - apply Hhop. now left.
          - exact Hdu.
          - intros e He. eapply Permutation_in in He; [|symmetry; exact Hperm].
            destruct He as [<-|He]; auto. }
        assert (Hm2 : mono (dcore st) (dcore st2)).
        { eapply mono_relax with (w := nb_nodeId nb) (newDist := newDist).
          - rewrite Hst2. reflexivity.
          - rewrite Hst2. reflexivity.
          - exact Hlt.
          - eapply basic_inv_no_nan; eauto. }
        assert (Hcur2 : In cur (ds_visited st2)).
        { change (ds_visited st2) with (c_visited (dcore st2)). now rewrite Hst2. }
        destruct (IH st2 Hinv2 Hcur2 Hrest)
          as (steps & st' & Hn & Hi' & Hv' & Hl' & Ht' & Hm').
        exists ([ex; rx] ++ steps), st'.
        assert (Hq2 : List.length (ds_pq st2) = S (List.length (ds_pq st))).
        { change (ds_pq st2) with (c_queue (dcore st2)). rewrite Hst2. simpl.
          symmetry. exact (Permutation_length Hperm). }
        assert (Hv2 : ds_visited st2 = ds_visited st).
        { change (ds_visited st2) with (c_visited (dcore st2)). now rewrite Hst2. }
        split6; auto; try congruence.
        * apply (dijkstra_neighbors_cons _ _ _ _ _ _ _ _ _ Heq Hn).
        * simpl. lia.
        * eapply trace_ok_app with (c1 := dcore st2).
          -- apply mono_trans.
          -- simpl. rewrite Hex, Hrx. split3; auto; [|split3; auto].
             ++ apply step_basic_plain; [now rewrite Hex | congruence].
             ++ apply step_basic_plain; [now rewrite Hrx | congruence].
          -- unfold last_core. simpl. rewrite Hrx.
             apply mono_refl. eapply basic_inv_no_nan; eauto.
          -- exact Ht'.
        * rewrite last_core_app. unfold last_core at 2. simpl. rewrite Hrx.
          exact Hm'.
      + (* no improvement *)
        assert (Hinv3 : basic_inv graph s (dcore st3)) by now rewrite Hst3.
        assert (Hcur3 : In cur (ds_visited st3)).
        { change (ds_visited st3) with (c_visited (dcore st3)). now rewrite Hst3. }
        destruct (IH st3 Hinv3 Hcur3 Hrest)
          as (steps & st' & Hn & Hi' & Hv' & Hl' & Ht' & Hm').
        exists ([ex; sk] ++ steps), st'.
        assert (Hq3 : ds_pq st3 = ds_pq st).
        { change (ds_pq st3) with (c_queue (dcore st3)). now rewrite Hst3. }
        assert (Hv3 : ds_visited st3 = ds_visited st).
        { change (ds_visited st3) with (c_visited (dcore st3)). now rewrite Hst3. }
        rewrite Hq3 in Hl'.
        split6; auto; try congruence.
        * apply (dijkstra_neighbors_cons _ _ _ _ _ _ _ _ _ Heq Hn).
        * simpl. lia.
        * eapply trace_ok_app with (c1 := dcore st3).
          -- apply mono_trans.
          -- simpl. rewrite Hex, Hsk. split3; auto; [|split3; auto].
             ++ apply step_basic_plain; [now rewrite Hex | congruence].
             ++ apply step_basic_plain; [now rewrite Hsk | congruence].
          -- unfold last_core. simpl. rewrite Hsk, Hst3. exact Hrefl.
          -- exact Ht'.
        * rewrite last_core_app. unfold last_core at 2. simpl.
          rewrite Hsk, <- Hst3. exact Hm'.
  Qed.

Lemma core_dijkstra_final st :
    ds_pq st = [] -> core_of_step (dijkstra_final s t st) = dcore st.
  Proof.
    intros Hq. unfold dijkstra_final, dcore. rewrite Hq.
    destruct t as [t0|]; [destruct (_ && _)|]; reflexivity.
  Qed.

Lemma type_dijkstra_final st :
    step_type (dijkstra_final s t st) = NoPath
    \/ step_type (dijkstra_final s t st) = Complete.
  Proof.
    unfold dijkstra_final.
    destruct t as [t0|]; [destruct (_ && _)|]; simpl; auto.
  Qed.

Theorem dijkstra_loop_basic : forall fuel st,
    basic_inv graph s (dcore st) ->
    measure h graph (dcore st) < fuel ->
    snd (dijkstra_loop fuel h graph s t st) = Returned
    /\ trace_ok J mono (dcore st) (fst (dijkstra_loop fuel h graph s t st)).
  Proof.
    apply (dijkstra_loop_rule h graph s t
             (fun fuel st run =>
                basic_inv graph s (dcore st) ->
                measure h graph (dcore st) < fuel ->
                snd run = Returned /\ trace_ok J mono (dcore st) (fst run))).
    - intros st _ H. lia.
    - intros fuel st Hq Hinv _. cbn [fst snd trace_ok]. split; auto. split3; auto.
      + apply step_basic_plain.
        * now rewrite core_dijkstra_final.
        * destruct (type_dijkstra_final st) as [E|E]; rewrite E; discriminate.
      + rewrite core_dijkstra_final by auto.
        apply mono_refl. eapply basic_inv_no_nan; eauto.
    - (* stale entry *)
      intros fuel st x pq' Hx Hperm Hd Hv IH Hinv Hm.
      destruct (basic_inv_pop graph s _ _ _ _ x pq' Hinv Hperm) as (Hinv' & _ & _).
      destruct IH as [IH1 IH2]; auto.
      { unfold measure in *. simpl in *.
        rewrite (Permutation_length Hperm) in Hm. simpl in Hm. lia. }
      split; auto. eapply trace_ok_start; [apply mono_trans| |exact IH2].
      apply mono_same; auto. eapply basic_inv_no_nan; eauto.
    - (* the target is selected *)
      intros fuel st x pq' st1 steps e Hx Hperm Hd Hv Ht1 Ht2 Hst1 Hf Hinv Hm.
      destruct (basic_inv_pop graph s _ _ _ _ x pq' Hinv Hperm)
        as (Hinv' & Hreach & Hfirst).
      assert (Hc1 : dcore st1 = mkCore (ds_distances st) (ds_predecessors st)
                                       (ds_visited st) pq').
      { subst st1. now rewrite dcore_current. }
      pose proof (basic_inv_visit graph s _ _ _ _ (fst x) Hinv' Hv Hreach Hfirst)
        as Hinv2.
      assert (Hd1 : ds_distances st1 = ds_distances st)
        by (change (ds_distances st1) with (c_dist (dcore st1)); now rewrite Hc1).
      assert (Hp1 : ds_predecessors st1 = ds_predecessors st)
        by (change (ds_predecessors st1) with (c_pred (dcore st1)); now rewrite Hc1).
      assert (Hv1 : ds_visited st1 = ds_visited st)
        by (change (ds_visited st1) with (c_visited (dcore st1)); now rewrite Hc1).
      assert (Hq1 : ds_pq st1 = pq')
        by (change (ds_pq st1) with (c_queue (dcore st1)); now rewrite Hc1).
      destruct (reconstructPath_total (ds_predecessors st)
                  (List.length (ds_visited st)) (ds_visited st) (fst x) [] []
                  (S (List.length (set_add (fst x) (ds_visited st)))))
        as [path Hpath]; auto.
      { intros l1' v' l2' u Heq Hp.
        apply (bi_pred_sorted _ _ _ Hinv2 l1' v' l2' u); auto.
        simpl. rewrite set_add_fresh by auto. exact Heq. }
      { rewrite set_add_fresh by auto. rewrite length_app. simpl. lia. }
      destruct (dijkstra_found_spec graph s (fst x) st1 path)
        as (step & Hfs & Hcore & Hty & Hcur & Hsp & Htd).
      { rewrite Hv1, Hp1. exact Hpath. }
      rewrite Hfs in Hf. injection Hf as <- <-.
      rewrite Hd1, Hp1, Hv1, Hq1 in Hcore.
      assert (Hno : forall v d, map_get v (ds_distances st) = Some d -> d <> NaN)
        by (eapply (basic_inv_no_nan _ _ _ Hinv)).
      cbn [fst snd trace_ok]. split; auto. split3; [| |split3; auto].
      + apply step_basic_plain; [|discriminate].
        change (core_of_step (dijkstra_select (fst x) st1)) with (dcore st1).
        now rewrite Hc1.
      + change (core_of_step (dijkstra_select (fst x) st1)) with (dcore st1).
        rewrite Hc1. apply mono_same; auto.
      + split.
        * now rewrite Hcore.
        * intros _. exists (fst x), path,
            (S (List.length (set_add (fst x) (ds_visited st)))).
          assert (Hps : predecessors step = ds_predecessors st)
            by (change (predecessors step) with (c_pred (core_of_step step));
                now rewrite Hcore).
          assert (Hds : distances step = ds_distances st)
            by (change (distances step) with (c_dist (core_of_step step));
                now rewrite Hcore).
          rewrite Hps, Hds, Htd, Hd1. split; [|split; [|split; [|split; [|split]]]]; auto.
      + change (core_of_step (dijkstra_select (fst x) st1)) with (dcore st1).
        rewrite Hc1, Hcore. eapply mono_visit; simpl; eauto.
    - (* a node is visited *)
      intros fuel st x pq' st1 st3 steps r rest e Hx Hperm Hd Hv Ht Hst1 Hst3 Hn Hr
             Hinv Hm.
      destruct (basic_inv_pop graph s _ _ _ _ x pq' Hinv Hperm)
        as (Hinv' & Hreach & Hfirst).
      assert (Hc1 : dcore st1 = mkCore (ds_distances st) (ds_predecessors st)
                                       (ds_visited st) pq').
      { subst st1. now rewrite dcore_current. }
      pose proof (basic_inv_visit graph s _ _ _ _ (fst x) Hinv' Hv Hreach Hfirst)
        as Hinv2.
      assert (Hc3 : dcore st3 = mkCore (ds_distances st) (ds_predecessors st)
                                       (set_add (fst x) (ds_visited st)) pq').
      { subst st3. rewrite dcore_visit.
        change (ds_distances st1) with (c_dist (dcore st1)).
        change (ds_predecessors st1) with (c_pred (dcore st1)).
        change (ds_visited st1) with (c_visited (dcore st1)).
        change (ds_pq st1) with (c_queue (dcore st1)).
        now rewrite Hc1. }
      assert (Hv3 : ds_visited st3 = set_add (fst x) (ds_visited st))
        by (change (ds_visited st3) with (c_visited (dcore st3)); now rewrite Hc3).
      assert (Hq3 : ds_pq st3 = pq')
        by (change (ds_pq st3) with (c_queue (dcore st3)); now rewrite Hc3).
      destruct (dijkstra_neighbors_basic (fst x) (getNeighbors h graph (fst x)) st3)
        as (steps' & st4 & Hn' & Hinv4 & Hv4 & Hl4 & Ht4 & Hm4).
      { now rewrite Hc3. }
      { rewrite Hv3. apply In_set_add. now left. }
      { intros nb. apply getNeighbors_hop. }
      rewrite Hn' in Hn. injection Hn as <- <-.
      destruct Hr as [Hloop IH].
      assert (Hno : forall v d, map_get v (ds_distances st) = Some d -> d <> NaN)
        by (eapply (basic_inv_no_nan _ _ _ Hinv)).
      destruct IH as [IH1 IH2].
      { now rewrite dcore_reset. }
      { rewrite dcore_reset. unfold measure in *. simpl in *.
        rewrite Hv4, Hv3. rewrite Hq3 in Hl4.
        pose proof (potential_visit h graph (fst x) (ds_visited st) Hv).
        rewrite (Permutation_length Hperm) in Hm. simpl in Hm. lia. }
      cbn [fst snd trace_ok] in IH1, IH2 |- *. split; auto. split3; [| |split3].
      + apply step_basic_plain; [|discriminate].
        change (core_of_step (dijkstra_select (fst x) st1)) with (dcore st1).
        now rewrite Hc1.
      + change (core_of_step (dijkstra_select (fst x) st1)) with (dcore st1).
        rewrite Hc1. apply mono_same; auto.
      + apply step_basic_plain; [|discriminate].
        change (core_of_step (dijkstra_mark (fst x) st3)) with (dcore st3).
        now rewrite Hc3.
      + change (core_of_step (dijkstra_select (fst x) st1)) with (dcore st1).
        change (core_of_step (dijkstra_mark (fst x) st3)) with (dcore st3).
        rewrite Hc1, Hc3. eapply mono_visit; simpl; eauto.
      + change (core_of_step (dijkstra_mark (fst x) st3)) with (dcore st3).
        eapply trace_ok_app with (c1 := dcore st4).
        * apply mono_trans.
        * exact Ht4.
        * exact Hm4.
        * rewrite dcore_reset in IH2. exact IH2.
  Qed.

Lemma dijkstra_init_basic pq :
    pq = [(s, Fin 0)] ->
    basic_inv graph s (dcore (dijkstra_init_state graph s t pq)).
  Proof.
    intros ->. unfold dijkstra_init_state, dcore. cbn [ds_distances ds_predecessors ds_visited ds_pq].
    assert (Hp : forall v, predecessor_of
                   (fold_left (fun m kv => map_set (fst kv) None m) (nodes graph) []) v
                 = None).
    { intros v. unfold predecessor_of.
      rewrite (map_get_init (fun _ => @None string)).
      now destruct (existsb _ _). }
    constructor; cbn [c_dist c_pred c_visited c_queue].
    - intros v u H. rewrite Hp in H. discriminate.
    - intros l1 v l2 u H. destruct l1; discriminate.
    - intros v u H. rewrite Hp in H. discriminate.
    - intros v [].
    - intros e [<-|[]]. now left.
    - intros v [].
    - intros _ e [<-|[]]. reflexivity.
    - apply Hp.
    - intros d.
      rewrite (map_get_init (fun k => if String.eqb k s then Fin 0 else PInf)).
      rewrite String.eqb_refl. destruct (existsb _ _); simpl; congruence.
    - intros v d.
      rewrite (map_get_init (fun k => if String.eqb k s then Fin 0 else PInf)).
      destruct (existsb _ _); simpl; [|discriminate].
      intros [= <-]. destruct (String.eqb v s); discriminate.
  Qed.

Theorem dijkstra_run_basic fuel :
    run_fuel h graph <= fuel ->
    exists steps,
      dijkstra_run fuel h graph s t = (steps, Returned)
      /\ trace_ok J mono
           (dcore (dijkstra_init_state graph s t [(s, Fin 0)])) steps
      /\ exists rest, steps = dijkstra_init_step s
                                (dijkstra_init_state graph s t [(s, Fin 0)]) :: rest.
  Proof.
    intros Hfuel. unfold dijkstra_run.
    change (enqueue [] s (Fin 0)) with (Some [(s, Fin 0)]). cbv iota.
    set (st := dijkstra_init_state graph s t [(s, Fin 0)]).
    pose proof (dijkstra_init_basic [(s, Fin 0)] eq_refl) as Hinv. fold st in Hinv.
    destruct (dijkstra_loop_basic fuel st Hinv) as [He Ht].
    { unfold measure, run_fuel in *. subst st. simpl.
      rewrite potential_nil. simpl in Hfuel. lia. }
    destruct (dijkstra_loop fuel h graph s t st) as [rest e]. simpl in He, Ht.
    subst e. exists (dijkstra_init_step s st :: rest). split3; eauto.
    cbn [trace_ok]. change (core_of_step (dijkstra_init_step s st)) with (dcore st).
    split3; auto.
    - apply step_basic_plain; [exact Hinv | discriminate].
    - apply mono_refl. eapply basic_inv_no_nan; eauto.
  Qed.
End DijkstraBasic.

Lemma dijkstra_loop_fuel_mono h graph s t : forall fuel st,
  snd (dijkstra_loop fuel h graph s t st) <> OutOfFuel ->
  forall fuel', fuel <= fuel' ->
  dijkstra_loop fuel' h graph s t st = dijkstra_loop fuel h graph s t st.
Proof.
  induction fuel as [|fuel IH]; intros st Hne fuel' Hle.
  - simpl in Hne. congruence.
  - destruct fuel' as [|fuel']; [lia|].
    assert (Hle' : fuel <= fuel') by lia.
    cbn [dijkstra_loop] in *.
    destruct (isEmpty (ds_pq st)); auto.
    destruct (dequeue (ds_pq st)) as [[[cur|] pq']|]; auto.
    destruct (set_has cur (ds_visited (ds_with_pq st pq'))).
    + now apply IH.
    + destruct (truthy t && is_target cur t); auto.
      destruct (dijkstra_neighbors t cur _ _) as [steps [st4|e]]; auto.
      destruct (dijkstra_loop fuel h graph s t (dijkstra_reset st4))
        as [rest e] eqn:Hl.
      rewrite (IH (dijkstra_reset st4)); [now rewrite Hl | now rewrite Hl | auto].
Qed.

(* ================================================================== *)
(** ** The single-source engine: pushes and the shape of a run *)
(* ================================================================== *)

Section DijkstraShape.
Variables (h : Store) (graph : Graph) (s : string) (t : option string).

Let plain (x : AlgorithmStep) : Prop :=
    is_terminal (step_type x) = false /\ step_type x <> SelectNode.

Lemma dijkstra_neighbors_shape cur : forall nbrs st,
    exists steps st',
      dijkstra_neighbors t cur nbrs st = (steps, Continue st')
      /\ ds_visited st' = ds_visited st
      /\ relax_ok dijkstra_push steps /\ no_relax_head steps
      /\ Forall plain steps.
  Proof.
    induction nbrs as [|nb rest IH]; intros st.
    - exists [], st. simpl. split5; auto.
    - pose proof (dijkstra_edge_case t cur nb st) as Hc.
      inversion Hc as [Hv Heq
                      | newDist pq' ex rx st2 Hv Hnd Hlt Henq Hperm Hex Hrx Hst2
                                Htex Htrx Hcex Hcrx Heq
                      | newDist ex sk st3 Hv Hnd Hlt Hex Hsk Hst3 Htex Htsk Hcex Heq];
        symmetry in Heq.
      + destruct (IH st) as (steps & st' & Hn & Hv' & Hr & Hh & Hp).
        exists steps, st'. split5; auto.
        rewrite (dijkstra_neighbors_cons _ _ _ _ _ _ _ _ _ Heq Hn). reflexivity.
      + destruct (IH st2) as (steps & st' & Hn & Hv' & Hr & Hh & Hp).
        exists ([ex; rx] ++ steps), st'.
        assert (Hv2 : ds_visited st2 = ds_visited st)
          by (change (ds_visited st2) with (c_visited (dcore st2)); now rewrite Hst2).
        assert (Hqex : queue ex = ds_pq st)
          by (change (queue ex) with (c_queue (core_of_step ex)); now rewrite Hex).
        assert (Hqrx : queue rx = pq')
          by (change (queue rx) with (c_queue (core_of_step rx));
              now rewrite Hrx, Hst2).
        split5; [ | congruence | | | ].
        * apply (dijkstra_neighbors_cons _ _ _ _ _ _ _ _ _ Heq Hn).
        * apply relax_ok_app; auto.
          cbn [relax_ok]. split; auto. intros _.
          eexists. split6; eauto; cbn [ce_to ce_newDistance ce_oldDistance];
            rewrite ?Hqex, ?Hqrx; auto.
          now symmetry.
        * simpl. congruence.
        * simpl. repeat constructor; auto; try (rewrite ?Htex, ?Htrx; auto; discriminate).
      + destruct (IH st3) as (steps & st' & Hn & Hv' & Hr & Hh & Hp).
        exists ([ex; sk] ++ steps), st'.
        assert (Hv3 : ds_visited st3 = ds_visited st)
          by (change (ds_visited st3) with (c_visited (dcore st3)); now rewrite Hst3).
        split5; [ | congruence | | | ].
        * apply (dijkstra_neighbors_cons _ _ _ _ _ _ _ _ _ Heq Hn).
        * apply relax_ok_app; auto.
          cbn [relax_ok]. split; auto. intros Hc'. congruence.
        * simpl. congruence.
        * simpl. repeat constructor; auto; try (rewrite ?Htex, ?Htsk; auto; discriminate).
  Qed.

Lemma final_shape st :
    target_unvisited t st ->
    (step_type (dijkstra_final s t st) = NoPath /\ truthy t = true)
    \/ (step_type (dijkstra_final s t st) = Complete /\ truthy t = false).
  Proof.
    intros Hu. unfold dijkstra_final. destruct t as [t0|] eqn:Et; simpl; auto.
    destruct (truthy_string t0) eqn:Htr; simpl; auto.
    assert (Hn : set_has t0 (ds_visited st) = false).
    { apply set_has_false. apply (Hu t0); auto. }
    rewrite Hn. simpl. auto.
  Qed.

Theorem dijkstra_loop_shape : forall fuel st,
    let run := dijkstra_loop fuel h graph s t st in
    relax_ok dijkstra_push (fst run) /\ no_relax_head (fst run)
    /\ (target_unvisited t st -> snd run = Returned -> run_shape t (fst run)).
  Proof.
    apply (dijkstra_loop_rule h graph s t
             (fun fuel st run =>
                relax_ok dijkstra_push (fst run) /\ no_relax_head (fst run)
                /\ (target_unvisited t st -> snd run = Returned ->
                    run_shape t (fst run)))).
    - intros st. simpl. split3; auto. discriminate.
    - intros fuel st Hq. cbn [fst snd relax_ok no_relax_head]. split3; auto.
      + unfold dijkstra_final.
        destruct t as [t0|]; [destruct (_ && _)|]; simpl; discriminate.
      + intros Hu _. exists [], (dijkstra_final s t st). split3; auto.
        destruct (final_shape st Hu) as [[E Ht]|[E Ht]]; rewrite E.
        * right. left. split3; auto.
        * right. right. auto.
    - intros fuel st x pq' Hx Hperm Hd Hv IH. exact IH.
    - (* the target is selected *)
      intros fuel st x pq' st1 steps e Hx Hperm Hd Hv Ht1 Ht2 Hst1 Hf.
      cbn [fst snd].
      unfold dijkstra_found in Hf.
      destruct (reconstructPath _ _ _) as [path|].
      + destruct (mark_path graph s path _ _) as [ns2 es2].
        injection Hf as <- <-. cbn [relax_ok no_relax_head].
        split3; [split; [discriminate|auto] | discriminate |].
        intros _ _. eexists [_], _. split3; [reflexivity| |].
        * repeat constructor.
        * left. split3; auto. eexists. split3; [now left|reflexivity|].
          simpl. congruence.
      + injection Hf as <- <-. cbn [relax_ok no_relax_head].
        split3; [auto | discriminate | discriminate].
    - (* a node is visited *)
      intros fuel st x pq' st1 st3 steps r rest e Hx Hperm Hd Hv Ht Hst1 Hst3 Hn Hr.
      destruct (dijkstra_neighbors_shape (fst x) (getNeighbors h graph (fst x)) st3)
        as (steps' & st4 & Hn' & Hv4 & Hr4 & Hh4 & Hp4).
      rewrite Hn' in Hn. injection Hn as <- <-.
      destruct Hr as [Hloop (IH1 & IH2 & IH3)]. cbn [fst snd] in *.
      split3.
      + apply relax_ok_cons; [discriminate|].
        apply relax_ok_cons; [now apply no_relax_head_app|].
        now apply relax_ok_app.
      + discriminate.
      + intros Hu He.
        assert (Hv3 : ds_visited st3 = set_add (fst x) (ds_visited st)).
        { subst st3. change (ds_visited (dijkstra_visit s t (fst x) st1))
            with (c_visited (dcore (dijkstra_visit s t (fst x) st1))).
          rewrite dcore_visit. cbn [c_visited]. subst st1.
          change (ds_visited (dijkstra_current s t (fst x) (ds_with_pq st pq')))
            with (c_visited (dcore (dijkstra_current s t (fst x) (ds_with_pq st pq')))).
          now rewrite dcore_current. }
        assert (Hu4 : target_unvisited t (dijkstra_reset st4)).
        { intros t0 Et Htr. change (ds_visited (dijkstra_reset st4)) with (ds_visited st4).
          rewrite Hv4, Hv3, In_set_add. intros [->|Hin].
          - rewrite Htr, Et in Ht. simpl in Ht. now rewrite String.eqb_refl in Ht.
          - now apply (Hu t0). }
        destruct (IH3 Hu4 He) as (body & last & Hb & Hbody & Hcases).
        exists (dijkstra_select (fst x) st1 :: dijkstra_mark (fst x) st3
                  :: steps' ++ body), last.
        split3.
        * rewrite Hb. simpl. now rewrite app_assoc.
        * constructor; [reflexivity|]. constructor; [reflexivity|].
          apply Forall_app. split; auto.
          eapply Forall_impl; [|exact Hp4]. now intros a [Ha _].
        * destruct Hcases as [(E & Htr & sel & Hin & Hty & Hcur)
                             |[(E & Htr & Hnone)|(E & Htr)]].
          -- left. split3; auto. exists sel. split3; auto.
             right. right. apply in_or_app. now right.
          -- right. left. split3; auto.
             intros sel [<-|[<-|Hin]] Hty.
             ++ simpl. intros Hc. rewrite Htr, <- Hc in Ht. simpl in Ht.
                now rewrite String.eqb_refl in Ht.
             ++ discriminate.
             ++ apply in_app_or in Hin. destruct Hin as [Hin|Hin]; [|now apply Hnone].
                rewrite Forall_forall in Hp4. destruct (Hp4 _ Hin). contradiction.
          -- right. right. auto.
  Qed.
End DijkstraShape.

Lemma dijkstra_run_shape h graph s t fuel :
  relax_ok dijkstra_push (fst (dijkstra_run fuel h graph s t))
  /\ (snd (dijkstra_run fuel h graph s t) = Returned ->
      run_shape t (fst (dijkstra_run fuel h graph s t))).
Proof.
  unfold dijkstra_run.
  destruct (enqueue [] s (Fin 0)) as [pq|]; [|simpl; split; [auto|discriminate]].
  pose proof (dijkstra_loop_shape h graph s t fuel
                (dijkstra_init_state graph s t pq)) as Hs.
  cbv zeta in Hs.
  destruct (dijkstra_loop fuel h graph s t (dijkstra_init_state graph s t pq))
    as [rest e].
  cbn [fst snd] in *. destruct Hs as (H1 & H2 & H3). split.
  - apply relax_ok_cons; auto.
  - intros He. destruct H3 as (body & last & Hb & Hbody & Hc); auto.
    { intros t0 _ _ []. }
    exists (dijkstra_init_step s (dijkstra_init_state graph s t pq) :: body), last.
    split3.
    + now rewrite Hb.
    + constructor; auto.
    + destruct Hc as [(E & Htr & sel & Hin & Hty & Hcur)|[(E & Htr & Hnone)|Hc]].
      * left. split3; auto. exists sel. split3; auto. now right.
      * right. left. split3; auto. intros sel [<-|Hin] Hty; [discriminate|auto].
      * right. right. exact Hc.
Qed.


(* ================================================================== *)
(** ** The heuristic engine: what one turn does *)
(* ================================================================== *)

Lemma acore_current s t cur st : acore (astar_current s t cur st) = acore st.
Proof. unfold astar_current. now destruct (_ && _). Qed.

Lemma inOpen_current s t cur st :
  as_inOpenSet (astar_current s t cur st) = as_inOpenSet st.
Proof. unfold astar_current. now destruct (_ && _). Qed.

Lemma fScore_current s t cur st :
  as_fScore (astar_current s t cur st) = as_fScore st.
Proof. unfold astar_current. now destruct (_ && _). Qed.

Lemma acore_visit s cur st :
  acore (astar_visit s cur st)
  = mkCore (as_gScore st) (as_predecessors st)
           (set_add cur (as_visited st)) (as_openSet st).
Proof. unfold astar_visit. now destruct (negb _). Qed.

Lemma inOpen_visit s cur st :
  as_inOpenSet (astar_visit s cur st) = as_inOpenSet st.
Proof. unfold astar_visit. now destruct (negb _). Qed.

Lemma acore_reset st : acore (astar_reset st) = acore st.
Proof. reflexivity. Qed.

Lemma astar_edge_case graph targetId targetNode heuristic cur nb st :
  aedge_case graph targetId targetNode heuristic cur nb st
             (astar_edge graph targetId targetNode heuristic cur nb st).
Proof.
  unfold astar_edge.
  destruct (set_has (nb_nodeId nb) (as_visited st)) eqn:Hv.
  - now constructor.
  - destruct (map_get (nb_nodeId nb) (as_gScore st)) as [neighborG|] eqn:Hng;
      [|apply aedge_undefined; auto].
    destruct (map_get cur (as_gScore st)) as [curG|] eqn:Hcg;
      [|apply aedge_undefined; auto].
    set (tentativeG := num_add (as_num (Some curG)) (Fin (nb_weight nb))).
    destruct (num_lt tentativeG (as_num (Some neighborG))) eqn:Hlt.
    + destruct (heuristic (map_get (nb_nodeId nb) (nodes graph)) targetNode)
        as [hv|e] eqn:Hh.
      * cbn [as_inOpenSet as_openSet as_with_edgeStates].
        destruct (set_has (nb_nodeId nb) (as_inOpenSet st)) eqn:Ho; cbn [negb].
        -- eapply aedge_relax with (tentativeG := tentativeG) (hv := hv)
                                   (pq' := as_openSet st);
             rewrite ?Hng, ?Hcg; try reflexivity; try eassumption.
           right. repeat split; auto.
        -- destruct (enqueue_total (as_openSet st) (nb_nodeId nb)
                                   (num_add tentativeG hv)) as (pq' & He & Hp).
           rewrite He.
           eapply aedge_relax with (tentativeG := tentativeG) (hv := hv)
                                   (pq' := pq');
             rewrite ?Hng, ?Hcg; try reflexivity; try eassumption.
           left. repeat split; auto.
      * eapply aedge_throw with (tentativeG := tentativeG);
          rewrite ?Hng, ?Hcg; try reflexivity; try eassumption.
    + eapply aedge_skip with (tentativeG := tentativeG);
        rewrite ?Hng, ?Hcg; try reflexivity; try eassumption.
Qed.

Section AStarRule.
Variables (h : Store) (graph : Graph) (s tid : string) (tnode : Node).
Variable heuristic : Heuristic.
Variable P : nat -> AState -> Run -> Prop.

Let loop fuel st := astar_loop fuel h graph s tid tnode heuristic st.
Let popped st (x : PQEntry) pq' :=
    as_with_open st pq' (set_delete (fst x) (as_inOpenSet st)).

Hypothesis P_fuel : forall st, P 0 st ([], OutOfFuel).

Hypothesis P_final : forall fuel st,
    as_openSet st = [] -> P (S fuel) st ([astar_final s tid st], Returned).

Hypothesis P_stale : forall fuel st x pq',
    nth_error (as_openSet st) 0 = Some x ->
    Permutation (as_openSet st) (x :: pq') ->
    set_has (fst x) (as_visited st) = true ->
    P fuel (popped st x pq') (loop fuel (popped st x pq')) ->
    P (S fuel) st (loop fuel (popped st x pq')).

Hypothesis P_hthrow : forall fuel st x pq' e,
    nth_error (as_openSet st) 0 = Some x ->
    Permutation (as_openSet st) (x :: pq') ->
    set_has (fst x) (as_visited st) = false ->
    heuristic (map_get (fst x) (nodes graph)) tnode = HThrow e ->
    P (S fuel) st ([], Threw e).

Hypothesis P_undefined : forall fuel st x pq',
    nth_error (as_openSet st) 0 = Some x ->
    Permutation (as_openSet st) (x :: pq') ->
    set_has (fst x) (as_visited st) = false ->
    map_get (fst x) (as_fScore st) = None
    \/ map_get (fst x) (as_gScore st) = None ->
    P (S fuel) st ([], Threw TypeError).

Hypothesis P_found : forall fuel st x pq' st1 f g hv steps e,
    nth_error (as_openSet st) 0 = Some x ->
    Permutation (as_openSet st) (x :: pq') ->
    set_has (fst x) (as_visited st) = false ->
    fst x = tid ->
    st1 = astar_current s tid (fst x) (popped st x pq') ->
    astar_found graph s tid st1 = (steps, e) ->
    P (S fuel) st (astar_select (fst x) f g hv st1 :: steps, e).

Hypothesis P_visit : forall fuel st x pq' st1 st3 f g hv steps r rest e,
    nth_error (as_openSet st) 0 = Some x ->
    Permutation (as_openSet st) (x :: pq') ->
    set_has (fst x) (as_visited st) = false ->
    fst x <> tid ->
    map_get (fst x) (as_gScore st) = Some g ->
    st1 = astar_current s tid (fst x) (popped st x pq') ->
    st3 = astar_visit s (fst x) st1 ->
    astar_neighbors graph tid tnode heuristic (fst x)
                    (getNeighbors h graph (fst x)) st3 = (steps, r) ->
    match r with
    | Continue st4 =>
        loop fuel (astar_reset st4) = (rest, e)
        /\ P fuel (astar_reset st4) (rest, e)
    | Stop e' => rest = [] /\ e = e'
    end ->
    P (S fuel) st (astar_select (fst x) f g hv st1 :: steps ++ rest, e).

Theorem astar_loop_rule : forall fuel st, P fuel st (loop fuel st).
  Proof.
    subst loop popped. cbv beta in *.
    induction fuel as [|fuel IH]; intros st; [apply P_fuel|].
    cbn [astar_loop].
    destruct (as_openSet st) as [|x0 q0] eqn:Hq; cbn [isEmpty].
    - now apply P_final.
    - destruct (dequeue_nonempty (x0 :: q0)) as (x & pq' & Hd & Hperm & Hx);
        [discriminate|].
      rewrite Hd. rewrite <- Hq in *.
      change (as_visited (as_with_open st pq' (set_delete (fst x) (as_inOpenSet st))))
        with (as_visited st).
      destruct (set_has (fst x) (as_visited st)) eqn:Hv.
      + apply P_stale with (x := x); auto.
      + destruct (heuristic (map_get (fst x) (nodes graph)) tnode) as [hv|e] eqn:Hh;
          [|eapply P_hthrow; eauto].
        rewrite fScore_current.
        change (as_gScore (astar_current s tid (fst x)
                  (as_with_open st pq' (set_delete (fst x) (as_inOpenSet st)))))
          with (c_dist (acore (astar_current s tid (fst x)
                  (as_with_open st pq' (set_delete (fst x) (as_inOpenSet st)))))).
        rewrite acore_current. cbn [c_dist acore as_gScore as_fScore as_with_open].
        destruct (map_get (fst x) (as_fScore st)) as [f|] eqn:Hf;
          [|eapply P_undefined; eauto].
        destruct (map_get (fst x) (as_gScore st)) as [g|] eqn:Hg;
          [|eapply P_undefined; eauto].
        destruct (String.eqb_spec (fst x) tid) as [Heq|Hne].
        * destruct (astar_found graph s tid _) as [steps e] eqn:Hfound.
          eapply P_found; eauto.
        * destruct (astar_neighbors graph tid tnode heuristic (fst x) _ _)
            as [steps [st4|e']] eqn:Hn.
          -- destruct (astar_loop fuel h graph s tid tnode heuristic (astar_reset st4))
               as [rest e] eqn:Hl.
             eapply P_visit with (r := Continue st4); eauto.
             split; auto. rewrite <- Hl. apply IH.
          -- pose proof (P_visit fuel st x pq' _ _ f g hv steps (Stop e') [] e'
                           Hx Hperm Hv Hne Hg eq_refl eq_refl Hn
                           (conj eq_refl eq_refl)) as HP.
             rewrite app_nil_r in HP. exact HP.
  Qed.
End AStarRule.

Lemma astar_neighbors_cons graph tid tnode heuristic cur nb rest st steps1 st1 steps2 r :
  astar_edge graph tid tnode heuristic cur nb st = (steps1, Continue st1) ->
  astar_neighbors graph tid tnode heuristic cur rest st1 = (steps2, r) ->
  astar_neighbors graph tid tnode heuristic cur (nb :: rest) st = (steps1 ++ steps2, r).
Proof. intros H1 H2. cbn [astar_neighbors]. now rewrite H1, H2. Qed.

Lemma astar_neighbors_stop graph tid tnode heuristic cur nb rest st steps1 e :
  astar_edge graph tid tnode heuristic cur nb st = (steps1, Stop e) ->
  astar_neighbors graph tid tnode heuristic cur (nb :: rest) st = (steps1, Stop e).
Proof. intros H1. cbn [astar_neighbors]. now rewrite H1. Qed.

(* ================================================================== *)
(** ** The heuristic engine: termination, the basic invariant, pushes *)
(* ================================================================== *)

Lemma reconstructPath_unvisited graph s c t :
  basic_inv graph s c ->
  exists path,
    reconstructPath (2 + List.length (c_visited c)) (c_pred c) t = Some path.
Proof.
  intros Hinv. unfold reconstructPath.
  change (reconstructPath_loop (2 + List.length (c_visited c)) (c_pred c) (Some t) [])
    with (reconstructPath_loop (S (List.length (c_visited c))) (c_pred c)
            (predecessor_of (c_pred c) t) [t]).
  destruct (predecessor_of (c_pred c) t) as [u|] eqn:Hp; [|simpl; eauto].
  pose proof (bi_pred_visited _ _ _ Hinv t u Hp) as Hu.
  apply in_split in Hu. destruct Hu as (l1 & l2 & Hv).
  apply (reconstructPath_total (c_pred c) (List.length l1) l1 u l2).
  - lia.
  - intros l1' v' l2' u' Heq Hp'. rewrite <- Hv in Heq.
    eapply (bi_pred_sorted _ _ _ Hinv); eauto.
  - rewrite Hv, length_app. simpl. lia.
Qed.

Lemma astar_found_spec graph s t st path :
  reconstructPath (2 + List.length (as_visited st)) (as_predecessors st) t
  = Some path ->
  exists step,
    astar_found graph s t st = ([step], Returned)
    /\ core_of_step step = acore st
    /\ step_type step = PathFound
    /\ currentNode step = Some t
    /\ shortestPath step = Some path
    /\ totalDistance step = map_get t (as_gScore st).
Proof.
  intros Hr. unfold astar_found. rewrite Hr.
  destruct (mark_path graph s path _ _) as [ns2 es2].
  eexists. split; [reflexivity|]. repeat split.
Qed.

Lemma open_inv_pop st x pq' :
  open_inv st -> Permutation (as_openSet st) (x :: pq') ->
  open_inv (as_with_open st pq' (set_delete (fst x) (as_inOpenSet st))).
Proof.
  intros [Hnd Hiff] Hperm. unfold open_inv. cbn [as_openSet as_inOpenSet as_with_open].
  assert (Hp : Permutation (map fst (as_openSet st)) (fst x :: map fst pq')).
  { change (fst x :: map fst pq') with (map fst (x :: pq')).
    now apply Permutation_map. }
  assert (Hnd' : NoDup (fst x :: map fst pq')).
  { eapply Permutation_NoDup; eauto. }
  inversion Hnd' as [|? ? Hnotin Hnd2]; subst. split; auto.
  intros id. rewrite In_set_delete, Hiff. split.
  - intros [Hin Hne]. eapply Permutation_in in Hin; [|exact Hp].
    destruct Hin as [Heq|Hin]; [congruence | auto].
  - intros Hin. split.
    + eapply Permutation_in; [symmetry; exact Hp|]. now right.
    + intros ->. contradiction.
Qed.

Section AStarBasic.
Variables (h : Store) (graph : Graph) (s tid : string) (tnode : Node).
Variable heuristic : Heuristic.

Let J := step_basic graph s (Some tid).
Let Q := astar_push graph tnode heuristic.

Lemma astar_neighbors_basic cur : forall nbrs st,
    basic_inv graph s (acore st) -> open_inv st -> In cur (as_visited st) ->
    (forall nb, In nb nbrs -> hop graph cur (nb_nodeId nb) (nb_weight nb)) ->
    exists steps r,
      astar_neighbors graph tid tnode heuristic cur nbrs st = (steps, r)
      /\ trace_ok J mono (acore st) steps
      /\ relax_ok Q steps /\ no_relax_head steps
      /\ match r with
         | Continue st' =>
             basic_inv graph s (acore st') /\ open_inv st'
             /\ as_visited st' = as_visited st
             /\ List.length (as_openSet st')
                <= List.length (as_openSet st) + List.length nbrs
             /\ mono (last_core (acore st) steps) (acore st')
         | Stop e => e <> OutOfFuel
         end.
  Proof.
    induction nbrs as [|nb rest IH]; intros st Hinv Ho Hcur Hhop.
    - exists [], (Continue st). simpl. split5; auto.
      split5; auto; try lia.
      apply mono_refl. eapply basic_inv_no_nan; eauto.
    - pose proof (astar_edge_case graph tid tnode heuristic cur nb st) as Hc.
      assert (Hrefl : mono (acore st) (acore st))
        by (apply mono_refl; eapply basic_inv_no_nan; eauto).
      assert (Hrest : forall nb', In nb' rest ->
                 hop graph cur (nb_nodeId nb') (nb_weight nb'))
        by (intros; apply Hhop; now right).
      inversion Hc as [Hv Heq
                      | Hv Hundef Heq
                      | tG ex e Hv HtG Hlt Hh Hex Htex Heq
                      | tG hv pq' ex rx st2 Hv HtG Hlt Hh Hpush Hex Hrx Hst2
                           Htex Htrx Hcex Hcrx Heq
                      | tG ex sk st3 Hv HtG Hlt Hex Hsk Hst3 Hio3 Htex Htsk Heq];
        symmetry in Heq.
      + (* neighbour already visited *)
        destruct (IH st Hinv Ho Hcur Hrest) as (steps & r & Hn & Ht' & Hr' & Hh' & Hres).
        exists steps, r. split5; auto.
        * rewrite (astar_neighbors_cons _ _ _ _ _ _ _ _ _ _ _ _ Heq Hn). reflexivity.
        * destruct r as [st'|e]; auto.
          destruct Hres as (? & ? & ? & ? & ?). split5; auto. simpl. lia.
      + (* a score is undefined *)
        exists [], (Stop (Threw TypeError)). split5; simpl; auto.
        * now apply astar_neighbors_stop.
        * discriminate.
      + (* the heuristic throws *)
        exists [ex], (Stop (Threw e)). split5; simpl; auto.
        * now apply astar_neighbors_stop.
        * rewrite Hex. split3; auto. apply step_basic_plain; [now rewrite Hex | congruence].
        * congruence.
        * discriminate.
      + (* relaxation *)
        destruct (num_lt_fin _ _ Hlt) as [z Hz].
        rewrite Hz in HtG. symmetry in HtG.
        apply num_add_fin in HtG. destruct HtG as (du & Hdu & ->).
        assert (Hq2 : as_openSet st2 = pq')
          by (change (as_openSet st2) with (c_queue (acore st2)); now rewrite Hst2).
        assert (Hv2 : as_visited st2 = as_visited st)
          by (change (as_visited st2) with (c_visited (acore st2)); now rewrite Hst2).
        assert (Hin : forall e, In e pq' -> In e (as_openSet st) \/ fst e = nb_nodeId nb).
        { intros e He. destruct Hpush as [(_ & _ & Hperm & _)|(_ & -> & _)]; auto.
          eapply Permutation_in in He; [|symmetry; exact Hperm].
          destruct He as [<-|He]; auto. }
        assert (Hinv2 : basic_inv graph s (acore st2)).
        { rewrite Hst2, Hz. destruct st as [g f p v ns es q io]. simpl in *.
          apply (basic_inv_relax graph s g p v q pq' cur (nb_nodeId nb)
                                 (nb_weight nb) du Hinv Hcur);
            [now apply set_has_false | apply Hhop; now left | exact Hdu | exact Hin]. }
        assert (Hm2 : mono (acore st) (acore st2)).
        { eapply mono_relax with (w := nb_nodeId nb) (newDist := tG).
          - rewrite Hst2. reflexivity.
          - rewrite Hst2. reflexivity.
          - exact Hlt.
          - eapply basic_inv_no_nan; eauto. }
        assert (Hqex : queue ex = as_openSet st)
          by (change (queue ex) with (c_queue (core_of_step ex)); now rewrite Hex).
        assert (Hqrx : queue rx = pq')
          by (change (queue rx) with (c_queue (core_of_step rx));
              now rewrite Hrx, Hst2).
        assert (Hpush' :
          (~ In (nb_nodeId nb) (map fst (as_openSet st))
           /\ Permutation pq' ((nb_nodeId nb, num_add tG hv) :: as_openSet st)
           /\ as_inOpenSet st2 = set_add (nb_nodeId nb) (as_inOpenSet st))
          \/ (In (nb_nodeId nb) (map fst (as_openSet st))
              /\ pq' = as_openSet st /\ as_inOpenSet st2 = as_inOpenSet st)).
        { destruct Ho as [Hnd Hiff].
          destruct Hpush as [(Hno & _ & Hperm & Hio)|(Hyes & Hpq & Hio)].
          - left. split3; auto; [|now symmetry].
            rewrite <- Hiff. now apply set_has_false.
          - right. split3; auto. rewrite <- Hiff. now apply set_has_In. }
        assert (Ho2 : open_inv st2).
        { destruct Ho as [Hnd Hiff]. unfold open_inv. rewrite Hq2.
          destruct Hpush' as [(Hno & Hperm & Hio)|(Hyes & -> & Hio)]; rewrite Hio.
          - assert (Hp : Permutation (map fst pq')
                                     (nb_nodeId nb :: map fst (as_openSet st))).
            { apply (Permutation_map fst) in Hperm. exact Hperm. }
            split.
            + eapply Permutation_NoDup; [symmetry; exact Hp|].
              constructor; auto.
            + intros id. rewrite In_set_add, Hiff. split.
              * intros H. eapply Permutation_in; [symmetry; exact Hp|].
                destruct H as [->|H]; [now left | now right].
              * intros H. eapply Permutation_in in H; [|exact Hp].
                destruct H as [<-|H]; auto.
          - split; auto. }
        assert (Hcur2 : In cur (as_visited st2)) by now rewrite Hv2.
        destruct (IH st2 Hinv2 Ho2 Hcur2 Hrest)
          as (steps & r & Hn & Ht' & Hr' & Hh' & Hres).
        exists ([ex; rx] ++ steps), r. split5.
        * apply (astar_neighbors_cons _ _ _ _ _ _ _ _ _ _ _ _ Heq Hn).
        * eapply trace_ok_app with (c1 := acore st2).
          -- apply mono_trans.
          -- simpl. rewrite Hex, Hrx. split3; auto; [|split3; auto].
             ++ apply step_basic_plain; [now rewrite Hex | congruence].
             ++ apply step_basic_plain; [now rewrite Hrx | congruence].
          -- unfold last_core. simpl. rewrite Hrx.
             apply mono_refl. eapply basic_inv_no_nan; eauto.
          -- exact Ht'.
        * apply relax_ok_app; auto.
          cbn [relax_ok]. split; auto. intros _.
          exists (mkCurrentEdge (nb_edgeId nb) cur (nb_nodeId nb) (nb_weight nb)
                    (map_get (nb_nodeId nb) (as_gScore st)) tG true), hv.
          cbn [ce_to ce_newDistance ce_oldDistance].
          rewrite Hqex, Hqrx. split6; auto.
          destruct Hpush' as [(Hno & Hperm & _)|(Hyes & -> & _)]; auto.
        * simpl. congruence.
        * destruct r as [st'|e]; auto.
          destruct Hres as (Hi' & Ho' & Hv' & Hl' & Hm').
          assert (Hlen : List.length pq' <= S (List.length (as_openSet st))).
          { destruct Hpush' as [(_ & Hperm & _)|(_ & -> & _)]; [|lia].
            apply Permutation_length in Hperm. simpl in Hperm. lia. }
          rewrite Hq2 in Hl'.
          split5; auto; try congruence.
          -- simpl. lia.
          -- rewrite last_core_app. unfold last_core at 2. simpl. rewrite Hrx.
             exact Hm'.
      + (* no improvement *)
        assert (Hinv3 : basic_inv graph s (acore st3)) by now rewrite Hst3.
        assert (Hq3 : as_openSet st3 = as_openSet st)
          by (change (as_openSet st3) with (c_queue (acore st3)); now rewrite Hst3).
        assert (Hv3 : as_visited st3 = as_visited st)
          by (change (as_visited st3) with (c_visited (acore st3)); now rewrite Hst3).
        assert (Ho3 : open_inv st3).
        { unfold open_inv. rewrite Hq3, Hio3. exact Ho. }
        assert (Hcur3 : In cur (as_visited st3)) by now rewrite Hv3.
        destruct (IH st3 Hinv3 Ho3 Hcur3 Hrest)
          as (steps & r & Hn & Ht' & Hr' & Hh' & Hres).
        exists ([ex; sk] ++ steps), r. split5.
        * apply (astar_neighbors_cons _ _ _ _ _ _ _ _ _ _ _ _ Heq Hn).
        * eapply trace_ok_app with (c1 := acore st3).
          -- apply mono_trans.
          -- simpl. rewrite Hex, Hsk. split3; auto; [|split3; auto].
             ++ apply step_basic_plain; [now rewrite Hex | congruence].
             ++ apply step_basic_plain; [now rewrite Hsk | congruence].
          -- unfold last_core. simpl. rewrite Hsk, Hst3. exact Hrefl.
          -- exact Ht'.
        * apply relax_ok_app; auto.
          cbn [relax_ok]. split; auto. intros Hc'. congruence.
        * simpl. congruence.
        * destruct r as [st'|e]; auto.
          destruct Hres as (Hi' & Ho' & Hv' & Hl' & Hm').
          rewrite Hq3 in Hl'.
          split5; auto; try congruence.
          -- simpl. lia.
          -- rewrite last_core_app. unfold last_core at 2. simpl.
             rewrite Hsk, <- Hst3. exact Hm'.
  Qed.

Lemma core_astar_final st :
    as_openSet st = [] -> core_of_step (astar_final s tid st) = acore st.
  Proof. intros Hq. unfold astar_final, acore, astep, core_of_step. simpl. now rewrite Hq. Qed.

Lemma open_inv_same st st' :
    as_openSet st' = as_openSet st -> as_inOpenSet st' = as_inOpenSet st ->
    open_inv st -> open_inv st'.
  Proof. unfold open_inv. now intros -> ->. Qed.

Theorem astar_loop_basic : forall fuel st,
    basic_inv graph s (acore st) -> open_inv st ->
    measure h graph (acore st) < fuel ->
    let run := astar_loop fuel h graph s tid tnode heuristic st in
    snd run <> OutOfFuel
    /\ trace_ok J mono (acore st) (fst run)
    /\ relax_ok Q (fst run) /\ no_relax_head (fst run).
  Proof.
    apply (astar_loop_rule h graph s tid tnode heuristic
             (fun fuel st run =>
                basic_inv graph s (acore st) -> open_inv st ->
                measure h graph (acore st) < fuel ->
                snd run <> OutOfFuel
                /\ trace_ok J mono (acore st) (fst run)
                /\ relax_ok Q (fst run) /\ no_relax_head (fst run))).
    - intros st _ _ H. lia.
    - intros fuel st Hq Hinv _ _. cbn [fst snd trace_ok relax_ok no_relax_head].
      split; [discriminate|]. split3; [|auto|discriminate].
      rewrite core_astar_final by auto. split3; auto.
      + apply step_basic_plain; [now rewrite core_astar_final | discriminate].
      + apply mono_refl. eapply basic_inv_no_nan; eauto.
    - (* stale entry *)
      intros fuel st x pq' Hx Hperm Hv IH Hinv Ho Hm.
      destruct (basic_inv_pop graph s _ _ _ _ x pq' Hinv Hperm) as (Hinv' & _ & _).
      destruct IH as (IH1 & IH2 & IH3 & IH4); auto.
      { now apply open_inv_pop. }
      { unfold measure in *. simpl in *.
        rewrite (Permutation_length Hperm) in Hm. simpl in Hm. lia. }
      split; auto. split3; auto.
      eapply trace_ok_start; [apply mono_trans| |exact IH2].
      apply mono_same; auto. eapply basic_inv_no_nan; eauto.
    - intros fuel st x pq' e _ _ _ _ _ _ _. simpl. split; [discriminate|auto].
    - intros fuel st x pq' _ _ _ _ _ _ _. simpl. split; [discriminate|auto].
    - (* the target is selected *)
      intros fuel st x pq' st1 f g hv steps e Hx Hperm Hv Heq Hst1 Hf Hinv Ho Hm.
      destruct (basic_inv_pop graph s _ _ _ _ x pq' Hinv Hperm)
        as (Hinv' & Hreach & Hfirst).
      assert (Hc1 : acore st1 = mkCore (as_gScore st) (as_predecessors st)
                                       (as_visited st) pq').
      { subst st1. now rewrite acore_current. }
      assert (Hinv1 : basic_inv graph s (acore st1)) by now rewrite Hc1.
      destruct (reconstructPath_unvisited graph s (acore st1) tid Hinv1)
        as [path Hpath].
      destruct (astar_found_spec graph s tid st1 path Hpath)
        as (step & Hfs & Hcore & Hty & Hcur & Hsp & Htd).
      rewrite Hfs in Hf. injection Hf as <- <-.
      assert (Hno : forall v d, map_get v (as_gScore st) = Some d -> d <> NaN)
        by (eapply (basic_inv_no_nan _ _ _ Hinv)).
      cbn [fst snd trace_ok relax_ok no_relax_head].
      change (core_of_step (astar_select (fst x) f g hv st1)) with (acore st1).
      split; [discriminate|]. split3; [|split; [congruence|auto]|discriminate].
      split3; [| |split3; auto].
      + apply step_basic_plain; [exact Hinv1 | discriminate].
      + rewrite Hc1. apply mono_same; auto.
      + split.
        * now rewrite Hcore.
        * intros _. exists tid, path, (2 + List.length (as_visited st1)).
          assert (Hps : predecessors step = as_predecessors st1)
            by (change (predecessors step) with (c_pred (core_of_step step));
                now rewrite Hcore).
          assert (Hds : distances step = as_gScore st1)
            by (change (distances step) with (c_dist (core_of_step step));
                now rewrite Hcore).
          rewrite Hps, Hds, Htd. split6; auto.
          rewrite <- Heq.
          change (as_predecessors st1) with (c_pred (acore st1)). rewrite Hc1.
          exact Hreach.
      + rewrite Hcore. apply mono_refl. eapply basic_inv_no_nan; eauto.
    - (* a node is visited *)
      intros fuel st x pq' st1 st3 f g hv steps r rest e Hx Hperm Hv Hne Hg Hst1 Hst3
             Hn Hr Hinv Ho Hm.
      destruct (basic_inv_pop graph s _ _ _ _ x pq' Hinv Hperm)
        as (Hinv' & Hreach & Hfirst).
      assert (Hc1 : acore st1 = mkCore (as_gScore st) (as_predecessors st)
                                       (as_visited st) pq').
      { subst st1. now rewrite acore_current. }
      pose proof (basic_inv_visit graph s _ _ _ _ (fst x) Hinv' Hv Hreach Hfirst)
        as Hinv2.
      assert (Hc3 : acore st3 = mkCore (as_gScore st) (as_predecessors st)
                                       (set_add (fst x) (as_visited st)) pq').
      { subst st3. rewrite acore_visit.
        change (as_gScore st1) with (c_dist (acore st1)).
        change (as_predecessors st1) with (c_pred (acore st1)).
        change (as_visited st1) with (c_visited (acore st1)).
        change (as_openSet st1) with (c_queue (acore st1)).
        now rewrite Hc1. }
      assert (Hv3 : as_visited st3 = set_add (fst x) (as_visited st))
        by (change (as_visited st3) with (c_visited (acore st3)); now rewrite Hc3).
      assert (Hq3 : as_openSet st3 = pq')
        by (change (as_openSet st3) with (c_queue (acore st3)); now rewrite Hc3).
      assert (Ho3 : open_inv st3).
      { apply (open_inv_same
                 (as_with_open st pq' (set_delete (fst x) (as_inOpenSet st)))).
        - now rewrite Hq3.
        - subst st3 st1. now rewrite inOpen_visit, inOpen_current.
        - now apply open_inv_pop. }
      destruct (astar_neighbors_basic (fst x) (getNeighbors h graph (fst x)) st3)
        as (steps' & r' & Hn' & Ht4 & Hr4 & Hh4 & Hres).
      { now rewrite Hc3. }
      { exact Ho3. }
      { rewrite Hv3. apply In_set_add. now left. }
      { intros nb. apply getNeighbors_hop. }
      rewrite Hn' in Hn. injection Hn as <- <-.
      assert (Hno : forall v d, map_get v (as_gScore st) = Some d -> d <> NaN)
        by (eapply (basic_inv_no_nan _ _ _ Hinv)).
      assert (Hsel : step_basic graph s (Some tid) (astar_select (fst x) f g hv st1)
                     /\ mono (acore st) (acore st1) /\ mono (acore st1) (acore st3)).
      { split3.
        - apply step_basic_plain; [|discriminate].
          change (core_of_step (astar_select (fst x) f g hv st1)) with (acore st1).
          now rewrite Hc1.
        - rewrite Hc1. apply mono_same; auto.
        - rewrite Hc1, Hc3. eapply mono_visit; simpl; eauto. }
      destruct Hsel as (Hs1 & Hs2 & Hs3).
      cbn [fst snd].
      change (trace_ok J mono (acore st)
                (astar_select (fst x) f g hv st1 :: steps' ++ rest))
        with (J (astar_select (fst x) f g hv st1)
              /\ mono (acore st) (acore st1)
              /\ trace_ok J mono (acore st1) (steps' ++ rest)).
      destruct r' as [st4|e'].
      + destruct Hr as [Hloop IH]. destruct Hres as (Hi4 & Ho4 & Hv4 & Hl4 & Hm4).
        destruct IH as (IH1 & IH2 & IH3 & IH4).
        { now rewrite acore_reset. }
        { eapply open_inv_same; [| |exact Ho4]; reflexivity. }
        { rewrite acore_reset. unfold measure in *. simpl in *.
          rewrite Hv4, Hv3. rewrite Hq3 in Hl4.
          pose proof (potential_visit h graph (fst x) (as_visited st) Hv).
          rewrite (Permutation_length Hperm) in Hm. simpl in Hm. lia. }
        cbn [fst snd] in IH1, IH2, IH3, IH4.
        split; auto. split3; [split3; auto| |discriminate].
        * eapply trace_ok_start; [apply mono_trans|exact Hs3|].
          eapply trace_ok_app with (c1 := acore st4); eauto.
          apply mono_trans.
        * apply relax_ok_cons.
          -- now apply no_relax_head_app.
          -- now apply relax_ok_app.
      + destruct Hr as [-> ->]. rewrite app_nil_r.
        split; auto. split3; [split3; auto| |discriminate].
        * eapply trace_ok_start; [apply mono_trans|exact Hs3|exact Ht4].
        * now apply relax_ok_cons.
  Qed.

Lemma astar_init_basic hv :
    basic_inv graph s (acore (astar_init_state graph s tid hv [(s, hv)])).
  Proof.
    unfold astar_init_state, acore.
    cbn [as_gScore as_predecessors as_visited as_openSet].
    assert (Hp : forall v, predecessor_of
                   (fold_left (fun m kv => map_set (fst kv) None m) (nodes graph) []) v
                 = None).
    { intros v. unfold predecessor_of.
      rewrite (map_get_init (fun _ => @None string)).
      now destruct (existsb _ _). }
    constructor; cbn [c_dist c_pred c_visited c_queue].
    - intros v u H. rewrite Hp in H. discriminate.
    - intros l1 v l2 u H. destruct l1; discriminate.
    - intros v u H. rewrite Hp in H. discriminate.
    - intros v [].
    - intros e [<-|[]]. now left.
    - intros v [].
    - intros _ e [<-|[]]. reflexivity.
    - apply Hp.
    - intros d. rewrite map_get_set_eq. congruence.
    - intros v d. rewrite map_get_set.
      destruct (String.eqb s v); [intros [= <-]; discriminate|].
      rewrite (map_get_init (fun _ => PInf)).
      destruct (existsb _ _); simpl; [|discriminate].
      intros [= <-]. discriminate.
  Qed.

Lemma astar_init_open hv : open_inv (astar_init_state graph s tid hv [(s, hv)]).
  Proof.
    unfold open_inv, astar_init_state. cbn [as_openSet as_inOpenSet map fst].
    split; [constructor; [intros []|constructor]|].
    intros id. reflexivity.
  Qed.

Theorem astar_run_basic fuel hv :
    run_fuel h graph <= fuel ->
    map_get tid (nodes graph) = Some tnode ->
    heuristic (map_get s (nodes graph)) tnode = HValue hv ->
    let st := astar_init_state graph s tid hv [(s, hv)] in
    exists rest e,
      astar_run fuel h graph s tid heuristic
      = (astar_init_step s tid hv st :: rest, e)
      /\ astar_loop fuel h graph s tid tnode heuristic st = (rest, e)
      /\ e <> OutOfFuel
      /\ trace_ok J mono (acore st) (astar_init_step s tid hv st :: rest)
      /\ relax_ok Q (astar_init_step s tid hv st :: rest).
  Proof.
    intros Hfuel Ht Hh st. unfold astar_run. rewrite Ht, Hh.
    change (enqueue [] s hv) with (Some [(s, hv)]). cbv iota. fold st.
    pose proof (astar_init_basic hv) as Hinv. fold st in Hinv.
    destruct (astar_loop_basic fuel st Hinv (astar_init_open hv))
      as (He & Ht' & Hr & Hn).
    { unfold measure, run_fuel in *. subst st. simpl.
      rewrite potential_nil. simpl in Hfuel. lia. }
    destruct (astar_loop fuel h graph s tid tnode heuristic st) as [rest e].
    cbn [fst snd] in *.
    exists rest, e. split5; auto.
    - cbn [trace_ok].
      change (core_of_step (astar_init_step s tid hv st)) with (acore st).
      split3; auto.
      + apply step_basic_plain; [exact Hinv | discriminate].
      + apply mono_refl. eapply basic_inv_no_nan; eauto.
    - now apply relax_ok_cons.
  Qed.
End AStarBasic.

Lemma astar_loop_fuel_mono h graph s tid tnode heuristic : forall fuel st,
  snd (astar_loop fuel h graph s tid tnode heuristic st) <> OutOfFuel ->
  forall fuel', fuel <= fuel' ->
  astar_loop fuel' h graph s tid tnode heuristic st
  = astar_loop fuel h graph s tid tnode heuristic st.
Proof.
  induction fuel as [|fuel IH]; intros st Hne fuel' Hle.
  - simpl in Hne. congruence.
  - destruct fuel' as [|fuel']; [lia|].
    assert (Hle' : fuel <= fuel') by lia.
    cbn [astar_loop] in *.
    destruct (isEmpty (as_openSet st)); auto.
    destruct (dequeue (as_openSet st)) as [[[cur|] pq']|]; auto.
    destruct (set_has cur (as_visited _)).
    + now apply IH.
    + destruct (heuristic _ tnode); auto.
      destruct (map_get cur (as_fScore _)); auto.
      destruct (map_get cur (as_gScore _)); auto.
      destruct (String.eqb cur tid); auto.
      destruct (astar_neighbors graph tid tnode heuristic cur _ _)
        as [steps [st4|e]]; auto.
      destruct (astar_loop fuel h graph s tid tnode heuristic (astar_reset st4))
        as [rest e] eqn:Hl.
      rewrite (IH (astar_reset st4)); [now rewrite Hl | now rewrite Hl | auto].
Qed.


(* ================================================================== *)
(** ** The single-source engine: visited nodes record shortest distances *)
(* ================================================================== *)

Lemma stable_refl c : stable c c.
Proof. intros v Hv. auto. Qed.

Lemma stable_trans a b c : stable a b -> stable b c -> stable a c.
Proof.
  intros Hab Hbc v Hv. destruct (Hab v Hv) as [Hb Eb].
  destruct (Hbc v Hb) as [Hc Ec]. split; congruence.
Qed.



Lemma stable_relax c c' w newDist :
  c_dist c' = map_set w newDist (c_dist c) -> c_visited c' = c_visited c ->
  ~ In w (c_visited c) -> stable c c'.
Proof.
  intros Hd Hv Hw v Hin. rewrite Hd, Hv. split; auto.
  apply map_get_set_ne. intros ->. contradiction.
Qed.

Lemma opt_inv_weaken graph s (pend pend' : string -> string -> Z -> Prop) c :
  (forall v w wt, pend v w wt -> pend' v w wt) ->
  opt_inv graph s pend c -> opt_inv graph s pend' c.
Proof.
  intros Hp [H1 H2 H3 H4 H5 H6 H7 H8]. constructor; auto.
  intros v w wt Hv Hh. destruct (H3 v w wt Hv Hh); auto.
Qed.

Lemma opt_inv_all_fin graph s pend c :
  opt_inv graph s pend c -> all_fin (c_queue c).
Proof.
  intros H. apply Forall_forall. intros e He.
  destruct (oi_entries _ _ _ _ H e He) as (p & dw & Hp & _). now exists p.
Qed.

Lemma heap_ok_single x : heap_ok [x].
Proof. intros p c Hpc Hc. unfold child_of in Hpc. simpl in Hc. lia. Qed.

Section Optimal.
Variables (h : Store) (graph : Graph) (s : string).
Hypothesis Hnonneg : nonneg_weights graph.
Hypothesis Hends : endpoints_exist graph.
Hypothesis Hadj : adjacency_complete h graph.

Lemma hop_nonneg u w wt : hop graph u w wt -> (0 <= wt)%Z.
  Proof. intros (id & e & He & <- & _). eapply Hnonneg; eauto. Qed.

Lemma hop_target u w wt : hop graph u w wt -> map_has w (nodes graph) = true.
  Proof.
    intros (id & e & He & _ & Hc). destruct (Hends id e He) as [Hs Ht].
    destruct Hc as [[_ <-]|(_ & _ & <-)]; auto.
  Qed.

Lemma walk_nonneg v c : walk graph s v c -> (0 <= c)%Z.
  Proof.
    induction 1 as [|u w c wt Hw IH Hh]; [lia|].
    pose proof (hop_nonneg _ _ _ Hh). lia.
  Qed.

Lemma collect_neighbors_complete u id nb ids :
    In id ids -> neighbor_of graph u id = Some nb ->
    In nb (collect_neighbors graph u ids).
  Proof.
    induction ids as [|id0 ids IH]; simpl; [tauto|].
    intros [->|Hin] Hn.
    - rewrite Hn. now left.
    - destruct (neighbor_of graph u id0); [right|]; auto.
  Qed.

Lemma getNeighbors_complete u w wt :
    hop graph u w wt ->
    exists nb, In nb (getNeighbors h graph u)
               /\ nb_nodeId nb = w /\ nb_weight nb = wt.
  Proof.
    intros (id & e & He & Hw & Hc).
    destruct (Hadj id e He) as [Hsrc Htgt].
    assert (Hin : in_adjacency h graph u id).
    { destruct Hc as [[<- _]|(Hd & <- & _)]; auto. }
    destruct Hin as (l & ids & Hl & Hd & Hin).
    assert (Hn : exists nb, neighbor_of graph u id = Some nb
                            /\ nb_nodeId nb = w /\ nb_weight nb = wt).
    { unfold neighbor_of. rewrite He.
      destruct (String.eqb_spec (edge_source e) u) as [Hs|Hs].
      - eexists. split; [reflexivity|]. simpl. split; auto.
        destruct Hc as [[_ Ht]|(_ & Ht & Hs')]; congruence.
      - destruct Hc as [[Hs' _]|(Hdir & Ht & Hs')]; [contradiction|].
        rewrite Hdir. simpl. rewrite <- Ht, String.eqb_refl.
        eexists. split; [reflexivity|]. simpl. auto. }
    destruct Hn as (nb & Hn & Hid & Hwt). exists nb. split; auto.
    unfold getNeighbors. rewrite Hl, Hd.
    eapply collect_neighbors_complete; eauto.
  Qed.

  (** A path that leaves the visited nodes meets a node of the queue that is
      no farther than the path is long. *)
Lemma frontier c :
    opt_inv graph s no_pending c ->
    forall v cst, walk graph s v cst ->
      In v (c_visited c)
      \/ exists w dw, ~ In w (c_visited c)
                      /\ map_get w (c_dist c) = Some (Fin dw) /\ (dw <= cst)%Z.
  Proof.
    intros Hinv v cst Hw.
    induction Hw as [|u w cst wt Hw IH Hh].
    - destruct (in_dec string_dec s (c_visited c)) as [Hin|Hin]; auto.
      right. exists s, 0%Z. split3; auto; [|lia]. apply (oi_source _ _ _ _ Hinv).
    - pose proof (hop_nonneg _ _ _ Hh) as Hwt.
      destruct IH as [Hu|(w' & dw' & Hw' & Hd' & Hle)].
      + destruct (in_dec string_dec w (c_visited c)) as [Hin|Hin]; auto.
        right. destruct (oi_settled _ _ _ _ Hinv u w wt Hu Hh) as [Hs|[]].
        destruct Hs as [Hs|(du & dw & Hdu & Hdw & Hle)]; [contradiction|].
        destruct (oi_optimal _ _ _ _ Hinv u Hu) as (du' & Hdu' & _ & Hmin).
        assert (du' = du) by congruence. subst du'.
        pose proof (Hmin cst Hw). exists w, dw. split3; auto. lia.
      + right. exists w', dw'. split3; auto. lia.
  Qed.

  (** The entry at the root of the heap, when its node is not visited, carries
      that node's shortest distance. *)
Lemma opt_pop c x :
    opt_inv graph s no_pending c ->
    nth_error (c_queue c) 0 = Some x -> ~ In (fst x) (c_visited c) ->
    exists du, map_get (fst x) (c_dist c) = Some (Fin du)
               /\ shortest graph s (fst x) du.
  Proof.
    intros Hinv Hx Hv.
    assert (Hin : In x (c_queue c)) by (eapply nth_error_In; eauto).
    destruct (oi_entries _ _ _ _ Hinv x Hin) as (p & du & Hp & Hdu & Hle).
    exists du. split; auto. split; [apply (oi_walk _ _ _ _ Hinv); auto|].
    intros cst Hw.
    destruct (frontier c Hinv _ _ Hw) as [Hc|(w & dw & Hw' & Hdw & Hle')];
      [contradiction|].
    pose proof (oi_queued _ _ _ _ Hinv w dw Hw' Hdw) as Hq.
    pose proof (heap_min_entry (c_queue c) x (w, Fin dw)
                  (opt_inv_all_fin _ _ _ _ Hinv) (oi_heap _ _ _ _ Hinv) Hx Hq) as Hmin.
    unfold keyZ in Hmin. rewrite Hp in Hmin. simpl in Hmin. lia.
  Qed.

  (** Dropping the root entry of a node that is already visited. *)
Lemma opt_drop pend d p v q x pq' :
    opt_inv graph s pend (mkCore d p v q) ->
    Permutation q (x :: pq') -> heap_ok pq' -> In (fst x) v ->
    opt_inv graph s pend (mkCore d p v pq').
  Proof.
    intros [H1 H2 H3 H4 H5 H6 H7 H8] Hperm Hheap Hx.
    constructor; cbn [c_dist c_pred c_visited c_queue] in *; auto.
    - intros w dw Hw Hd. pose proof (H4 w dw Hw Hd) as Hin.
      eapply Permutation_in in Hin; [|exact Hperm].
      destruct Hin as [Heq|Hin]; auto. subst x. contradiction.
    - intros e He. apply H5. eapply Permutation_in; [symmetry; exact Hperm|].
      now right.
  Qed.

  (** Marking the node of the root entry visited: its own edges become
      pending. *)
Lemma opt_visit d p v q x pq' :
    opt_inv graph s no_pending (mkCore d p v q) ->
    Permutation q (x :: pq') -> heap_ok pq' ->
    nth_error q 0 = Some x -> ~ In (fst x) v ->
    opt_inv graph s (pending_of (fst x) (getNeighbors h graph (fst x)))
            (mkCore d p (set_add (fst x) v) pq').
  Proof.
    intros Hinv Hperm Hheap Hx Hv.
    destruct (opt_pop _ x Hinv Hx Hv) as (du & Hdu & Hsh).
    destruct Hinv as [H1 H2 H3 H4 H5 H6 H7 H8].
    constructor; cbn [c_dist c_pred c_visited c_queue] in *; auto.
    - intros v0 Hin. apply In_set_add in Hin. destruct Hin as [->|Hin]; eauto.
    - intros v0 w wt Hin Hh. apply In_set_add in Hin. destruct Hin as [->|Hin].
      + right. split; auto. now apply getNeighbors_complete.
      + destruct (H3 v0 w wt Hin Hh) as [[Hs|Hs]|[]]; left.
        * left. cbn [c_visited]. apply In_set_add. auto.
        * right. exact Hs.
    - intros w dw Hw Hd. rewrite In_set_add in Hw.
      assert (Hw' : ~ In w v) by tauto.
      pose proof (H4 w dw Hw' Hd) as Hin.
      eapply Permutation_in in Hin; [|exact Hperm].
      destruct Hin as [Heq|Hin]; auto. subst x. simpl in Hw. tauto.
    - intros e He. apply H5. eapply Permutation_in; [symmetry; exact Hperm|].
      now right.
  Qed.

  (** The neighbour is already visited. *)
Lemma opt_edge_visited cur nb rest c :
    opt_inv graph s (pending_of cur (nb :: rest)) c ->
    In (nb_nodeId nb) (c_visited c) ->
    opt_inv graph s (pending_of cur rest) c.
  Proof.
    intros [H1 H2 H3 H4 H5 H6 H7 H8] Hnb. constructor; auto.
    intros v w wt Hv Hh.
    destruct (H3 v w wt Hv Hh) as [Hs|(-> & nb' & [<-|Hin] & <- & <-)]; auto.
    - left. left. exact Hnb.
    - right. split; eauto.
  Qed.

  (** The edge brings no improvement. *)
Lemma opt_edge_skip cur nb rest c :
    opt_inv graph s (pending_of cur (nb :: rest)) c ->
    In cur (c_visited c) ->
    hop graph cur (nb_nodeId nb) (nb_weight nb) ->
    num_lt (num_add (as_num (map_get cur (c_dist c))) (Fin (nb_weight nb)))
           (as_num (map_get (nb_nodeId nb) (c_dist c))) = false ->
    opt_inv graph s (pending_of cur rest) c.
  Proof.
    intros Hinv Hcur Hhop Hlt.
    destruct (oi_optimal _ _ _ _ Hinv cur Hcur) as (du & Hdu & _).
    destruct (oi_defined _ _ _ _ Hinv _ (hop_target _ _ _ Hhop)) as (dd & Hdd & Hnan).
    rewrite Hdu, Hdd in Hlt. simpl in Hlt.
    destruct dd as [dw| |]; [|discriminate|congruence].
    apply Z.ltb_ge in Hlt.
    destruct Hinv as [H1 H2 H3 H4 H5 H6 H7 H8]. constructor; auto.
    intros v w wt Hv Hh.
    destruct (H3 v w wt Hv Hh) as [Hs|(-> & nb' & [<-|Hin] & <- & <-)]; auto.
    - left. right. exists du, dw. auto.
    - right. split; eauto.
  Qed.

  (** The edge improves the neighbour's distance, and an entry is pushed. *)
Lemma opt_edge_relax cur nb rest d p p' v q pq' du :
    opt_inv graph s (pending_of cur (nb :: rest)) (mkCore d p v q) ->
    In cur v -> ~ In (nb_nodeId nb) v ->
    hop graph cur (nb_nodeId nb) (nb_weight nb) ->
    map_get cur d = Some (Fin du) ->
    num_lt (Fin (du + nb_weight nb)) (as_num (map_get (nb_nodeId nb) d)) = true ->
    enqueue q (nb_nodeId nb) (Fin (du + nb_weight nb)) = Some pq' ->
    Permutation ((nb_nodeId nb, Fin (du + nb_weight nb)) :: q) pq' ->
    opt_inv graph s (pending_of cur rest)
            (mkCore (map_set (nb_nodeId nb) (Fin (du + nb_weight nb)) d) p' v pq').
  Proof.
    intros Hinv Hcur Hnb Hhop Hdu Hlt Henq Hperm.
    pose proof (opt_inv_all_fin _ _ _ _ Hinv) as Hfin.
    destruct Hinv as [H1 H2 H3 H4 H5 H6 H7 H8].
    cbn [c_dist c_pred c_visited c_queue] in *.
    set (w := nb_nodeId nb) in *. set (wt := nb_weight nb) in *.
    assert (Hold : forall dw, map_get w d = Some (Fin dw) -> (du + wt < dw)%Z).
    { intros dw E. rewrite E in Hlt. simpl in Hlt. now apply Z.ltb_lt. }
    constructor; cbn [c_dist c_pred c_visited c_queue].
    - intros v0 Hv0. destruct (H1 v0 Hv0) as (d0 & Hd0 & Hsh). exists d0.
      cbn [c_dist c_visited] in *.
      split; auto. rewrite map_get_set_ne; auto. intros E. subst v0. contradiction.
    - intros v0 d0. rewrite map_get_set.
      destruct (String.eqb_spec w v0) as [<-|Hne]; auto.
      intros [= <-]. eapply walk_step; eauto.
    - intros v0 w0 wt0 Hv0 Hh.
      assert (Hv0w : w <> v0) by (intros E; subst v0; contradiction).
      unfold settled in *. cbn [c_dist c_visited] in *.
      destruct (H3 v0 w0 wt0 Hv0 Hh) as [[Hs|Hs]|(-> & nb' & [<-|Hin] & <- & <-)].
      + left. now left.
      + left. right. destruct Hs as (dv & dw & Hdv & Hdw & Hle).
        destruct (String.eqb_spec w w0) as [<-|Hne].
        * exists dv, (du + wt)%Z. pose proof (Hold dw Hdw).
          rewrite map_get_set_ne by auto. rewrite map_get_set_eq.
          split3; auto. lia.
        * exists dv, dw. rewrite !map_get_set_ne by auto. auto.
      + left. right. exists du, (du + wt)%Z. fold w. fold wt.
        rewrite map_get_set_ne by auto. rewrite map_get_set_eq.
        split3; auto. lia.
      + right. split; eauto.
    - intros w0 dw0 Hw0. rewrite map_get_set.
      destruct (String.eqb_spec w w0) as [<-|Hne].
      + intros [= <-]. eapply Permutation_in; [exact Hperm|]. now left.
      + intros E. eapply Permutation_in; [exact Hperm|]. right. auto.
    - intros e He. eapply Permutation_in in He; [|symmetry; exact Hperm].
      destruct He as [<-|He].
      + exists (du + wt)%Z, (du + wt)%Z. simpl. rewrite map_get_set_eq.
        split3; auto. lia.
      + destruct (H5 e He) as (pe & dw & Hp & Hd & Hle). rewrite map_get_set.
        destruct (String.eqb_spec w (fst e)) as [E|Hne].
        * exists pe, (du + wt)%Z. split3; auto.
          rewrite <- E in Hd. pose proof (Hold dw Hd). lia.
        * exists pe, dw. auto.
    - eapply enqueue_heap; eauto.
    - rewrite map_get_set. destruct (String.eqb_spec w s) as [E|Hne]; auto.
      exfalso. rewrite <- E in H7. pose proof (Hold 0%Z H7).
      pose proof (walk_nonneg _ _ (H2 cur du Hdu)).
      pose proof (hop_nonneg _ _ _ Hhop). fold wt in H0. lia.
    - intros v0 Hv0. rewrite map_get_set.
      destruct (String.eqb_spec w v0) as [E|Hne]; auto.
      eexists. split; [reflexivity|discriminate].
  Qed.
End Optimal.

Section DijkstraOptimal.
Variables (h : Store) (graph : Graph) (s : string) (t : option string).
Hypothesis Hnonneg : nonneg_weights graph.
Hypothesis Hends : endpoints_exist graph.
Hypothesis Hadj : adjacency_complete h graph.

Let J (x : AlgorithmStep) := visited_optimal graph s (core_of_step x).

Lemma dijkstra_neighbors_opt cur : forall nbrs st,
    opt_inv graph s (pending_of cur nbrs) (dcore st) ->
    In cur (ds_visited st) ->
    (forall nb, In nb nbrs -> hop graph cur (nb_nodeId nb) (nb_weight nb)) ->
    exists steps st',
      dijkstra_neighbors t cur nbrs st = (steps, Continue st')
      /\ opt_inv graph s no_pending (dcore st')
      /\ trace_ok J stable (dcore st) steps
      /\ stable (last_core (dcore st) steps) (dcore st').
  Proof.
    induction nbrs as [|nb rest IH]; intros st Hinv Hcur Hhop.
    - exists [], st. simpl. split; [reflexivity|]. split3; auto.
      + eapply opt_inv_weaken; [|exact Hinv].
        intros v w wt (_ & nb & [] & _).
      + apply stable_refl.
    - pose proof (dijkstra_edge_case t cur nb st) as Hc.
      assert (Hrest : forall nb', In nb' rest ->
                 hop graph cur (nb_nodeId nb') (nb_weight nb'))
        by (intros; apply Hhop; now right).
      assert (Hnb : hop graph cur (nb_nodeId nb) (nb_weight nb))
        by (apply Hhop; now left).
      inversion Hc as [Hv Heq
                      | newDist pq' ex rx st2 Hv Hnd Hlt Henq Hperm Hex Hrx Hst2
                                Htex Htrx Hcex Hcrx Heq
                      | newDist ex sk st3 Hv Hnd Hlt Hex Hsk Hst3 Htex Htsk Hcex Heq];
        symmetry in Heq.
      + (* neighbour already visited *)
        destruct (IH st) as (steps & st' & Hn & Hi' & Ht' & Hm'); auto.
        { eapply opt_edge_visited; eauto. now apply set_has_In. }
        exists steps, st'. split; [|split3; auto].
        rewrite (dijkstra_neighbors_cons _ _ _ _ _ _ _ _ _ Heq Hn). reflexivity.
      + (* relaxation *)
        apply set_has_false in Hv.
        destruct (oi_optimal _ _ _ _ Hinv cur Hcur) as (du & Hdu & _).
        simpl in Hdu. rewrite Hdu in Hnd. simpl in Hnd. subst newDist.
        assert (Hinv2 : opt_inv graph s (pending_of cur rest) (dcore st2)).
        { rewrite Hst2. destruct st as [d p v ns es q]. simpl in *.
          eapply opt_edge_relax; eauto. }
        assert (Hv2 : ds_visited st2 = ds_visited st).
        { change (ds_visited st2) with (c_visited (dcore st2)). now rewrite Hst2. }
        destruct (IH st2) as (steps & st' & Hn & Hi' & Ht' & Hm'); auto.
        { now rewrite Hv2. }
        exists ([ex; rx] ++ steps), st'. split; [|split3; auto].
        * apply (dijkstra_neighbors_cons _ _ _ _ _ _ _ _ _ Heq Hn).
        * eapply trace_ok_app with (c1 := dcore st2).
          -- apply stable_trans.
          -- simpl. unfold J. rewrite Hex, Hrx. split3; [| |split3; auto].
             ++ apply (oi_optimal _ _ _ _ Hinv).
             ++ apply stable_refl.
             ++ apply (oi_optimal _ _ _ _ Hinv2).
             ++ eapply stable_relax with (w := nb_nodeId nb);
                  [rewrite Hst2; reflexivity | rewrite Hst2; reflexivity
                  | exact Hv].
          -- unfold last_core. simpl. rewrite Hrx. apply stable_refl.
          -- exact Ht'.
        * rewrite last_core_app. unfold last_core at 2. simpl. rewrite Hrx.
          exact Hm'.
      + (* no improvement *)
        assert (Hinv3 : opt_inv graph s (pending_of cur rest) (dcore st3)).
        { rewrite Hst3. eapply opt_edge_skip; eauto. subst newDist. exact Hlt. }
        assert (Hcur3 : In cur (ds_visited st3)).
        { change (ds_visited st3) with (c_visited (dcore st3)). now rewrite Hst3. }
        destruct (IH st3) as (steps & st' & Hn & Hi' & Ht' & Hm'); auto.
        exists ([ex; sk] ++ steps), st'. split; [|split3; auto].
        * apply (dijkstra_neighbors_cons _ _ _ _ _ _ _ _ _ Heq Hn).
        * eapply trace_ok_app with (c1 := dcore st3).
          -- apply stable_trans.
          -- simpl. unfold J. rewrite Hex, Hsk. split3; [| |split3; auto].
             ++ apply (oi_optimal _ _ _ _ Hinv).
             ++ apply stable_refl.
             ++ apply (oi_optimal _ _ _ _ Hinv).
             ++ apply stable_refl.
          -- unfold last_core. simpl. rewrite Hsk, Hst3. apply stable_refl.
          -- exact Ht'.
        * rewrite last_core_app. unfold last_core at 2. simpl.
          rewrite Hsk, <- Hst3. exact Hm'.
  Qed.


Lemma dijkstra_init_opt :
    map_has s (nodes graph) = true ->
    opt_inv graph s no_pending
            (dcore (dijkstra_init_state graph s t [(s, Fin 0)])).
  Proof.
    intros Hs. unfold dijkstra_init_state, dcore.
    cbn [ds_distances ds_predecessors ds_visited ds_pq].
    assert (Hd : forall v,
               map_get v (fold_left
                            (fun m kv =>
                               map_set (fst kv)
                                 (if String.eqb (fst kv) s then Fin 0 else PInf) m)
                            (nodes graph) [])
               = if map_has v (nodes graph)
                 then Some (if String.eqb v s then Fin 0 else PInf) else None).
    { intros v.
      rewrite (map_get_init (fun k => if String.eqb k s then Fin 0 else PInf)).
      now rewrite existsb_keys. }
    assert (Hfin : forall v d,
               map_get v (fold_left
                            (fun m kv =>
                               map_set (fst kv)
                                 (if String.eqb (fst kv) s then Fin 0 else PInf) m)
                            (nodes graph) []) = Some (Fin d) ->
               v = s /\ d = 0%Z).
    { intros v d. rewrite Hd. destruct (map_has v (nodes graph)); [|discriminate].
      destruct (String.eqb_spec v s); [|discriminate]. intros [= <-]. auto. }
    constructor; cbn [c_dist c_pred c_visited c_queue].
    - intros v [].
    - intros v d Hv. destruct (Hfin v d Hv) as [-> ->]. constructor.
    - intros v w wt [].
    - intros w dw _ Hw. destruct (Hfin w dw Hw) as [-> ->]. now left.
    - intros e [<-|[]]. exists 0%Z, 0%Z. cbn [fst snd].
      rewrite Hd, Hs, String.eqb_refl. split3; auto. lia.
    - apply heap_ok_single.
    - now rewrite Hd, Hs, String.eqb_refl.
    - intros v Hv. rewrite Hd, Hv. eexists. split; [reflexivity|].
      destruct (String.eqb v s); discriminate.
  Qed.


  (** How a run that returns ends: on a [path-found] step whose target is
      visited, or on a step with an empty queue at which the loop invariant
      holds. *)
Theorem dijkstra_loop_end : forall fuel st,
    opt_inv graph s no_pending (dcore st) ->
    snd (dijkstra_loop fuel h graph s t st) = Returned ->
    exists body last,
      fst (dijkstra_loop fuel h graph s t st) = body ++ [last]
      /\ ((step_type last = PathFound
           /\ exists tid, t = Some tid /\ In tid (visited last))
          \/ (step_type last <> PathFound /\ queue last = []
              /\ opt_inv graph s no_pending (core_of_step last)
              /\ (forall tid, step_type last = NoPath -> t = Some tid ->
                              ~ In tid (visited last)))).
  Proof.
    apply (dijkstra_loop_rule h graph s t
             (fun fuel st run =>
                opt_inv graph s no_pending (dcore st) ->
                snd run = Returned ->
                exists body last,
                  fst run = body ++ [last]
                  /\ ((step_type last = PathFound
                       /\ exists tid, t = Some tid /\ In tid (visited last))
                      \/ (step_type last <> PathFound /\ queue last = []
                          /\ opt_inv graph s no_pending (core_of_step last)
                          /\ (forall tid, step_type last = NoPath ->
                                 t = Some tid -> ~ In tid (visited last)))))).
    - intros st _ H. discriminate H.
    - intros fuel st Hq Hinv _. exists [], (dijkstra_final s t st).
      split; [reflexivity|]. right. split; [|split3].
      + unfold dijkstra_final.
        destruct t as [t0|]; [destruct (_ && _)|]; simpl; discriminate.
      + change (queue (dijkstra_final s t st))
          with (c_queue (core_of_step (dijkstra_final s t st))).
        now rewrite (core_dijkstra_final graph) by auto.
      + now rewrite (core_dijkstra_final graph) by auto.
      + intros tid Hty ->. unfold dijkstra_final in *.
        destruct (truthy_string tid && negb (set_has tid (ds_visited st))) eqn:E;
          [|discriminate Hty].
        apply andb_true_iff in E. destruct E as [_ E].
        apply negb_true_iff, set_has_false in E. exact E.
    - intros fuel st x pq' Hx Hperm Hd Hv IH Hinv He.
      destruct (dequeue_heap _ _ _ (opt_inv_all_fin _ _ _ _ Hinv)
                  (oi_heap _ _ _ _ Hinv) Hd) as [Hheap _].
      apply IH; auto.
      rewrite dcore_with_pq. destruct st as [d p v ns es q]. simpl in *.
      eapply opt_drop; eauto. now apply set_has_In.
    - intros fuel st x pq' st1 steps e Hx Hperm Hd Hv Ht1 Ht2 Hst1 Hf Hinv He.
      cbn [fst snd] in *. unfold dijkstra_found in Hf.
      destruct (reconstructPath _ _ _) as [path|].
      + destruct (mark_path graph s path _ _) as [ns2 es2].
        injection Hf as <- _.
        eexists [_], _. split; [reflexivity|]. left. split; [reflexivity|].
        exists (fst x). split; auto.
        cbn [visited dstep ds_visited]. apply In_set_add. now left.
      + injection Hf as _ <-. discriminate He.
    - intros fuel st x pq' st1 st3 steps r rest e Hx Hperm Hd Hv Ht Hst1 Hst3 Hn Hr
             Hinv He.
      destruct (dequeue_heap _ _ _ (opt_inv_all_fin _ _ _ _ Hinv)
                  (oi_heap _ _ _ _ Hinv) Hd) as [Hheap _].
      apply set_has_false in Hv.
      assert (Hc1 : dcore st1 = mkCore (ds_distances st) (ds_predecessors st)
                                       (ds_visited st) pq').
      { subst st1. now rewrite dcore_current. }
      assert (Hc3 : dcore st3 = mkCore (ds_distances st) (ds_predecessors st)
                                       (set_add (fst x) (ds_visited st)) pq').
      { subst st3. rewrite dcore_visit.
        change (ds_distances st1) with (c_dist (dcore st1)).
        change (ds_predecessors st1) with (c_pred (dcore st1)).
        change (ds_visited st1) with (c_visited (dcore st1)).
        change (ds_pq st1) with (c_queue (dcore st1)).
        now rewrite Hc1. }
      assert (Hinv3 : opt_inv graph s
                        (pending_of (fst x) (getNeighbors h graph (fst x)))
                        (dcore st3)).
      { rewrite Hc3. destruct st as [d p v ns es q]. simpl in *.
        eapply opt_visit; eauto. }
      assert (Hv3 : ds_visited st3 = set_add (fst x) (ds_visited st))
        by (change (ds_visited st3) with (c_visited (dcore st3)); now rewrite Hc3).
      destruct (dijkstra_neighbors_opt (fst x) (getNeighbors h graph (fst x)) st3)
        as (steps' & st4 & Hn' & Hinv4 & _); auto.
      { rewrite Hv3. apply In_set_add. now left. }
      { intros nb. apply getNeighbors_hop. }
      rewrite Hn' in Hn. injection Hn as <- <-.
      destruct Hr as [Hloop IH]. cbn [fst snd] in *.
      destruct (IH Hinv4 He) as (body & last & Hb & Hlast).
      exists (dijkstra_select (fst x) st1 :: dijkstra_mark (fst x) st3
                :: steps' ++ body), last.
      split; auto. rewrite Hb. simpl. now rewrite app_assoc.
  Qed.

Theorem dijkstra_run_end :
    map_has s (nodes graph) = true ->
    exists body last,
      fst (generateDijkstraSteps h graph s t) = body ++ [last]
      /\ ((step_type last = PathFound
           /\ exists tid, t = Some tid /\ In tid (visited last))
          \/ (step_type last <> PathFound /\ queue last = []
              /\ opt_inv graph s no_pending (core_of_step last)
              /\ (forall tid, step_type last = NoPath -> t = Some tid ->
                              ~ In tid (visited last)))).
  Proof.
    intros Hs. unfold generateDijkstraSteps.
    destruct (dijkstra_run_basic h graph s t (run_fuel h graph) (le_n _))
      as (steps & Hrun & _).
    unfold dijkstra_run in *.
    change (enqueue [] s (Fin 0)) with (Some [(s, Fin 0)]) in *. cbv iota in *.
    set (st := dijkstra_init_state graph s t [(s, Fin 0)]) in *.
    pose proof (dijkstra_loop_end (run_fuel h graph) st (dijkstra_init_opt Hs))
      as Hend.
    destruct (dijkstra_loop (run_fuel h graph) h graph s t st) as [rest e].
    injection Hrun as _ ->. cbn [fst snd] in *.
    destruct (Hend eq_refl) as (body & last & -> & Hlast).
    exists (dijkstra_init_step s st :: body), last. split; auto.
  Qed.
End DijkstraOptimal.


(* ================================================================== *)
(** ** A run depends on the graph only through what the graph holds *)
(* ================================================================== *)

Lemma map_get_adjacency_view h adj n :
  map_get n (map (fun kl : string * Loc => (fst kl, deref h (snd kl))) adj)
  = option_map (deref h) (map_get n adj).
Proof.
  induction adj as [|[k l] adj IH]; simpl; auto.
  destruct (String.eqb k n); auto.
Qed.

Lemma collect_neighbors_edges g1 g2 n ids :
  edges g1 = edges g2 -> directed g1 = directed g2 ->
  collect_neighbors g1 n ids = collect_neighbors g2 n ids.
Proof.
  intros He Hd. induction ids as [|id ids IH]; simpl; auto.
  unfold neighbor_of. rewrite He, Hd, IH. reflexivity.
Qed.

Lemma getNeighbors_view h1 g1 h2 g2 n :
  graph_view h1 g1 = graph_view h2 g2 ->
  getNeighbors h1 g1 n = getNeighbors h2 g2 n.
Proof.
  unfold graph_view, adjacency_view. intros [= Hn He Ha Hd].
  pose proof (map_get_adjacency_view h1 (adjacencyList g1) n) as E1.
  pose proof (map_get_adjacency_view h2 (adjacencyList g2) n) as E2.
  rewrite Ha, E2 in E1. unfold getNeighbors.
  destruct (map_get n (adjacencyList g1)) as [l1|],
           (map_get n (adjacencyList g2)) as [l2|]; simpl in E1;
    try discriminate; auto.
  injection E1 as E1. rewrite <- E1.
  destruct (deref h2 l2); auto. now apply collect_neighbors_edges.
Qed.

Lemma run_fuel_view h1 g1 h2 g2 :
  graph_view h1 g1 = graph_view h2 g2 -> run_fuel h1 g1 = run_fuel h2 g2.
Proof.
  intros Hv. unfold run_fuel. f_equal. f_equal.
  assert (Hk : map_keys (adjacencyList g1) = map_keys (adjacencyList g2)).
  { unfold graph_view, adjacency_view in Hv. injection Hv as _ _ Ha _.
    apply (f_equal (map fst)) in Ha. rewrite !map_map in Ha. exact Ha. }
  rewrite Hk. apply map_ext. intros n. f_equal. now apply getNeighbors_view.
Qed.

Section SameContent.
Variables (nd : JsMap Node) (ed : JsMap Edge) (a1 a2 : JsMap Loc) (dir : bool).
Variables (h1 h2 : Store).

Let g1 := mkGraph nd ed a1 dir.
Let g2 := mkGraph nd ed a2 dir.

Hypothesis Hnb : forall n, getNeighbors h1 g1 n = getNeighbors h2 g2 n.

Lemma mark_path_content s path : forall ns es,
    mark_path g1 s path ns es = mark_path g2 s path ns es.
  Proof.
    induction path as [|a [|b rest] IH]; intros ns es; auto.
    cbn [mark_path]. apply IH.
  Qed.

Lemma dijkstra_found_content s t st :
    dijkstra_found g1 s t st = dijkstra_found g2 s t st.
  Proof.
    unfold dijkstra_found. destruct (reconstructPath _ _ _); auto.
    now rewrite mark_path_content.
  Qed.

Lemma dijkstra_loop_content s t : forall fuel st,
    dijkstra_loop fuel h1 g1 s t st = dijkstra_loop fuel h2 g2 s t st.
  Proof.
    induction fuel as [|fuel IH]; intros st; auto.
    cbn [dijkstra_loop].
    destruct (isEmpty (ds_pq st)); auto.
    destruct (dequeue (ds_pq st)) as [[[cur|] pq']|]; auto.
    rewrite IH.
    destruct (set_has cur _); auto.
    rewrite Hnb, dijkstra_found_content.
    destruct (truthy t && is_target cur t); auto.
    destruct (dijkstra_neighbors t cur _ _) as [steps [st4|e]]; auto.
    now rewrite IH.
  Qed.

Lemma astar_neighbors_content tid tnode heuristic cur : forall nbrs st,
    astar_neighbors g1 tid tnode heuristic cur nbrs st
    = astar_neighbors g2 tid tnode heuristic cur nbrs st.
  Proof.
    induction nbrs as [|nb rest IH]; intros st; auto.
    cbn [astar_neighbors].
    change (astar_edge g1 tid tnode heuristic cur nb st)
      with (astar_edge g2 tid tnode heuristic cur nb st).
    destruct (astar_edge g2 tid tnode heuristic cur nb st) as [steps1 [st1|e]]; auto.
    now rewrite IH.
  Qed.

Lemma astar_found_content s t st :
    astar_found g1 s t st = astar_found g2 s t st.
  Proof.
    unfold astar_found. destruct (reconstructPath _ _ _); auto.
    now rewrite mark_path_content.
  Qed.

Lemma astar_loop_content s tid tnode heuristic : forall fuel st,
    astar_loop fuel h1 g1 s tid tnode heuristic st
    = astar_loop fuel h2 g2 s tid tnode heuristic st.
  Proof.
    induction fuel as [|fuel IH]; intros st; auto.
    cbn [astar_loop].
    destruct (isEmpty (as_openSet st)); auto.
    destruct (dequeue (as_openSet st)) as [[[cur|] pq']|]; auto.
    rewrite IH.
    destruct (set_has cur _); auto.
    change (nodes g1) with (nodes g2).
    destruct (heuristic _ tnode); auto.
    destruct (map_get cur (as_fScore _)); auto.
    destruct (map_get cur (as_gScore _)); auto.
    rewrite astar_found_content, Hnb, astar_neighbors_content.
    destruct (String.eqb cur tid); auto.
    destruct (astar_neighbors g2 tid tnode heuristic cur _ _) as [steps [st4|e]]; auto.
    now rewrite IH.
  Qed.
End SameContent.

Theorem dijkstra_run_view fuel h1 g1 h2 g2 s t :
  graph_view h1 g1 = graph_view h2 g2 ->
  dijkstra_run fuel h1 g1 s t = dijkstra_run fuel h2 g2 s t.
Proof.
  intros Hv. pose proof (fun n => getNeighbors_view h1 g1 h2 g2 n Hv) as Hnb.
  destruct g1 as [n1 e1 a1 d1], g2 as [n2 e2 a2 d2].
  unfold graph_view in Hv. cbn [nodes edges directed] in Hv.
  injection Hv as -> -> _ ->.
  unfold dijkstra_run. destruct (enqueue [] s (Fin 0)); auto.
  rewrite (dijkstra_loop_content n2 e2 a1 a2 d2 h1 h2 Hnb).
  reflexivity.
Qed.

Theorem astar_run_view fuel h1 g1 h2 g2 s tid heuristic :
  graph_view h1 g1 = graph_view h2 g2 ->
  astar_run fuel h1 g1 s tid heuristic = astar_run fuel h2 g2 s tid heuristic.
Proof.
  intros Hv. pose proof (fun n => getNeighbors_view h1 g1 h2 g2 n Hv) as Hnb.
  destruct g1 as [n1 e1 a1 d1], g2 as [n2 e2 a2 d2].
  unfold graph_view in Hv. cbn [nodes edges directed] in Hv.
  injection Hv as -> -> _ ->.
  unfold astar_run. cbn [nodes].
  destruct (map_get tid n2) as [tnode|]; auto.
  destruct (heuristic _ tnode); auto.
  destruct (enqueue [] s n); auto.
  rewrite (astar_loop_content n2 e2 a1 a2 d2 h1 h2 Hnb).
  reflexivity.
Qed.


(* ================================================================== *)
(** ** The graphs of the examples are well formed *)
(* ================================================================== *)

Lemma nonneg_weights_check graph :
  forallb (fun kv => (0 <=? edge_weight (snd kv))%Z) (edges graph) = true ->
  nonneg_weights graph.
Proof.
  intros Hall id e He. apply map_get_In in He.
  rewrite forallb_forall in Hall. specialize (Hall _ He). simpl in Hall.
  now apply Z.leb_le.
Qed.

Lemma graph_ok_adjacency_complete h graph :
  graph_ok h graph -> adjacency_complete h graph.
Proof. intros Hok id e He. apply (ok_listed _ _ Hok id e He). Qed.

Lemma edits_graph_ok d es :
  edits_ok ([], createGraph d) es ->
  graph_ok (fst (run_edits ([], createGraph d) es))
           (snd (run_edits ([], createGraph d) es)).
Proof. intros H. apply run_edits_ok; auto. apply createGraph_ok. Qed.

Lemma createSampleGraph_edits :
  createSampleGraph [] = run_edits ([], createGraph false) sample_edits.
Proof. vm_compute. reflexivity. Qed.

Lemma sample_graph_ok : graph_ok sample_store sample_graph.
Proof.
  unfold sample_store, sample_graph. rewrite createSampleGraph_edits.
  apply edits_graph_ok. vm_compute. tauto.
Qed.

Lemma detour_graph_ok : graph_ok detour_store detour_graph.
Proof. apply edits_graph_ok. vm_compute. tauto. Qed.

Lemma one_way_graph_ok : graph_ok one_way_store one_way_graph.
Proof. apply edits_graph_ok. vm_compute. tauto. Qed.

(* ================================================================== *)
(** ** The claims *)
(* ================================================================== *)



(* ================================================================== *)
(** ** What a [path-found] step records *)
(* ================================================================== *)

Lemma found_step_ok graph s tgt c0 steps x :
  trace_ok (step_basic graph s tgt) mono c0 steps ->
  (exists d0, map_get s (c_dist c0) = Some d0) ->
  In x steps -> step_type x = PathFound ->
  exists tid, tgt = Some tid /\ path_found_ok graph s tid x.
Proof.
  intros Htr [d0 Hd0] Hin Hty.
  destruct (In_nth_error _ _ Hin) as [i Hi].
  pose proof (trace_ok_all _ _ _ _ Htr) as Hall.
  rewrite Forall_forall in Hall. destruct (Hall x Hin) as [Hinv Hfound].
  destruct (trace_ok_from _ _ mono_trans _ _ Htr i x Hi) as [_ Hmono].
  destruct (Hmono s d0 Hd0) as (d1 & Hd1 & _).
  pose proof (bi_source_dist _ _ _ Hinv d1 Hd1) as ->.
  destruct (Hfound Hty) as (tid & path & fuel & Ht & _ & Hsp & Hrec & Htd & Hreach).
  exists tid. split; auto.
  destruct (reconstructPath_cost graph s _ Hinv fuel tid [] path Hrec Hreach)
    as (pre & Hpre & Hhd & Hlast & Hcost & Hdef).
  rewrite app_nil_r in Hpre. subst pre.
  assert (Hz : exists z, map_get tid (c_dist (core_of_step x)) = Some (Fin z)).
  { destruct Hreach as [->|Hp]; eauto. }
  destruct Hz as [z Hz]. exists path, z. split5; auto.
  rewrite Htd. exact Hz.
Qed.

Lemma astar_steps_trace h graph s tid heuristic :
  (fst (generateAStarSteps h graph s tid heuristic) = []
   /\ snd (generateAStarSteps h graph s tid heuristic) <> OutOfFuel)
  \/ exists tnode hv,
       map_get tid (nodes graph) = Some tnode
       /\ trace_ok (step_basic graph s (Some tid)) mono
            (acore (astar_init_state graph s tid hv [(s, hv)]))
            (fst (generateAStarSteps h graph s tid heuristic))
       /\ relax_ok (astar_push graph tnode heuristic)
            (fst (generateAStarSteps h graph s tid heuristic))
       /\ snd (generateAStarSteps h graph s tid heuristic) <> OutOfFuel.
Proof.
  unfold generateAStarSteps.
  destruct (map_get tid (nodes graph)) as [tnode|] eqn:Ht;
    [|left; unfold astar_run; rewrite Ht; split; [reflexivity|discriminate]].
  destruct (heuristic (map_get s (nodes graph)) tnode) as [hv|e] eqn:Hh;
    [|left; unfold astar_run; rewrite Ht, Hh; split; [reflexivity|discriminate]].
  right. exists tnode, hv.
  destruct (astar_run_basic h graph s tid tnode heuristic (run_fuel h graph) hv
              (le_n _) Ht Hh) as (rest & e & Hrun & _ & He & Htr & Hrel).
  rewrite Hrun. cbn [fst snd]. auto.
Qed.

(** C2 (as amended).  Every [path-found] step of a run of
    [generateDijkstraSteps] whose source is in the node map, and every
    [path-found] step of a run of [generateAStarSteps], records a path that
    starts at the source and ends at the target, and a total cost that is the
    weight sum of edges joining the consecutive nodes of that path. *)
Theorem path_found_records_path_cost h graph s :
  (forall t x,
      map_has s (nodes graph) = true ->
      In x (fst (generateDijkstraSteps h graph s t)) ->
      step_type x = PathFound ->
      exists tid, t = Some tid /\ path_found_ok graph s tid x)
  /\ (forall tid heuristic x,
         In x (fst (generateAStarSteps h graph s tid heuristic)) ->
         step_type x = PathFound ->
         path_found_ok graph s tid x).
Proof.
  split.
  - intros t x Hs Hin Hty. unfold generateDijkstraSteps in Hin.
    destruct (dijkstra_run_basic h graph s t (run_fuel h graph) (le_n _))
      as (steps & Hrun & Htr & _).
    rewrite Hrun in Hin. cbn [fst] in Hin.
    eapply found_step_ok; eauto.
    pose proof (oi_source _ _ _ _ (dijkstra_init_opt graph s t Hs)). eauto.
  - intros tid heuristic x Hin Hty.
    destruct (astar_steps_trace h graph s tid heuristic)
      as [[He _]|(tnode & hv & Ht & Htr & _)].
    + rewrite He in Hin. destruct Hin.
    + destruct (found_step_ok graph s (Some tid) _ _ x Htr) as (t' & Et & Hok); auto.
      * exists (Fin 0). unfold astar_init_state, acore. cbn [as_gScore c_dist].
        apply map_get_set_eq.
      * now injection Et as <-.
Qed.

Lemma path_found_records_path_cost_witness :
  exists x,
    nth_error (fst (generateDijkstraSteps sample_store sample_graph "A"
                      (Some "F"))) 28 = Some x
    /\ exists tid, Some "F" = Some tid /\ path_found_ok sample_graph "A" tid x.
Proof.
  eexists. split; [vm_compute; reflexivity|].
  apply (proj1 (path_found_records_path_cost sample_store sample_graph "A")
               (Some "F")).
  - reflexivity.
  - apply nth_error_In with (n := 28). vm_compute. reflexivity.
  - reflexivity.
Defined.

(** C2 fails as stated: with a source that is not a node, chosen as its own
    target, the single-source engine emits a [path-found] step whose path is
    the source alone and whose total cost is undefined, not 0. *)
Lemma path_found_cost_undefined :
  exists x,
    In x (fst (generateDijkstraSteps sample_store sample_graph "Z" (Some "Z")))
    /\ step_type x = PathFound
    /\ shortestPath x = Some ["Z"]
    /\ totalDistance x = None
    /\ ~ path_found_ok sample_graph "Z" "Z" x.
Proof.
  eexists. split; [apply nth_error_In with (n := 2); vm_compute; reflexivity|].
  split; [reflexivity|]. split; [reflexivity|]. split; [reflexivity|].
  intros (path & z & _ & Htd & _). discriminate Htd.
Qed.

(* ================================================================== *)
(** ** Relaxations and the queue *)
(* ================================================================== *)




(* ================================================================== *)
(** ** The edit operations and the graph they are given *)
(* ================================================================== *)

(** [addNode] leaves the graph it is given as it was. *)
Lemma addNode_input_unchanged h graph node :
  (forall n l, In (n, l) (adjacencyList graph) -> l < List.length h) ->
  graph_view (fst (addNode h graph node)) graph = graph_view h graph.
Proof.
  intros Hv. unfold addNode, ensure_adjacency, store_alloc.
  destruct (map_has (node_id node) (adjacencyList graph)); cbn [fst]; auto.
  unfold graph_view, adjacency_view. f_equal. f_equal.
  apply map_ext_in. intros [n l] Hin. cbn [fst snd]. f_equal.
  apply deref_alloc_old. now apply (Hv n l).
Qed.

(** C4 fails on the code.  [addEdge] called on the graph with nodes A and B
    returns a new graph value, and adds the id of the new edge to the
    adjacency sets of A and B that the graph it was given still holds: after
    the call that graph lists the edge AB in both sets while its edge map is
    still empty.  [removeEdge] and [removeNode] called on the result empty
    the adjacency sets of the graph they were given, whose edge map still
    holds AB. *)
Theorem edit_operations_change_their_input :
  let h0 := fst two_nodes in
  let g0 := snd two_nodes in
  let r1 := addEdge h0 g0 (mkEdge "AB" "A" "B" 4 None) in
  let r2 := removeEdge (fst r1) (snd r1) "AB" in
  let r3 := removeNode (fst r1) (snd r1) "A" in
  (adjacency_view h0 g0 = [("A", Some []); ("B", Some [])]
   /\ adjacency_view (fst r1) g0 = [("A", Some ["AB"]); ("B", Some ["AB"])]
   /\ edges g0 = [])
  /\ (adjacency_view (fst r1) (snd r1) = [("A", Some ["AB"]); ("B", Some ["AB"])]
      /\ adjacency_view (fst r2) (snd r1) = [("A", Some []); ("B", Some [])]
      /\ map_keys (edges (snd r1)) = ["AB"])
  /\ adjacency_view (fst r3) (snd r1) = [("A", Some ["AB"]); ("B", Some [])].
Proof. vm_compute. repeat split. Qed.

(* ================================================================== *)
(** ** Nodes that are not in the graph *)
(* ================================================================== *)

(** C5 (as amended).  With a source that is not in the node map, the
    single-source engine raises no error: it emits its init step and runs to
    the end.  The heuristic engine fails before it emits a step: with the
    error that names the target when the target is not in the node map, and
    with the error of its heuristic when the target is a node and the
    heuristic throws on the missing source node. *)
Theorem absent_source_handling h graph s :
  map_has s (nodes graph) = false ->
  (forall t, exists rest,
      generateDijkstraSteps h graph s t
      = (dijkstra_init_step s (dijkstra_init_state graph s t [(s, Fin 0)]) :: rest,
         Returned))
  /\ (forall tid heuristic,
         map_get tid (nodes graph) = None ->
         generateAStarSteps h graph s tid heuristic
         = ([], Threw (target_not_found tid)))
  /\ (forall tid tnode heuristic e,
         map_get tid (nodes graph) = Some tnode ->
         heuristic None tnode = HThrow e ->
         generateAStarSteps h graph s tid heuristic = ([], Threw e)).
Proof.
  intros Hs. split3.
  - intros t. unfold generateDijkstraSteps.
    destruct (dijkstra_run_basic h graph s t (run_fuel h graph) (le_n _))
      as (steps & Hrun & _ & rest & ->).
    exists rest. exact Hrun.
  - intros tid heuristic Ht. unfold generateAStarSteps, astar_run. now rewrite Ht.
  - intros tid tnode heuristic e Ht Hh. unfold generateAStarSteps, astar_run.
    rewrite Ht. unfold map_has in Hs.
    destruct (map_get s (nodes graph)); [discriminate|]. now rewrite Hh.
Qed.

Lemma absent_source_handling_witness :
  (forall t, exists rest,
      generateDijkstraSteps sample_store sample_graph "Z" t
      = (dijkstra_init_step "Z" (dijkstra_init_state sample_graph "Z" t
                                   [("Z", Fin 0)]) :: rest,
         Returned))
  /\ (forall tid heuristic,
         map_get tid (nodes sample_graph) = None ->
         generateAStarSteps sample_store sample_graph "Z" tid heuristic
         = ([], Threw (target_not_found tid)))
  /\ (forall tid tnode heuristic e,
         map_get tid (nodes sample_graph) = Some tnode ->
         heuristic None tnode = HThrow e ->
         generateAStarSteps sample_store sample_graph "Z" tid heuristic
         = ([], Threw e)).
Proof. apply (absent_source_handling sample_store sample_graph "Z"). reflexivity. Defined.

(** C5 fails as stated: run from Z, which is not a node of the sample graph,
    the single-source engine emits four steps and returns without an error. *)
Lemma dijkstra_runs_from_absent_source :
  map_has "Z" (nodes sample_graph) = false
  /\ map (fun x => step_type x)
         (fst (generateDijkstraSteps sample_store sample_graph "Z" (Some "F")))
     = [Init; SelectNode; MarkVisited; NoPath]
  /\ snd (generateDijkstraSteps sample_store sample_graph "Z" (Some "F"))
     = Returned.
Proof. vm_compute. repeat split. Qed.

(* ================================================================== *)
(** ** The data-model invariant of the graph *)
(* ================================================================== *)

(** C6 (as amended).  For every graph built from [createGraph] by [addNode],
    [removeNode], [addEdge] and [removeEdge] calls in which every [addEdge]
    names an edge id that is not in the edge map and endpoints that are in
    the node map: every edge id of an adjacency set names an edge of the edge
    map, the endpoints of every edge are in the node map, and in an
    undirected graph every edge id is in the adjacency sets of both its
    endpoints. *)
Theorem edits_keep_graph_invariant d es :
  edits_ok ([], createGraph d) es ->
  graph_invariant (fst (run_edits ([], createGraph d) es))
                  (snd (run_edits ([], createGraph d) es)).
Proof. intros H. apply graph_ok_invariant. now apply edits_graph_ok. Qed.

Lemma edits_keep_graph_invariant_witness :
  graph_invariant
    (fst (run_edits ([], createGraph false)
            (sample_edits ++ [ERemoveEdge "CD"; ERemoveNode "B"])))
    (snd (run_edits ([], createGraph false)
            (sample_edits ++ [ERemoveEdge "CD"; ERemoveNode "B"]))).
Proof. apply edits_keep_graph_invariant. vm_compute. tauto. Defined.

(** C6 fails as stated: [addEdge] checks nothing, and called on the empty
    graph it stores an edge whose endpoints are not in the node map. *)
Lemma addEdge_dangling_endpoints :
  ~ graph_invariant
      (fst (run_edits ([], createGraph false)
              [EAddEdge (mkEdge "AB" "A" "B" 1 None)]))
      (snd (run_edits ([], createGraph false)
              [EAddEdge (mkEdge "AB" "A" "B" 1 None)])).
Proof.
  intros (_ & He & _).
  destruct (He "AB" (mkEdge "AB" "A" "B" 1 (Some false)) eq_refl) as [Hs _].
  discriminate Hs.
Qed.

(* ================================================================== *)
(** ** How a run of the single-source engine ends *)
(* ================================================================== *)

(** C8.  Every run of [generateDijkstraSteps] returns.  With a target given
    (a non-empty id) that no [select-node] step selects, the run is a
    sequence of steps none of which is [path-found], [no-path] or [complete],
    followed by one [no-path] step.  With no target given, it is such a
    sequence followed by one [complete] step. *)
Theorem dijkstra_terminal_step h graph s t :
  snd (generateDijkstraSteps h graph s t) = Returned
  /\ (truthy t = true ->
      (forall sel, In sel (fst (generateDijkstraSteps h graph s t)) ->
                   step_type sel = SelectNode -> currentNode sel <> t) ->
      exists body last,
        fst (generateDijkstraSteps h graph s t) = body ++ [last]
        /\ Forall nonterminal body /\ step_type last = NoPath)
  /\ (truthy t = false ->
      exists body last,
        fst (generateDijkstraSteps h graph s t) = body ++ [last]
        /\ Forall nonterminal body /\ step_type last = Complete).
Proof.
  unfold generateDijkstraSteps.
  destruct (dijkstra_run_basic h graph s t (run_fuel h graph) (le_n _))
    as (steps & Hrun & _).
  destruct (dijkstra_run_shape h graph s t (run_fuel h graph)) as [_ Hshape].
  rewrite Hrun in *. cbn [fst snd] in *.
  destruct (Hshape eq_refl) as (body & last & Hb & Hbody & Hc).
  split3; auto.
  - intros Htr Hnone. exists body, last. split3; auto.
    destruct Hc as [(E & _ & sel & Hin & Hty & Hcur)|[(E & _)|(E & Hf)]]; auto.
    + exfalso. apply (Hnone sel); auto. rewrite Hb. apply in_or_app. now left.
    + congruence.
  - intros Htr. exists body, last. split3; auto.
    destruct Hc as [(E & Ht & _)|[(E & Ht & _)|(E & _)]]; auto; congruence.
Qed.

Lemma dijkstra_terminal_step_witness :
  (exists body last,
      fst (generateDijkstraSteps one_way_store one_way_graph "F" (Some "A"))
      = body ++ [last]
      /\ Forall nonterminal body /\ step_type last = NoPath)
  /\ (exists body last,
         fst (generateDijkstraSteps sample_store sample_graph "A" None)
         = body ++ [last]
         /\ Forall nonterminal body /\ step_type last = Complete).
Proof.
  split.
  - apply (proj1 (proj2 (dijkstra_terminal_step one_way_store one_way_graph
                           "F" (Some "A")))).
    + reflexivity.
    + intros sel Hin Hty. vm_compute in Hin.
      destruct Hin as [<-|[<-|[<-|[<-|[]]]]];
        cbn [step_type currentNode] in *; congruence.
  - apply (proj2 (proj2 (dijkstra_terminal_step sample_store sample_graph
                           "A" None))).
    reflexivity.
Defined.

(* ================================================================== *)
(** ** The empty graph *)
(* ================================================================== *)



(* ================================================================== *)
(** ** Snapshots only grow *)
(* ================================================================== *)

(** C10.  In the step sequence of either engine, for every step and every
    later step: every node visited in the first is visited in the second,
    and every distance the first records is recorded by the second with a
    value that is not greater. *)
Theorem snapshots_monotone h graph s :
  (forall t i j x y,
      i < j ->
      nth_error (fst (generateDijkstraSteps h graph s t)) i = Some x ->
      nth_error (fst (generateDijkstraSteps h graph s t)) j = Some y ->
      (forall v, In v (visited x) -> In v (visited y))
      /\ (forall v d, map_get v (distances x) = Some d ->
            exists d', map_get v (distances y) = Some d' /\ num_le d' d = true))
  /\ (forall tid heuristic i j x y,
         i < j ->
         nth_error (fst (generateAStarSteps h graph s tid heuristic)) i = Some x ->
         nth_error (fst (generateAStarSteps h graph s tid heuristic)) j = Some y ->
         (forall v, In v (visited x) -> In v (visited y))
         /\ (forall v d, map_get v (distances x) = Some d ->
               exists d', map_get v (distances y) = Some d'
                          /\ num_le d' d = true)).
Proof.
  split.
  - intros t i j x y Hij Hi Hj. unfold generateDijkstraSteps in *.
    destruct (dijkstra_run_basic h graph s t (run_fuel h graph) (le_n _))
      as (steps & Hrun & Htr & _).
    rewrite Hrun in *. cbn [fst] in *.
    exact (trace_ok_pairs _ _ mono_trans _ _ Htr i j x y Hij Hi Hj).
  - intros tid heuristic i j x y Hij Hi Hj.
    destruct (astar_steps_trace h graph s tid heuristic)
      as [[He _]|(tnode & hv & _ & Htr & _)].
    + rewrite He in Hi. destruct i; discriminate.
    + exact (trace_ok_pairs _ _ mono_trans _ _ Htr i j x y Hij Hi Hj).
Qed.

Lemma snapshots_monotone_witness :
  exists x y,
    nth_error (fst (generateDijkstraSteps sample_store sample_graph "A"
                      (Some "F"))) 4 = Some x
    /\ nth_error (fst (generateDijkstraSteps sample_store sample_graph "A"
                         (Some "F"))) 20 = Some y
    /\ (forall v, In v (visited x) -> In v (visited y))
    /\ (forall v d, map_get v (distances x) = Some d ->
          exists d', map_get v (distances y) = Some d' /\ num_le d' d = true).
Proof.
  eexists. eexists.
  split; [vm_compute; reflexivity|]. split; [vm_compute; reflexivity|].
  apply (proj1 (snapshots_monotone sample_store sample_graph "A")
               (Some "F") 4 20).
  - lia.
  - vm_compute. reflexivity.
  - vm_compute. reflexivity.
Defined.

(* ================================================================== *)
(** ** Two runs on the same input *)
(* ================================================================== *)

Lemma dijkstra_run_fuel h graph s t fuel :
  run_fuel h graph <= fuel ->
  dijkstra_run fuel h graph s t = generateDijkstraSteps h graph s t.
Proof.
  intros Hle. unfold generateDijkstraSteps.
  destruct (dijkstra_run_basic h graph s t (run_fuel h graph) (le_n _))
    as (steps & Hrun & _).
  unfold dijkstra_run in *.
  change (enqueue [] s (Fin 0)) with (Some [(s, Fin 0)]) in *. cbv iota in *.
  rewrite (dijkstra_loop_fuel_mono h graph s t (run_fuel h graph) _) with (fuel' := fuel);
    auto.
  destruct (dijkstra_loop (run_fuel h graph) h graph s t _) as [rest e].
  injection Hrun as _ ->. discriminate.
Qed.

Lemma astar_run_fuel h graph s tid heuristic fuel :
  run_fuel h graph <= fuel ->
  astar_run fuel h graph s tid heuristic = generateAStarSteps h graph s tid heuristic.
Proof.
  intros Hle. unfold generateAStarSteps.
  destruct (map_get tid (nodes graph)) as [tnode|] eqn:Ht;
    [|unfold astar_run; now rewrite Ht].
  destruct (heuristic (map_get s (nodes graph)) tnode) as [hv|e] eqn:Hh;
    [|unfold astar_run; now rewrite Ht, Hh].
  destruct (astar_run_basic h graph s tid tnode heuristic (run_fuel h graph) hv
              (le_n _) Ht Hh) as (rest & e & _ & Hloop & He & _).
  unfold astar_run. rewrite Ht, Hh.
  change (enqueue [] s hv) with (Some [(s, hv)]). cbv iota zeta.
  rewrite (astar_loop_fuel_mono h graph s tid tnode heuristic
             (run_fuel h graph) _) with (fuel' := fuel); auto.
  cbv zeta in Hloop. rewrite Hloop. exact He.
Qed.

(** C7.  The step sequence of a run is a function of the graph, the source,
    the target, the algorithm and the heuristic alone: two runs on graphs
    that hold the same nodes, edges and adjacency sets, wherever those sets
    are stored and however many turns the loops are allowed beyond their
    bound, give the same steps and the same ending, and the run always
    ends. *)
Theorem engines_deterministic h1 g1 h2 g2 s :
  graph_view h1 g1 = graph_view h2 g2 ->
  (forall t fuel1 fuel2,
      run_fuel h1 g1 <= fuel1 -> run_fuel h2 g2 <= fuel2 ->
      dijkstra_run fuel1 h1 g1 s t = dijkstra_run fuel2 h2 g2 s t
      /\ generateDijkstraSteps h1 g1 s t = generateDijkstraSteps h2 g2 s t
      /\ snd (generateDijkstraSteps h1 g1 s t) = Returned)
  /\ (forall tid heuristic fuel1 fuel2,
         run_fuel h1 g1 <= fuel1 -> run_fuel h2 g2 <= fuel2 ->
         astar_run fuel1 h1 g1 s tid heuristic
         = astar_run fuel2 h2 g2 s tid heuristic
         /\ generateAStarSteps h1 g1 s tid heuristic
            = generateAStarSteps h2 g2 s tid heuristic
         /\ snd (generateAStarSteps h1 g1 s tid heuristic) <> OutOfFuel)
  /\ (forall euclideanDistance sourceId targetId algorithm,
         generateSteps euclideanDistance h1 g1 sourceId targetId algorithm
         = generateSteps euclideanDistance h2 g2 sourceId targetId algorithm).
Proof.
  intros Hv. pose proof (run_fuel_view _ _ _ _ Hv) as Hf.
  assert (HD : forall src t, generateDijkstraSteps h1 g1 src t
                             = generateDijkstraSteps h2 g2 src t).
  { intros src t. unfold generateDijkstraSteps. rewrite Hf.
    now apply dijkstra_run_view. }
  assert (HA : forall src tid heuristic,
             generateAStarSteps h1 g1 src tid heuristic
             = generateAStarSteps h2 g2 src tid heuristic).
  { intros src tid heuristic. unfold generateAStarSteps. rewrite Hf.
    now apply astar_run_view. }
  split3.
  - intros t fuel1 fuel2 H1 H2. split3; auto.
    + rewrite !dijkstra_run_fuel by auto. apply HD.
    + unfold generateDijkstraSteps.
      destruct (dijkstra_run_basic h1 g1 s t (run_fuel h1 g1) (le_n _))
        as (steps & Hrun & _).
      now rewrite Hrun.
  - intros tid heuristic fuel1 fuel2 H1 H2. split3; auto.
    + rewrite !astar_run_fuel by auto. apply HA.
    + destruct (astar_steps_trace h1 g1 s tid heuristic)
        as [[_ He]|(tnode & hv & _ & _ & _ & He)]; auto.
  - intros euclideanDistance sourceId targetId algorithm.
    assert (Hn : nodes g1 = nodes g2).
    { unfold graph_view in Hv. now injection Hv. }
    unfold generateSteps. rewrite Hn.
    destruct sourceId as [src|]; auto.
    destruct (_ || _); auto.
    destruct algorithm; auto. destruct targetId; auto.
Qed.

Lemma engines_deterministic_witness :
  generateDijkstraSteps sample_store sample_graph "A" (Some "F")
  = generateDijkstraSteps ([["stale"]] ++ sample_store)
      (mkGraph (nodes sample_graph) (edges sample_graph)
               (map (fun kl => (fst kl, S (snd kl))) (adjacencyList sample_graph))
               (directed sample_graph))
      "A" (Some "F").
Proof.
  apply (proj1 (engines_deterministic sample_store sample_graph
                  ([["stale"]] ++ sample_store)
                  (mkGraph (nodes sample_graph) (edges sample_graph)
                     (map (fun kl => (fst kl, S (snd kl)))
                          (adjacencyList sample_graph))
                     (directed sample_graph))
                  "A" eq_refl) (Some "F") _ _ (le_n _) (le_n _)).
Defined.


(* ================================================================== *)
(** ** What the last step of the single-source engine tells *)
(* ================================================================== *)

Section DijkstraEnd.
Variables (h : Store) (graph : Graph) (s : string) (t : option string).
Hypothesis Hnonneg : nonneg_weights graph.
Hypothesis Hsource : map_has s (nodes graph) = true.
Hypothesis Hends : endpoints_exist graph.
Hypothesis Hadj : adjacency_complete h graph.

  (** When the queue has emptied, the visited nodes are the nodes a path
      leads to. *)
Lemma queue_empty_visited c :
    opt_inv graph s no_pending c -> c_queue c = [] ->
    forall v, reachable graph s v -> In v (c_visited c).
  Proof.
    intros Hinv Hq v [cst Hw].
    destruct (frontier graph s Hnonneg c Hinv v cst Hw)
      as [Hv|(w & dw & Hw' & Hdw & _)]; auto.
    pose proof (oi_queued _ _ _ _ Hinv w dw Hw' Hdw) as Hin.
    rewrite Hq in Hin. destruct Hin.
  Qed.

Lemma last_step_cases body last :
    fst (generateDijkstraSteps h graph s t) = body ++ [last] ->
    (step_type last = PathFound
     /\ exists tid, t = Some tid /\ In tid (visited last))
    \/ (step_type last <> PathFound /\ queue last = []
        /\ opt_inv graph s no_pending (core_of_step last)
        /\ (forall tid, step_type last = NoPath -> t = Some tid ->
                        ~ In tid (visited last))).
  Proof.
    intros Hb.
    destruct (dijkstra_run_end h graph s t Hnonneg Hends Hadj Hsource)
      as (body' & last' & Hb' & Hlast).
    rewrite Hb in Hb'. apply app_inj_tail in Hb'. destruct Hb' as [_ ->].
    exact Hlast.
  Qed.

End DijkstraEnd.

(** A [no-path] step is right: when the run of [generateDijkstraSteps] on a
    graph with non-negative weights ends with a [no-path] step, no path of
    the graph leads from the source to the target. *)
Theorem dijkstra_no_path_unreachable h graph s tid body last :
  nonneg_weights graph ->
  map_has s (nodes graph) = true ->
  endpoints_exist graph ->
  adjacency_complete h graph ->
  fst (generateDijkstraSteps h graph s (Some tid)) = body ++ [last] ->
  step_type last = NoPath ->
  ~ reachable graph s tid.
Proof.
  intros Hnn Hs Hends Hadj Hb Hty Hreach.
  destruct (last_step_cases h graph s (Some tid) Hnn Hs Hends Hadj body last Hb)
    as [[E _]|(_ & Hq & Hinv & Hno)]; [congruence|].
  apply (Hno tid Hty eq_refl).
  now apply (queue_empty_visited graph s Hnn (core_of_step last) Hinv Hq).
Qed.

Lemma dijkstra_no_path_unreachable_witness :
  ~ reachable one_way_graph "F" "A".
Proof.
  eapply (dijkstra_no_path_unreachable one_way_store one_way_graph "F" "A"
            _ _).
  - apply nonneg_weights_check. reflexivity.
  - reflexivity.
  - apply (ok_endpoints _ _ one_way_graph_ok).
  - apply graph_ok_adjacency_complete. apply one_way_graph_ok.
  - vm_compute. 
    match goal with |- ?a :: ?b :: ?c :: [?d] = _ =>
      change (a :: b :: c :: [d]) with ([a; b; c] ++ [d]) end.
    reflexivity.
  - reflexivity.
Defined.



(** When the run does not end on [path-found], the queue has emptied and the
    last step has visited exactly the nodes that a path from the source leads
    to; every node of the node map that no path leads to still records the
    distance [Infinity]. *)
Theorem dijkstra_end_visits_reachable h graph s t body last :
  nonneg_weights graph ->
  map_has s (nodes graph) = true ->
  endpoints_exist graph ->
  adjacency_complete h graph ->
  fst (generateDijkstraSteps h graph s t) = body ++ [last] ->
  step_type last <> PathFound ->
  queue last = []
  /\ (forall v, In v (visited last) <-> reachable graph s v)
  /\ (forall v, map_has v (nodes graph) = true -> ~ reachable graph s v ->
                map_get v (distances last) = Some PInf).
Proof.
  intros Hnn Hs Hends Hadj Hb Hty.
  destruct (last_step_cases h graph s t Hnn Hs Hends Hadj body last Hb)
    as [[E _]|(_ & Hq & Hinv & _)]; [congruence|].
  split3; auto.
  - intros v. split.
    + intros Hv. destruct (oi_optimal _ _ _ _ Hinv v Hv) as (d & _ & Hw & _).
      now exists d.
    + apply (queue_empty_visited graph s Hnn (core_of_step last) Hinv Hq).
  - intros v Hv Hnr.
    destruct (oi_defined _ _ _ _ Hinv v Hv) as (d & Hd & Hnan).
    change (map_get v (distances last) = Some d) in Hd. rewrite Hd.
    destruct d as [z| |]; [|reflexivity|congruence].
    exfalso. apply Hnr. exists z. now apply (oi_walk _ _ _ _ Hinv).
Qed.

Lemma dijkstra_end_visits_reachable_witness :
  exists last,
    nth_error (fst (generateDijkstraSteps one_way_store one_way_graph "D" None)) 13
    = Some last
    /\ visited last = ["D"; "E"; "F"]
    /\ queue last = []
    /\ (forall v, In v (visited last) <-> reachable one_way_graph "D" v)
    /\ (forall v, map_has v (nodes one_way_graph) = true ->
                  ~ reachable one_way_graph "D" v ->
                  map_get v (distances last) = Some PInf).
Proof.
  eexists. split; [vm_compute; reflexivity|]. split; [reflexivity|].
  eapply (dijkstra_end_visits_reachable one_way_store one_way_graph "D" None
            (firstn 13 (fst (generateDijkstraSteps one_way_store one_way_graph
                               "D" None)))).
  - apply nonneg_weights_check. reflexivity.
  - reflexivity.
  - apply (ok_endpoints _ _ one_way_graph_ok).
  - apply graph_ok_adjacency_complete. apply one_way_graph_ok.
  - vm_compute. reflexivity.
  - discriminate.
Defined.

(* ================================================================== *)
(** ** The priority queue *)
(* ================================================================== *)

(** [enqueue] on a heap-ordered queue of finite priorities adds the entry,
    loses none, and leaves the queue heap-ordered. *)
Theorem priority_queue_enqueue heap item z :
  all_fin heap -> heap_ok heap ->
  exists heap',
    enqueue heap item (Fin z) = Some heap'
    /\ Permutation ((item, Fin z) :: heap) heap'
    /\ heap_ok heap' /\ all_fin heap'.
Proof.
  intros Hf Hok.
  destruct (enqueue_total heap item (Fin z)) as (heap' & He & Hp).
  exists heap'. split3; auto. eapply enqueue_heap; eauto.
Qed.

Lemma priority_queue_enqueue_witness :
  exists heap',
    enqueue [("B", Fin 4); ("D", Fin 9)] "C" (Fin 2) = Some heap'
    /\ Permutation (("C", Fin 2) :: [("B", Fin 4); ("D", Fin 9)]) heap'
    /\ heap_ok heap' /\ all_fin heap'.
Proof.
  apply priority_queue_enqueue.
  - repeat constructor; eexists; reflexivity.
  - intros p c [Hc|Hc] Hlen _; simpl in Hlen;
      assert (p = 0 /\ c = 1) as [-> ->] by lia; vm_compute; discriminate.
Defined.

(** [dequeue] on a non-empty heap-ordered queue of finite priorities returns
    the item of an entry whose priority no entry of the queue is below, and
    leaves exactly the other entries, heap-ordered. *)
Theorem priority_queue_dequeue heap :
  all_fin heap -> heap_ok heap -> heap <> [] ->
  exists x heap',
    dequeue heap = Some (Some (fst x), heap')
    /\ In x heap
    /\ (forall e, In e heap -> (keyZ x <= keyZ e)%Z)
    /\ Permutation heap (x :: heap')
    /\ heap_ok heap' /\ all_fin heap'.
Proof.
  intros Hf Hok Hne.
  destruct (dequeue_nonempty heap Hne) as (x & heap' & Hd & Hp & Hx).
  exists x, heap'. split; auto. split; [eapply nth_error_In; eauto|].
  split; [intros e He; eapply heap_min_entry; eauto|].
  split; auto. eapply dequeue_heap; eauto.
Qed.

Lemma priority_queue_dequeue_witness :
  exists x heap',
    dequeue [("C", Fin 2); ("B", Fin 4)] = Some (Some (fst x), heap')
    /\ In x [("C", Fin 2); ("B", Fin 4)]
    /\ (forall e, In e [("C", Fin 2); ("B", Fin 4)] -> (keyZ x <= keyZ e)%Z)
    /\ Permutation [("C", Fin 2); ("B", Fin 4)] (x :: heap')
    /\ heap_ok heap' /\ all_fin heap'.
Proof.
  apply priority_queue_dequeue.
  - repeat constructor; eexists; reflexivity.
  - intros p c [Hc|Hc] Hlen _; simpl in Hlen;
      assert (p = 0 /\ c = 1) as [-> ->] by lia; vm_compute; discriminate.
  - discriminate.
Defined.

(* ================================================================== *)
(** ** Queries on the graph *)
(* ================================================================== *)

(** In a graph whose adjacency index lists its edges, [getNeighbors] returns
    the nodes an edge leads to from the given node, each with the weight of
    that edge, and no others. *)
Theorem getNeighbors_exact h graph u w wt :
  adjacency_complete h graph ->
  (hop graph u w wt
   <-> exists nb, In nb (getNeighbors h graph u)
                  /\ nb_nodeId nb = w /\ nb_weight nb = wt).
Proof.
  intros Hadj. split.
  - now apply getNeighbors_complete.
  - intros (nb & Hin & <- & <-). eapply getNeighbors_hop; eauto.
Qed.

Lemma getNeighbors_exact_witness :
  hop sample_graph "C" "A" 2
  <-> exists nb, In nb (getNeighbors sample_store sample_graph "C")
                 /\ nb_nodeId nb = "A" /\ nb_weight nb = 2%Z.
Proof.
  apply getNeighbors_exact.
  apply graph_ok_adjacency_complete. apply sample_graph_ok.
Defined.

Lemma find_edge_between_sound graph a b ids e :
  find_edge_between graph a b ids = Some e ->
  exists id, In id ids /\ map_get id (edges graph) = Some e /\ joins graph e a b.
Proof.
  induction ids as [|id ids IH]; simpl; [discriminate|].
  destruct (map_get id (edges graph)) as [edge|] eqn:Hg.
  - destruct (String.eqb_spec (edge_source edge) a) as [Hs|Hs];
      destruct (String.eqb_spec (edge_target edge) b) as [Ht|Ht]; simpl.
    1: { intros [= <-]. exists id. split3; auto. now left. }
    all: destruct (directed graph) eqn:Hd; simpl.
    all: try (intros H; destruct (IH H) as (id' & ? & ? & ?); eauto; fail).
    all: destruct (String.eqb_spec (edge_source edge) b) as [Hs'|Hs'];
         destruct (String.eqb_spec (edge_target edge) a) as [Ht'|Ht']; simpl.
    all: try (intros H; destruct (IH H) as (id' & ? & ? & ?); eauto; fail).
    all: intros [= <-]; exists id; split3; auto; right; auto.
  - intros H. destruct (IH H) as (id' & ? & ? & ?). eauto.
Qed.

Lemma find_edge_between_complete graph a b ids id e :
  In id ids -> map_get id (edges graph) = Some e -> joins graph e a b ->
  exists e', find_edge_between graph a b ids = Some e'.
Proof.
  intros Hin Hg Hj. induction ids as [|id0 ids IH]; [destruct Hin|].
  simpl. destruct (map_get id0 (edges graph)) as [edge|] eqn:Hg0.
  - destruct (String.eqb (edge_source edge) a && String.eqb (edge_target edge) b)
      eqn:E1; [eauto|].
    destruct (negb (directed graph) && String.eqb (edge_source edge) b
              && String.eqb (edge_target edge) a) eqn:E2; [eauto|].
    destruct Hin as [->|Hin]; auto.
    exfalso. assert (edge = e) by congruence. subst edge.
    destruct Hj as [[Hs Ht]|(Hd & Hs & Ht)].
    + rewrite Hs, Ht, !String.eqb_refl in E1. discriminate.
    + rewrite Hd, Hs, Ht, !String.eqb_refl in E2. discriminate.
  - destruct Hin as [->|Hin]; [congruence|auto].
Qed.

(** In a graph whose adjacency index lists its edges, [getEdgeBetween]
    returns an edge exactly when some edge of the edge map joins the two
    nodes, and the edge it returns is such an edge, listed in the adjacency
    set of the first node. *)
Theorem getEdgeBetween_exact h graph a b :
  adjacency_complete h graph ->
  (forall e, getEdgeBetween h graph a b = Some e ->
     exists id, in_adjacency h graph a id
                /\ map_get id (edges graph) = Some e /\ joins graph e a b)
  /\ ((exists e, getEdgeBetween h graph a b = Some e)
      <-> exists id e, map_get id (edges graph) = Some e /\ joins graph e a b).
Proof.
  intros Hadj.
  assert (Hsound : forall e, getEdgeBetween h graph a b = Some e ->
            exists id, in_adjacency h graph a id
                       /\ map_get id (edges graph) = Some e /\ joins graph e a b).
  { intros e. unfold getEdgeBetween.
    destruct (map_get a (adjacencyList graph)) as [l|] eqn:Hl; [|discriminate].
    destruct (deref h l) as [ids|] eqn:Hd; [|discriminate].
    intros H. destruct (find_edge_between_sound _ _ _ _ _ H) as (id & Hin & Hg & Hj).
    exists id. split3; auto. exists l, ids. auto. }
  split; auto. split.
  - intros [e He]. destruct (Hsound e He) as (id & _ & Hg & Hj). eauto.
  - intros (id & e & Hg & Hj).
    destruct (Hadj id e Hg) as [Hsrc Htgt].
    assert (Hin : in_adjacency h graph a id).
    { destruct Hj as [[<- _]|(Hd & _ & <-)]; auto. }
    destruct Hin as (l & ids & Hl & Hd & Hin).
    unfold getEdgeBetween. rewrite Hl, Hd.
    eapply find_edge_between_complete; eauto.
Qed.

Lemma getEdgeBetween_exact_witness :
  (forall e, getEdgeBetween sample_store sample_graph "E" "C" = Some e ->
     exists id, in_adjacency sample_store sample_graph "E" id
                /\ map_get id (edges sample_graph) = Some e
                /\ joins sample_graph e "E" "C")
  /\ ((exists e, getEdgeBetween sample_store sample_graph "E" "C" = Some e)
      <-> exists id e, map_get id (edges sample_graph) = Some e
                       /\ joins sample_graph e "E" "C").
Proof.
  apply getEdgeBetween_exact.
  apply graph_ok_adjacency_complete. apply sample_graph_ok.
Defined.

(* ================================================================== *)
(** ** Edits of the graph *)
(* ================================================================== *)

(** [removeNode] removes the node, its adjacency set and every edge that has
    it as an endpoint, and keeps every other node and edge as it was. *)
Theorem removeNode_removes_incident_edges h graph nodeId :
  graph_ok h graph ->
  let graph' := snd (removeNode h graph nodeId) in
  map_get nodeId (nodes graph') = None
  /\ map_get nodeId (adjacencyList graph') = None
  /\ (forall n, n <> nodeId -> map_get n (nodes graph') = map_get n (nodes graph))
  /\ (forall id e, map_get id (edges graph') = Some e <->
        map_get id (edges graph) = Some e
        /\ edge_source e <> nodeId /\ edge_target e <> nodeId).
Proof.
  intros Hok graph'.
  assert (Hn : nodes graph' = map_delete nodeId (nodes graph)).
  { unfold graph', removeNode. now destruct (fold_left _ _ _). }
  assert (Ha : adjacencyList graph' = map_delete nodeId (adjacencyList graph)).
  { unfold graph', removeNode. now destruct (fold_left _ _ _). }
  split; [rewrite Hn; apply map_get_delete_eq|].
  split; [rewrite Ha; apply map_get_delete_eq|].
  split; [intros n Hne; rewrite Hn; apply map_get_delete_ne; congruence|].
  intros id e. unfold graph'.
  rewrite (removeNode_edges h graph nodeId id (ok_edge_keys _ _ Hok)
             (ok_loc_inj _ _ Hok)).
  destruct (map_get id (edges graph)) as [edge|]; [|split; [discriminate|tauto]].
  destruct (incident nodeId edge) eqn:Hinc.
  - split; [discriminate|]. intros ([= ->] & Hs & Ht).
    assert (incident nodeId e = false) by (apply incident_false; auto).
    congruence.
  - apply incident_false in Hinc. split.
    + intros [= ->]. auto.
    + intros [[= ->] _]. reflexivity.
Qed.

Lemma removeNode_removes_incident_edges_witness :
  let graph' := snd (removeNode sample_store sample_graph "D") in
  map_get "D" (nodes graph') = None
  /\ map_get "D" (adjacencyList graph') = None
  /\ (forall n, n <> "D" -> map_get n (nodes graph') = map_get n (nodes sample_graph))
  /\ (forall id e, map_get id (edges graph') = Some e <->
        map_get id (edges sample_graph) = Some e
        /\ edge_source e <> "D" /\ edge_target e <> "D").
Proof. apply removeNode_removes_incident_edges. apply sample_graph_ok. Defined.

Lemma addNode_input_unchanged_witness :
  graph_view (fst (addNode sample_store sample_graph (mkNode "G" 0 0 None)))
             sample_graph
  = graph_view sample_store sample_graph.
Proof.
  apply addNode_input_unchanged.
  intros n l Hin. vm_compute in Hin.
  repeat (destruct Hin as [Hin|Hin]; [injection Hin as _ <-; vm_compute; lia|]).
  destruct Hin.
Defined.

Lemma map_delete_set_fresh {V : Type} k (v : V) m :
  map_get k m = None -> map_delete k (map_set k v m) = m.
Proof.
  induction m as [|[k0 v0] m IH]; simpl.
  - now rewrite String.eqb_refl.
  - destruct (String.eqb_spec k0 k) as [->|Hne]; [discriminate|].
    intros H. simpl. destruct (String.eqb_spec k0 k); [contradiction|].
    simpl. f_equal. exact (IH H).
Qed.

Lemma set_delete_fresh x s : ~ In x s -> set_delete x s = s.
Proof.
  unfold set_delete. induction s as [|y s IH]; simpl; auto.
  intros H. destruct (String.eqb_spec y x) as [->|Hne]; [tauto|].
  simpl. f_equal. tauto.
Qed.

Lemma set_delete_add x s : ~ In x s -> set_delete x (set_add x s) = s.
Proof.
  intros H. unfold set_add. rewrite (proj2 (set_has_false x s) H).
  unfold set_delete. rewrite filter_app. simpl. rewrite String.eqb_refl. simpl.
  rewrite app_nil_r. now apply set_delete_fresh.
Qed.

Lemma set_add_twice x s : set_add x (set_add x s) = set_add x s.
Proof.
  unfold set_add at 1.
  assert (H : set_has x (set_add x s) = true)
    by (apply set_has_In, In_set_add; auto).
  now rewrite H.
Qed.

(** [removeEdge] undoes [addEdge]: after adding an edge with a new id between
    two nodes of a well-formed graph and removing that id again, the graph
    and every adjacency set are as they were before. *)
Theorem addEdge_removeEdge_round_trip h graph edge :
  graph_ok h graph ->
  map_get (edge_id edge) (edges graph) = None ->
  map_has (edge_source edge) (adjacencyList graph) = true ->
  map_has (edge_target edge) (adjacencyList graph) = true ->
  removeEdge (fst (addEdge h graph edge)) (snd (addEdge h graph edge))
             (edge_id edge)
  = (h, graph).
Proof.
  intros Hok Hfresh Hsrc Htgt.
  assert (Hnot : forall n l ss, map_get n (adjacencyList graph) = Some l ->
                   deref h l = Some ss -> ~ In (edge_id edge) ss).
  { intros n l ss Hl Hd Hin.
    destruct (ok_adjacent _ _ Hok n (edge_id edge)) as (e & He & _).
    - exists l, ss. auto.
    - congruence. }
  apply map_has_get in Hsrc. destruct Hsrc as [ls Hls].
  apply map_has_get in Htgt. destruct Htgt as [lt Hlt].
  destruct (loc_valid_deref _ _ _ _ (ok_loc_valid _ _ Hok) Hls) as [ss Hss].
  destruct (loc_valid_deref _ _ _ _ (ok_loc_valid _ _ Hok) Hlt) as [st Hst].
  pose proof (Hnot _ _ _ Hls Hss) as Hnss.
  pose proof (Hnot _ _ _ Hlt Hst) as Hnst.
  unfold addEdge, ensure_adjacency. unfold map_has. rewrite Hls.
  destruct graph as [nd ed adj dir]. cbn [nodes edges adjacencyList directed] in *.
  destruct dir.
  - (* directed *)
    cbn [fst snd]. unfold removeEdge.
    cbn [nodes edges adjacencyList directed edge_source edge_target].
    rewrite map_get_set_eq. cbn [edge_source edge_target].
    rewrite map_delete_set_fresh by auto. f_equal.
    unfold adjacency_add, adjacency_delete. rewrite Hls.
    apply nth_error_ext. intros l. fold (deref h l).
    change (nth_error ?x l) with (deref x l).
    rewrite !deref_store_upd.
    destruct (Nat.eqb_spec ls l) as [<-|Hne]; auto.
    rewrite Nat.eqb_refl, Hss. simpl. now rewrite set_delete_add.
  - (* undirected *)
    rewrite Hlt. cbn [fst snd]. unfold removeEdge.
    cbn [nodes edges adjacencyList directed edge_source edge_target].
    rewrite map_get_set_eq. cbn [edge_source edge_target].
    rewrite map_delete_set_fresh by auto. f_equal.
    unfold adjacency_add, adjacency_delete. rewrite Hls, Hlt.
    apply nth_error_ext. intros l.
    change (nth_error ?x l) with (deref x l).
    rewrite !deref_store_upd.
    destruct (Nat.eqb_spec lt l) as [<-|Hne1];
      destruct (Nat.eqb_spec ls lt) as [E|Hne2]; subst;
      try rewrite Nat.eqb_refl;
      repeat match goal with
             | |- context [Nat.eqb ?a ?b] =>
                 destruct (Nat.eqb_spec a b); try congruence
             end;
      rewrite ?Hss, ?Hst; simpl; auto.
    all: try (assert (ss = st) by congruence; subst ss).
    all: rewrite ?set_add_twice, ?set_delete_add, ?set_delete_fresh; auto.
    all: subst; congruence.
Qed.

Lemma addEdge_removeEdge_round_trip_witness :
  removeEdge
    (fst (addEdge sample_store sample_graph (mkEdge "AF" "A" "F" 7 None)))
    (snd (addEdge sample_store sample_graph (mkEdge "AF" "A" "F" 7 None)))
    "AF"
  = (sample_store, sample_graph).
Proof.
  apply (addEdge_removeEdge_round_trip sample_store sample_graph
           (mkEdge "AF" "A" "F" 7 None)).
  - apply sample_graph_ok.
  - reflexivity.
  - reflexivity.
  - reflexivity.
Defined.

(* ================================================================== *)
(** ** Predecessors and the reconstructed path *)
(* ================================================================== *)

Lemma step_predecessor_ok graph s x v u :
  basic_inv graph s (core_of_step x) ->
  predecessor_of (predecessors x) v = Some u ->
  In u (visited x)
  /\ exists du wt,
       map_get u (distances x) = Some (Fin du)
       /\ map_get v (distances x) = Some (Fin (du + wt))
       /\ hop graph u v wt.
Proof.
  intros Hinv Hp. split.
  - apply (bi_pred_visited _ _ _ Hinv v u Hp).
  - apply (bi_pred_dist _ _ _ Hinv v u Hp).
Qed.

(** In every step of either engine, a node that records a predecessor
    records the predecessor's distance plus the weight of an edge that leads
    from the predecessor to the node, and the predecessor is visited. *)
Theorem predecessors_consistent h graph s :
  (forall t x v u,
      In x (fst (generateDijkstraSteps h graph s t)) ->
      predecessor_of (predecessors x) v = Some u ->
      In u (visited x)
      /\ exists du wt,
           map_get u (distances x) = Some (Fin du)
           /\ map_get v (distances x) = Some (Fin (du + wt))
           /\ hop graph u v wt)
  /\ (forall tid heuristic x v u,
         In x (fst (generateAStarSteps h graph s tid heuristic)) ->
         predecessor_of (predecessors x) v = Some u ->
         In u (visited x)
         /\ exists du wt,
              map_get u (distances x) = Some (Fin du)
              /\ map_get v (distances x) = Some (Fin (du + wt))
              /\ hop graph u v wt).
Proof.
  split.
  - intros t x v u Hin Hp. unfold generateDijkstraSteps in Hin.
    destruct (dijkstra_run_basic h graph s t (run_fuel h graph) (le_n _))
      as (steps & Hrun & Htr & _).
    rewrite Hrun in Hin. cbn [fst] in Hin.
    apply trace_ok_all in Htr. rewrite Forall_forall in Htr.
    destruct (Htr x Hin) as [Hinv _]. eapply step_predecessor_ok; eauto.
  - intros tid heuristic x v u Hin Hp.
    destruct (astar_steps_trace h graph s tid heuristic)
      as [[He _]|(tnode & hv & _ & Htr & _)].
    + rewrite He in Hin. destruct Hin.
    + apply trace_ok_all in Htr. rewrite Forall_forall in Htr.
      destruct (Htr x Hin) as [Hinv _]. eapply step_predecessor_ok; eauto.
Qed.

Lemma predecessors_consistent_witness :
  exists x,
    nth_error (fst (generateAStarSteps detour_store detour_graph "A" "B"
                      zero_heuristic)) 8 = Some x
    /\ predecessor_of (predecessors x) "B" = Some "C"
    /\ In "C" (visited x)
    /\ exists du wt,
         map_get "C" (distances x) = Some (Fin du)
         /\ map_get "B" (distances x) = Some (Fin (du + wt))
         /\ hop detour_graph "C" "B" wt.
Proof.
  eexists. split; [vm_compute; reflexivity|]. split; [reflexivity|].
  apply (proj2 (predecessors_consistent detour_store detour_graph "A")
               "B" zero_heuristic _ "B" "C").
  - apply nth_error_In with (n := 8). vm_compute. reflexivity.
  - reflexivity.
Defined.




(** [findEdgeId] returns the id of an edge of the edge map that joins the two
    nodes, and returns [null] only when no edge of the edge map joins them. *)
Theorem findEdgeId_exact graph a b :
  (forall id, findEdgeId graph a b = Some id ->
     exists e, In (id, e) (edges graph) /\ joins graph e a b)
  /\ (findEdgeId graph a b = None ->
      forall id e, In (id, e) (edges graph) -> ~ joins graph e a b).
Proof.
  unfold findEdgeId.
  induction (edges graph) as [|[id0 e0] es [IH1 IH2]]; simpl.
  - split; [discriminate|]. intros _ id e [].
  - destruct (String.eqb_spec (edge_source e0) a) as [Hs|Hs];
      destruct (String.eqb_spec (edge_target e0) b) as [Ht|Ht]; simpl.
    1: { split; [|discriminate]. intros id [= <-]. exists e0. split; auto.
         now left. }
    all: destruct (directed graph) eqn:Hd; simpl.
    all: try (destruct (String.eqb_spec (edge_source e0) b) as [Hs'|Hs'];
              destruct (String.eqb_spec (edge_target e0) a) as [Ht'|Ht']; simpl).
    all: try (split; [|discriminate]; intros id [= <-]; exists e0; split; auto;
              right; auto; fail).
    all: split;
      [ intros id H; destruct (IH1 id H) as (e & ? & ?); exists e; split;
        [right|]; assumption
      | intros H id e [[= <- <-]|Hin];
        [ intros [[? ?]|(? & ? & ?)]; congruence | exact (IH2 H id e Hin) ] ].
Qed.

Lemma findEdgeId_exact_witness :
  findEdgeId sample_graph "C" "A" = Some "AC"
  /\ exists e, In ("AC", e) (edges sample_graph) /\ joins sample_graph e "C" "A".
Proof.
  split; [reflexivity|].
  apply (proj1 (findEdgeId_exact sample_graph "C" "A") "AC"). reflexivity.
Defined.

(* ================================================================== *)
(** ** [generateSteps] and the playback controls *)
(* ================================================================== *)

Lemma dijkstra_steps_shape h graph s t :
  exists body last,
    generateDijkstraSteps h graph s t = (body ++ [last], Returned)
    /\ Forall nonterminal body /\ is_terminal (step_type last) = true.
Proof.
  unfold generateDijkstraSteps.
  destruct (dijkstra_run_basic h graph s t (run_fuel h graph) (le_n _))
    as (steps & Hrun & _).
  destruct (dijkstra_run_shape h graph s t (run_fuel h graph)) as [_ Hshape].
  rewrite Hrun in *. cbn [fst snd] in *.
  destruct (Hshape eq_refl) as (body & last & -> & Hbody & Hc).
  exists body, last. split3; auto.
  destruct Hc as [(E & _)|[(E & _)|(E & _)]]; now rewrite E.
Qed.

(** With the single-source algorithm, [generateSteps] never fails; it returns
    no step exactly when no source is given or the graph has no node, and
    otherwise the sequence it returns ends with its only terminal step. *)
Theorem generateSteps_dijkstra_run euclideanDistance h graph sourceId targetId :
  snd (generateSteps euclideanDistance h graph sourceId targetId dijkstra)
  = Returned
  /\ (fst (generateSteps euclideanDistance h graph sourceId targetId dijkstra) = []
      <-> truthy sourceId = false \/ List.length (nodes graph) = 0)
  /\ (forall body last,
         fst (generateSteps euclideanDistance h graph sourceId targetId dijkstra)
         = body ++ [last] ->
         Forall nonterminal body /\ is_terminal (step_type last) = true).
Proof.
  unfold generateSteps. destruct sourceId as [s|]; cbn [truthy].
  2: { split3; auto; [tauto|]. intros body last H. destruct body; discriminate. }
  destruct (truthy_string s) eqn:Hs; cbn [negb orb].
  2: { split3; auto; [tauto|]. intros body last H. destruct body; discriminate. }
  destruct (Nat.eqb_spec (List.length (nodes graph)) 0) as [Hn|Hn].
  { split3; auto; [tauto|]. intros body last H. destruct body; discriminate. }
  destruct (dijkstra_steps_shape h graph s targetId)
    as (body & last & Hrun & Hbody & Hlast).
  rewrite Hrun. cbn [fst snd]. split3; auto.
  - split.
    + intros H. destruct body; discriminate.
    + intros [H|H]; [discriminate|contradiction].
  - intros body' last' H. apply app_inj_tail in H. destruct H as [<- <-]. auto.
Qed.



(** After [start] with the single-source algorithm, a source and a graph that
    has nodes, the playback holds the steps of the run at index 0; moved to
    the last step it is complete, and moved to any earlier step it is not. *)
Theorem playback_complete_at_last_step euclideanDistance h graph s targetId p :
  truthy_string s = true ->
  List.length (nodes graph) <> 0 ->
  exists p',
    start euclideanDistance h graph (Some s) targetId dijkstra p = inl p'
    /\ p_steps p' = fst (generateDijkstraSteps h graph s targetId)
    /\ p_index p' = 0%Z
    /\ isComplete (goToStep (steps_length p' - 1) p') = true
    /\ forall i, (0 <= i < steps_length p' - 1)%Z ->
                 isComplete (goToStep i p') = false.
Proof.
  intros Hs Hn. unfold start, generateSteps. cbn [truthy]. rewrite Hs.
  cbn [negb andb orb].
  destruct (Nat.eqb_spec (List.length (nodes graph)) 0) as [E|_]; [contradiction|].
  destruct (dijkstra_steps_shape h graph s targetId)
    as (body & last & Hrun & Hbody & Hlast).
  rewrite Hrun. eexists. split; [reflexivity|]. cbn [p_steps p_index fst].
  split; [reflexivity|]. split; [reflexivity|].
  assert (Hlen : Z.of_nat (List.length (body ++ [last]))
                 = (Z.of_nat (List.length body) + 1)%Z).
  { rewrite length_app. simpl. lia. }
  split.
  - unfold goToStep, steps_length. cbn [p_steps p_index]. rewrite Hlen.
    replace (Z.of_nat (List.length body) + 1 - 1)%Z
      with (Z.of_nat (List.length body)) by lia.
    destruct (Z.geb_spec (Z.of_nat (List.length body)) 0); [|lia].
    destruct (Z.ltb_spec (Z.of_nat (List.length body))
                         (Z.of_nat (List.length body) + 1)); [|lia].
    cbn [andb]. unfold isComplete, currentStep, steps_length.
    cbn [p_steps p_index]. rewrite Hlen.
    destruct (Z.geb_spec (Z.of_nat (List.length body)) 0); [|lia].
    destruct (Z.ltb_spec (Z.of_nat (List.length body))
                         (Z.of_nat (List.length body) + 1)); [|lia].
    replace (Z.of_nat (List.length body) + 1 - 1)%Z
      with (Z.of_nat (List.length body)) by lia.
    rewrite Z.eqb_refl, Nat2Z.id. cbn [andb].
    rewrite nth_error_app2, Nat.sub_diag by lia. simpl. exact Hlast.
  - intros i Hi. unfold goToStep, steps_length in *. cbn [p_steps p_index] in *.
    rewrite Hlen in *.
    destruct (Z.geb_spec i 0); [|lia].
    destruct (Z.ltb_spec i (Z.of_nat (List.length body) + 1)); [|lia].
    cbn [andb]. unfold isComplete, steps_length. cbn [p_steps p_index].
    rewrite Hlen.
    destruct (Z.geb_spec i 0); [|lia]. cbn [andb].
    destruct (Z.eqb_spec i (Z.of_nat (List.length body) + 1 - 1)); [lia|].
    reflexivity.
Qed.

Lemma playback_complete_at_last_step_witness :
  exists p',
    start zero_heuristic sample_store sample_graph (Some "A") (Some "F") dijkstra
          player_init = inl p'
    /\ p_steps p'
       = fst (generateDijkstraSteps sample_store sample_graph "A" (Some "F"))
    /\ p_index p' = 0%Z
    /\ isComplete (goToStep (steps_length p' - 1) p') = true
    /\ forall i, (0 <= i < steps_length p' - 1)%Z ->
                 isComplete (goToStep i p') = false.
Proof.
  apply playback_complete_at_last_step.
  - reflexivity.
  - vm_compute. discriminate.
Defined.
